(** * Descartes railed kinematics sampler

    A shallow embedding of
    [tesseract_motion_planners/descartes/impl/descartes_railed_sampler.hpp]
    and the properties of its grid search.

    Conventions of the embedding.
    - A [double] is a rational ([Q]); the doubles are the rationals that
      [double_of] leaves as they are. The one place where the code does
      arithmetic on doubles, the subtraction and the division of the grid
      count, rounds each result to the nearest double, ties to even, as
      IEEE 754 does; a comparison of two doubles is exact. A division by
      zero, an infinite result and a conversion that leaves [int] are
      written out as undefined behaviour.
    - [FloatType], the template argument of the class, is the conversion
      [to_FloatType] from [double]: the identity for [double], rounding to
      single precision for [float]. Widening a [FloatType] back to [double]
      is exact.
    - [Eigen::Isometry3d] and its operations are an interface ([Isometry]):
      the search only composes and inverts poses and takes the norm of a
      translation.
    - The kinematics and collision collaborators are records of pure
      functions, so a collaborator asked the same question twice answers
      the same; every call to one of them is appended to a call log, so
      that properties on the number and the order of the calls can be stated.
    - [solution_set] and [distance], which the C++ code passes by reference
      through the whole search, are the fields of one state, threaded by a
      state monad with an undefined-behaviour outcome; [sample_pose], the
      buffer one traversal writes into, is passed in and handed back. *)

From Stdlib Require Import String.
From Stdlib Require Import List ZArith QArith Qround Qabs Bool Lia Lqa Arith.
Import ListNotations.

Set Implicit Arguments.
Local Close Scope Q_scope.

(** ** Scalars *)

(** [x < y] on scalars, as a boolean. *)
Definition Qltb (x y : Q) : bool :=
  (Qnum x * QDen y <? Qnum y * QDen x)%Z.

(** [std::numeric_limits<double>::min()]: the smallest positive normalised
    [double], 2^-1022. *)
Definition numeric_limits_double_min : Q := (1 # (2 ^ 1022))%Q.

Definition INT_MIN : Z := (- 2 ^ 31)%Z.
Definition INT_MAX : Z := (2 ^ 31 - 1)%Z.

(** *** Rounding to a binary floating-point format *)

(** 2^e. *)
Definition Qpow2 (e : Z) : Q :=
  if (0 <=? e)%Z then inject_Z (2 ^ e) else (1 # Z.to_pos (2 ^ (- e)))%Q.

(** The exponent of a positive scalar: the [e] with 2^e <= x < 2^(e+1). *)
Definition Qlog2 (x : Q) : Z :=
  let e := (Z.log2 (Qnum x) - Z.log2 (Zpos (Qden x)))%Z in
  if Qle_bool (Qpow2 e) x then e else (e - 1)%Z.

(** The integer nearest to [x], the even one of the two when [x] lies half
    way. *)
Definition nearest_even (x : Q) : Z :=
  let f := Qfloor x in
  match (x - inject_Z f ?= 1 # 2)%Q with
  | Lt => f
  | Gt => (f + 1)%Z
  | Eq => if Z.even f then f else (f + 1)%Z
  end.

(** [x] rounded to the nearest value of the binary format with [prec] bits
    of precision, least normal exponent [emin] and all finite values below
    2^[emax], ties to even, with gradual underflow. [None] is an infinite
    result. *)
Definition round_to (prec emin emax : Z) (x : Q) : option Q :=
  if Qeq_bool x 0 then Some 0%Q
  else
    let a := Qabs x in
    let e := Z.max (Qlog2 a) emin in
    let ulp := Qpow2 (e - prec + 1) in
    let y := Qred (inject_Z (nearest_even (a / ulp)) * ulp)%Q in
    if Qle_bool (Qpow2 emax) y then None
    else Some (if Qle_bool 0 x then y else (- y)%Q).

(** IEEE 754 binary64, [double], and binary32, [float]. *)
Definition double_of (x : Q) : option Q := round_to 53 (-1022) 1024 x.
Definition float_of (x : Q) : option Q := round_to 24 (-126) 128 x.

(** ** Poses *)

Class Isometry (Iso : Type) := {
  inverse : Iso -> Iso;
  compose : Iso -> Iso -> Iso;
  translation_norm : Iso -> Q
}.

(** ** Undefined behaviour the code can run into *)

Inductive UB : Type :=
| NullPointer          (* [collision_->distance] with [collision_ == nullptr] *)
| IntDivisionByZero    (* [robot_solution_set.size() / robot_dof], [robot_dof == 0] *)
| FloatToIntOverflow   (* [int cnt = std::ceil (x)] with [x] infinite or outside [int] *)
| NegativeSize         (* [LinSpaced (cnt, ...)] with [cnt < 0] *)
| IndexOutOfRange.     (* a coefficient or element access past the end *)

(** ** Rail grid *)

(** Modelled from the spec: [Eigen::VectorXd::LinSpaced] belongs to the Eigen
    library. [size] equally spaced values in the closed interval from [low]
    to [high]; for [size = 1] Eigen returns a vector holding [high]. The
    values are the exact ones: the rounding of Eigen's own arithmetic is
    not part of this model. *)
Definition LinSpaced (size : nat) (low high : Q) : list Q :=
  match size with
  | 0 => []
  | 1 => [high]
  | S n =>
      map (fun i => low + inject_Z (Z.of_nat i) * ((high - low) / inject_Z (Z.of_nat n)))%Q
          (seq 0 size)
  end.

(** [std::abs (hi - lo) / r] as the code computes it: the difference is
    rounded to a double, and so is the quotient. [None] is an infinite
    value or a NaN: an infinite difference, or a division by zero. *)
Definition double_quotient (lo hi r : Q) : option Q :=
  if Qeq_bool r 0%Q then None
  else
    match double_of (hi - lo) with
    | None => None
    | Some d => double_of (Qabs d / r)
    end.

(** [int cnt = std::ceil (std::abs (hi - lo) / r)]. *)
Definition grid_count (lo hi r : Q) : UB + Z :=
  match double_quotient lo hi r with
  | None => inl FloatToIntOverflow
  | Some q =>
      let cnt := Qceiling q in
      if ((cnt <? INT_MIN) || (INT_MAX <? cnt))%Z then inl FloatToIntOverflow
      else inr cnt
  end.

(** One iteration of the first loop of [sample]. *)
Definition grid_of_dof (limits : list (Q * Q)) (resolution : list Q) (dof : nat)
  : UB + list Q :=
  match nth_error limits dof, nth_error resolution dof with
  | Some (lo, hi), Some r =>
      match grid_count lo hi r with
      | inl u => inl u
      | inr cnt =>
          if (cnt <? 0)%Z then inl NegativeSize
          else inr (LinSpaced (Z.to_nat cnt) lo hi)
      end
  | _, _ => inl IndexOutOfRange
  end.

(** The first loop of [sample]: [dof_range], one grid for each rail joint. *)
Fixpoint build_dof_range_from (limits : list (Q * Q)) (resolution : list Q)
    (dof n : nat) : UB + list (list Q) :=
  match n with
  | 0 => inr []
  | S n' =>
      match grid_of_dof limits resolution dof with
      | inl u => inl u
      | inr g =>
          match build_dof_range_from limits resolution (S dof) n' with
          | inl u => inl u
          | inr gs => inr (g :: gs)
          end
      end
  end.

Definition build_dof_range (limits : list (Q * Q)) (resolution : list Q)
    (num_joints : nat) : UB + list (list Q) :=
  build_dof_range_from limits resolution 0 num_joints.

(** [v (i) = x] on a vector. *)
Fixpoint set_coeff (v : list Q) (i : nat) (x : Q) : list Q :=
  match v, i with
  | [], _ => []
  | _ :: t, 0 => x :: t
  | h :: t, S j => h :: set_coeff t j x
  end.

(** ** Collaborators *)

Section Interfaces.
Variable Iso : Type.

(** [tesseract_kinematics::ForwardKinematics], the rail. *)
Record ForwardKinematics := {
  calcFwdKin : list Q -> option Iso;     (* [false] is [None] *)
  fk_numJoints : nat;
  getLimits : list (Q * Q);              (* one row [(low, high)] per joint *)
  getBaseLinkName : String.string
}.

(** [tesseract_kinematics::InverseKinematics], the robot. The solutions are
    packed one after the other in one vector. *)
Record InverseKinematics := {
  calcInvKin : Iso -> list Q -> option (list Q);
  ik_numJoints : nat
}.

(** [descartes_light::CollisionInterface]. *)
Record CollisionInterface := {
  validate : list Q -> nat -> bool;
  distance_to_collision : list Q -> nat -> Q
}.

(** [tesseract_environment::EnvState], the part the constructor reads. *)
Record EnvState := {
  transforms : list (String.string * Iso)
}.

(** [transforms.at (name)]; [None] stands for [std::out_of_range]. *)
Fixpoint transforms_at (m : list (String.string * Iso)) (name : String.string) : option Iso :=
  match m with
  | [] => None
  | (k, v) :: m' => if String.eqb k name then Some v else transforms_at m' name
  end.

(** The members of the class, and the conversion to [FloatType] of the
    instantiation. *)
Record DescartesRailedSampler := {
  to_FloatType : Q -> Q;
  tool_pose_ : Iso;
  tool_pose_sampler_ : Iso -> list Iso;
  railed_kinematics_ : ForwardKinematics;
  robot_kinematics_ : InverseKinematics;
  collision_ : option CollisionInterface;       (* [None] is [nullptr] *)
  world_to_railed_base_ : Iso;
  railed_limits_ : list (Q * Q);
  railed_sample_resolution_ : list Q;
  robot_tcp_ : Iso;
  robot_reach_ : Q;
  allow_collision_ : bool;
  dof_ : nat;
  ik_seed_ : list Q;
  is_valid_ : list Q -> bool
}.

(** The constructor. It checks nothing; the one thing that can stop it is
    the lookup of the rail's base link in the environment state. *)
Definition construct
    (FloatType : Q -> Q)
    (tool_pose : Iso) (tool_pose_sampler : Iso -> list Iso)
    (railed_kinematics : ForwardKinematics)
    (robot_kinematics : InverseKinematics)
    (collision : option CollisionInterface)
    (current_state : EnvState)
    (railed_sample_resolution : list Q)
    (robot_tcp : Iso) (robot_reach : Q) (allow_collision : bool)
    (is_valid : list Q -> bool) : option DescartesRailedSampler :=
  match transforms_at (transforms current_state) (getBaseLinkName railed_kinematics) with
  | None => None
  | Some w =>
      let dof := fk_numJoints railed_kinematics + ik_numJoints robot_kinematics in
      Some {| to_FloatType := FloatType;
              tool_pose_ := tool_pose;
              tool_pose_sampler_ := tool_pose_sampler;
              railed_kinematics_ := railed_kinematics;
              robot_kinematics_ := robot_kinematics;
              collision_ := collision;
              world_to_railed_base_ := w;
              railed_limits_ := getLimits railed_kinematics;
              railed_sample_resolution_ := railed_sample_resolution;
              robot_tcp_ := robot_tcp;
              robot_reach_ := robot_reach;
              allow_collision_ := allow_collision;
              dof_ := dof;
              ik_seed_ := repeat 0%Q dof;
              is_valid_ := is_valid |}
  end.

(** ** The search state and its monad *)

(** A call to a collaborator, with its arguments. *)
Inductive Call : Type :=
| CallFwdKin (joints : list Q)
| CallInvKin (pose : Iso) (seed : list Q)
| CallIsValid (sol : list Q)
| CallValidate (sol : list Q) (size : nat)
| CallDistance (sol : list Q) (size : nat).

Record Search := {
  solution_set : list Q;     (* [std::vector<FloatType>& solution_set] *)
  distance : Q;              (* [double& distance] *)
  calls : list Call          (* the calls made so far, oldest first *)
}.

Inductive Outcome (A : Type) : Type :=
| Ok (a : A) (st : Search)
| Undefined (u : UB) (st : Search).

Definition M (A : Type) : Type := Search -> Outcome A.

Definition ret {A} (a : A) : M A := fun st => Ok a st.

Definition bind {A B} (m : M A) (k : A -> M B) : M B :=
  fun st =>
    match m st with
    | Ok a st' => k a st'
    | Undefined _ u st' => Undefined B u st'
    end.

Definition undefined {A} (u : UB) : M A := fun st => Undefined A u st.

Definition lift {A} (r : UB + A) : M A :=
  match r with
  | inl u => undefined u
  | inr a => ret a
  end.

Definition state_of {A} (o : Outcome A) : Search :=
  match o with
  | Ok _ st => st
  | Undefined _ _ st => st
  end.

Definition get_solution_set : M (list Q) := fun st => Ok (solution_set st) st.
Definition get_distance : M Q := fun st => Ok (distance st) st.

Definition put_solution_set (s : list Q) : M unit :=
  fun st => Ok tt {| solution_set := s; distance := distance st; calls := calls st |}.
Definition put_distance (d : Q) : M unit :=
  fun st => Ok tt {| solution_set := solution_set st; distance := d; calls := calls st |}.
Definition record_call (c : Call) : M unit :=
  fun st => Ok tt {| solution_set := solution_set st; distance := distance st; calls := calls st ++ [c] |}.

(** [for (x : xs) body (x);] *)
Fixpoint for_each {A} (xs : list A) (body : A -> M unit) : M unit :=
  match xs with
  | [] => ret tt
  | x :: xs' => bind (body x) (fun _ => for_each xs' body)
  end.

(** The same loop when its body updates a local [v]. *)
Fixpoint for_each_with {A V} (xs : list A) (v : V) (body : A -> V -> M V) : M V :=
  match xs with
  | [] => ret v
  | x :: xs' => bind (body x v) (fun v' => for_each_with xs' v' body)
  end.

End Interfaces.

Arguments Ok {Iso A} a st.
Arguments Undefined {Iso A} u st.
Arguments ret {Iso A} a _.
Arguments bind {Iso A B} m k _.
Arguments undefined {Iso A} u _.
Arguments lift {Iso A} r _.
Arguments state_of {Iso A} o.
Arguments get_solution_set {Iso} _.
Arguments get_distance {Iso} _.
Arguments put_solution_set {Iso} s _.
Arguments put_distance {Iso} d _.
Arguments record_call {Iso} c _.
Arguments for_each {Iso A} xs body _.
Arguments for_each_with {Iso A V} xs v body _.
Arguments CallFwdKin {Iso} joints.
Arguments CallIsValid {Iso} sol.
Arguments CallValidate {Iso} sol size.
Arguments CallDistance {Iso} sol size.

Declare Scope sampler_scope.
Delimit Scope sampler_scope with sampler.
Notation "x <- m ;; k" := (bind m (fun x => k))
  (at level 61, m at next level, right associativity) : sampler_scope.
Notation "m ;;; k" := (bind m (fun _ => k))
  (at level 61, right associativity) : sampler_scope.
Local Open Scope sampler_scope.

(** ** The sampler *)

Definition vector_empty (v : list Q) : bool :=
  match v with
  | [] => true
  | _ :: _ => false
  end.

Section Sampler.
Context {Iso : Type} `{Isometry Iso}.
Variable self : DescartesRailedSampler Iso.

(** [isCollisionFree]. *)
Definition isCollisionFree (vertex : list Q) : M Iso bool :=
  match collision_ self with
  | None => ret true
  | Some c =>
      record_call (CallValidate vertex (dof_ self)) ;;;
      ret (validate c vertex (dof_ self))
  end.

(** [collision_->distance (full_sol.data (), full_sol.size ())]. *)
Definition collision_distance (full_sol : list Q) : M Iso Q :=
  match collision_ self with
  | None => undefined NullPointer
  | Some c =>
      record_call (CallDistance full_sol (length full_sol)) ;;;
      ret (distance_to_collision c full_sol (length full_sol))
  end.

(** The body of the loop of [ikAt] over the robot solutions, for the
    solution of index [i]. [full_sol] is a [std::vector<FloatType>]: the
    rail pose, which holds [FloatType] values already, and the [robot_dof]
    doubles at [sol], converted as they are copied. *)
Definition ikAt_solution (railed_pose robot_solution_set : list Q)
    (robot_dof : nat) (get_best_solution : bool) (i : nat) : M Iso unit :=
  let sol := firstn robot_dof (skipn (robot_dof * i) robot_solution_set) in
  let full_sol := railed_pose ++ map (to_FloatType self) sol in
  record_call (CallIsValid full_sol) ;;;
  if negb (is_valid_ self full_sol) then ret tt
  else if negb get_best_solution then
    free <- isCollisionFree full_sol ;;
    if free then
      s <- get_solution_set ;;
      put_solution_set (s ++ full_sol)
    else ret tt
  else
    cur_distance <- collision_distance full_sol ;;
    d <- get_distance ;;
    if Qltb d cur_distance then
      put_distance cur_distance ;;;
      s <- get_solution_set ;;
      put_solution_set (full_sol ++ s)
    else ret tt.

(** [ikAt]. *)
Definition ikAt (p : Iso) (railed_pose : list Q) (get_best_solution : bool)
  : M Iso bool :=
  record_call (CallFwdKin railed_pose) ;;;
  match calcFwdKin (railed_kinematics_ self) railed_pose with
  | None => ret false
  | Some rail_tf =>
      let robot_tool_pose := compose (inverse rail_tf) p in
      if Qltb (robot_reach_ self) (translation_norm robot_tool_pose) then ret false
      else
        let robot_dof := ik_numJoints (robot_kinematics_ self) in
        record_call (CallInvKin robot_tool_pose (ik_seed_ self)) ;;;
        match calcInvKin (robot_kinematics_ self) robot_tool_pose (ik_seed_ self) with
        | None => ret false
        | Some robot_solution_set =>
            if robot_dof =? 0 then undefined IntDivisionByZero
            else
              let num_sols := length robot_solution_set / robot_dof in
              for_each (seq 0 num_sols)
                (ikAt_solution railed_pose robot_solution_set robot_dof
                   get_best_solution) ;;;
              s <- get_solution_set ;;
              ret (negb (vector_empty s))
        end
  end.

(** [nested_ik], by recursion on the number of rail joints still to be
    assigned: [depth] is [numJoints () - loop_level]. [sample_pose] is
    written in place by the C++ code; here it comes in and goes out. It is
    a vector of [FloatType]: the grid value, a double, is converted when it
    is stored. *)
Fixpoint nested_ik_from (depth loop_level : nat) (dof_range : list (list Q))
    (p : Iso) (sample_pose : list Q) (get_best_solution : bool)
  : M Iso (list Q) :=
  match depth with
  | 0 =>
      _ <- ikAt p sample_pose get_best_solution ;;
      ret sample_pose
  | S depth' =>
      match nth_error dof_range loop_level with
      | None => undefined IndexOutOfRange
      | Some range =>
          for_each_with range sample_pose (fun x sample_pose =>
            if length sample_pose <=? loop_level then undefined IndexOutOfRange
            else
              nested_ik_from depth' (S loop_level) dof_range p
                (set_coeff sample_pose loop_level (to_FloatType self x))
                get_best_solution)
      end
  end.

Definition nested_ik (loop_level : nat) (dof_range : list (list Q))
    (p : Iso) (sample_pose : list Q) (get_best_solution : bool)
  : M Iso (list Q) :=
  nested_ik_from (fk_numJoints (railed_kinematics_ self) - loop_level)
    loop_level dof_range p sample_pose get_best_solution.

(** [world_to_railed_base_.inverse () * tool_poses[i] * robot_tcp_.inverse ()]:
    the tool pose in the rail coordinate system. *)
Definition in_rail_frame (tool_poses_i : Iso) : Iso :=
  compose (compose (inverse (world_to_railed_base_ self)) tool_poses_i)
          (inverse (robot_tcp_ self)).

(** [Eigen::Matrix<FloatType, Eigen::Dynamic, 1> railed_pose (num_joints)]:
    a vector of [num_joints] coefficients. C++ leaves them uninitialised;
    [nested_ik] writes each of them before [ikAt] reads it. *)
Definition fresh_railed_pose (num_joints : nat) : list Q :=
  repeat 0%Q num_joints.

(** [getBestSolution]. *)
Definition getBestSolution (tool_poses : list Iso) (dof_range : list (list Q))
  : M Iso bool :=
  put_distance numeric_limits_double_min ;;;
  let num_joints := fk_numJoints (railed_kinematics_ self) in
  for_each tool_poses (fun tool_poses_i =>
    let tool_pose := in_rail_frame tool_poses_i in
    let railed_pose := fresh_railed_pose num_joints in
    _ <- nested_ik 0 dof_range tool_pose railed_pose true ;;
    ret tt) ;;;
  s <- get_solution_set ;;
  ret (negb (vector_empty s)).

(** The loop of [sample] over the tool poses: the collect-all pass. *)
Definition sample_tool_poses (tool_poses : list Iso) (dof_range : list (list Q))
  : M Iso unit :=
  let num_joints := fk_numJoints (railed_kinematics_ self) in
  for_each tool_poses (fun tool_poses_i =>
    let tool_pose := in_rail_frame tool_poses_i in
    let railed_pose := fresh_railed_pose num_joints in
    _ <- nested_ik 0 dof_range tool_pose railed_pose false ;;
    ret tt).

(** [sample]. The caller's [solution_set] is the field of the state the
    operation starts in. *)
Definition sample : M Iso bool :=
  put_distance numeric_limits_double_min ;;;
  let num_joints := fk_numJoints (railed_kinematics_ self) in
  dof_range <- lift (build_dof_range (railed_limits_ self)
                       (railed_sample_resolution_ self) num_joints) ;;
  let tool_poses := tool_pose_sampler_ self (tool_pose_ self) in
  sample_tool_poses tool_poses dof_range ;;;
  s <- get_solution_set ;;
  (if vector_empty s && allow_collision_ self
   then _ <- getBestSolution tool_poses dof_range ;; ret tt
   else ret tt) ;;;
  s' <- get_solution_set ;;
  ret (negb (vector_empty s')).

End Sampler.

(** The state [sample] is entered in: the caller's solution set, and no call
    made yet. *)
Definition entry {Iso : Type} (solution_set : list Q) : Search Iso :=
  {| solution_set := solution_set; distance := 0%Q; calls := [] |}.

(** ** Reading the call log *)

Section CallLog.
Context {Iso : Type}.

(** The rail poses the forward kinematics was invoked on, in order. *)
Definition fwd_kin_joints (l : list (Call Iso)) : list (list Q) :=
  flat_map (fun c => match c with CallFwdKin joints => [joints] | _ => [] end) l.

(** How many times the rail forward kinematics was invoked. *)
Definition fwd_kin_calls (l : list (Call Iso)) : nat :=
  length (fwd_kin_joints l).

(** The poses the inverse kinematics was invoked on, in order. *)
Definition inv_kin_poses (l : list (Call Iso)) : list Iso :=
  flat_map (fun c => match c with CallInvKin pose _ => [pose] | _ => [] end) l.

(** The joint vectors a clearance distance was queried for, in order. *)
Definition distance_queries (l : list (Call Iso)) : list (list Q) :=
  flat_map (fun c => match c with CallDistance sol _ => [sol] | _ => [] end) l.

End CallLog.

(** ** The search as an enumeration

    What the recursion of [nested_ik] and the loops around it go through,
    written as lists: the second definitions the code is compared with. *)

(** The Cartesian product of the grids, the first rail joint outermost. *)
Fixpoint grid_points (dof_range : list (list Q)) : list (list Q) :=
  match dof_range with
  | [] => [[]]
  | range :: rest => flat_map (fun x => map (cons x) (grid_points rest)) range
  end.

Definition grid_size (dof_range : list (list Q)) : nat :=
  fold_right (fun range n => length range * n) 1 dof_range.

Section Enumeration.
Context {Iso : Type} `{Isometry Iso}.
Variable self : DescartesRailedSampler Iso.

(** The grids as [nested_ik] stores their values: converted to
    [FloatType]. *)
Definition as_FloatType (dof_range : list (list Q)) : list (list Q) :=
  map (map (to_FloatType self)) dof_range.

(** Every pair of a tool pose in the rail frame and a rail sample point, in
    the order one pass of the search visits them. *)
Definition search_points (tool_poses : list Iso) (dof_range : list (list Q))
  : list (Iso * list Q) :=
  flat_map (fun tool_poses_i =>
              map (pair (in_rail_frame self tool_poses_i))
                  (grid_points (as_FloatType dof_range)))
           tool_poses.

(** The robot-frame target pose is within the robot's reach. *)
Definition within_reach (robot_tool_pose : Iso) : Prop :=
  Qltb (robot_reach_ self) (translation_norm robot_tool_pose) = false.

(** The full joint solutions [ikAt] assembles at one rail sample point,
    before the validity rule is applied. *)
Definition ik_branches (p : Iso) (railed_pose : list Q) : UB + list (list Q) :=
  match calcFwdKin (railed_kinematics_ self) railed_pose with
  | None => inr []
  | Some rail_tf =>
      let robot_tool_pose := compose (inverse rail_tf) p in
      if Qltb (robot_reach_ self) (translation_norm robot_tool_pose) then inr []
      else
        match calcInvKin (robot_kinematics_ self) robot_tool_pose (ik_seed_ self) with
        | None => inr []
        | Some robot_solution_set =>
            let robot_dof := ik_numJoints (robot_kinematics_ self) in
            if robot_dof =? 0 then inl IntDivisionByZero
            else
              inr (map (fun i => railed_pose ++
                                 map (to_FloatType self)
                                   (firstn robot_dof
                                      (skipn (robot_dof * i) robot_solution_set)))
                       (seq 0 (length robot_solution_set / robot_dof)))
        end
  end.

(** The reach-satisfying, valid configurations at one rail sample point. *)
Definition valid_configurations (point : Iso * list Q) : list (list Q) :=
  match ik_branches (fst point) (snd point) with
  | inr branches => filter (is_valid_ self) branches
  | inl _ => []
  end.

(** The reach-satisfying, valid configurations one pass visits, in order. *)
Definition visited (points : list (Iso * list Q)) : list (list Q) :=
  flat_map valid_configurations points.

(** No rail sample point runs into undefined behaviour. *)
Definition defined_at (points : list (Iso * list Q)) : Prop :=
  forall point, In point points ->
    exists branches, ik_branches (fst point) (snd point) = inr branches.

(** What [isCollisionFree] answers. *)
Definition collision_free (vertex : list Q) : bool :=
  match collision_ self with
  | None => true
  | Some c => validate c vertex (dof_ self)
  end.

(** What the collect-all pass appends. *)
Definition collected (points : list (Iso * list Q)) : list Q :=
  concat (filter collision_free (visited points)).

(** One comparison of the best-only pass: the solution set and the tracker
    before and after a configuration of clearance [clearance full_sol]. *)
Definition best_step (clearance : list Q -> Q) (acc : list Q * Q)
    (full_sol : list Q) : list Q * Q :=
  if Qltb (snd acc) (clearance full_sol)
  then (full_sol ++ fst acc, clearance full_sol)
  else acc.

Definition clearance_of (c : CollisionInterface) (full_sol : list Q) : Q :=
  distance_to_collision c full_sol (length full_sol).

(** What the best-only pass leaves, from a solution set and a tracker. *)
Definition best_of (c : CollisionInterface) (points : list (Iso * list Q))
    (acc : list Q * Q) : list Q * Q :=
  fold_left (best_step (clearance_of c)) (visited points) acc.

(** The members as the constructor sets them. *)
Definition constructed : Prop :=
  dof_ self = fk_numJoints (railed_kinematics_ self)
              + ik_numJoints (robot_kinematics_ self)
  /\ railed_limits_ self = getLimits (railed_kinematics_ self)
  /\ ik_seed_ self = repeat 0%Q (dof_ self).

End Enumeration.

(** The state with [l] appended to its call log. *)
Definition with_calls {Iso : Type} (st : Search Iso) (l : list (Call Iso))
  : Search Iso :=
  {| solution_set := solution_set st; distance := distance st;
     calls := calls st ++ l |}.

(** A sequence of scalars is monotonically non-decreasing. *)
Definition nondecreasing (g : list Q) : Prop :=
  forall i j, i <= j -> j < length g -> (nth i g 0 <= nth j g 0)%Q.

(** The number of full joint solutions a solution set holds. *)
Definition solutions_held (dof : nat) (solution_set : list Q) : nat :=
  length solution_set / dof.

(** The first, and the last, element of a sequence is [x]. *)
Definition first_is (g : list Q) (x : Q) : Prop :=
  exists y, nth_error g 0 = Some y /\ (y == x)%Q.

Definition last_is (g : list Q) (x : Q) : Prop :=
  exists y, nth_error g (length g - 1) = Some y /\ (y == x)%Q.

Section Passes.
Context {Iso : Type} `{Isometry Iso}.
Variable self : DescartesRailedSampler Iso.

(** What [nested_ik] does at one rail sample point. *)
Definition visit (get_best_solution : bool) (point : Iso * list Q) : M Iso unit :=
  _ <- ikAt self (fst point) (snd point) get_best_solution ;;
  ret tt.

(** One pass of the search, over the points it visits. *)
Definition pass (get_best_solution : bool) (points : list (Iso * list Q))
  : M Iso unit :=
  for_each points (visit get_best_solution).

(** The full joint solution [ikAt] assembles from the robot solution of
    index [i]. *)
Definition full_solution (railed_pose robot_solution_set : list Q)
    (robot_dof i : nat) : list Q :=
  railed_pose
  ++ map (to_FloatType self)
       (firstn robot_dof (skipn (robot_dof * i) robot_solution_set)).

(** A log in which nothing but the validity rule and [validate] appear. *)
Definition quiet (l : list (Call Iso)) : Prop :=
  fwd_kin_joints l = [] /\ inv_kin_poses l = [] /\ distance_queries l = [].

(** The calls of [ikAt] at one point: one forward kinematics call, on the
    rail pose, and an inverse kinematics call only for a pose within reach. *)
Definition point_log (railed_pose : list Q) (l : list (Call Iso)) : Prop :=
  fwd_kin_joints l = [railed_pose]
  /\ Forall (within_reach self) (inv_kin_poses l).

(** The calls of a pass over [points]: one forward kinematics call for each
    point, in order. *)
Definition pass_log (points : list (Iso * list Q)) (l : list (Call Iso)) : Prop :=
  fwd_kin_joints l = map snd points
  /\ Forall (within_reach self) (inv_kin_poses l).

End Passes.

(** ** What the specification says, where the code is compared with it *)

(** A rail grid as specified: as many points as the count, from [lo] to
    [hi] inclusive, non-decreasing. *)
Definition grid_as_specified (lo hi r : Q) (g : list Q) : Prop :=
  Z.of_nat (length g) = Qceiling (Qabs (hi - lo) / r)
  /\ first_is g lo /\ last_is g hi /\ nondecreasing g.

(** A sampling attempt stopped at entry: it does not return, and no
    collaborator has been called. *)
Definition rejected_at_entry {Iso : Type} (o : Outcome Iso bool) : Prop :=
  match o with
  | Ok _ _ => False
  | Undefined _ st => calls st = []
  end.

(** A solution set with at most one full joint solution. *)
Definition holds_at_most_one (dof : nat) (solution_set : list Q) : Prop :=
  length solution_set <= dof.

(** The fallback as specified: the set it leaves is the one configuration
    of greatest clearance among those the pass visited. *)
Definition fallback_returns_single_best {Iso : Type} `{Isometry Iso}
    (self : DescartesRailedSampler Iso) (c : CollisionInterface) : Prop :=
  forall dof_range b st',
    build_dof_range (railed_limits_ self) (railed_sample_resolution_ self)
      (fk_numJoints (railed_kinematics_ self)) = inr dof_range ->
    let points :=
      search_points self (tool_pose_sampler_ self (tool_pose_ self)) dof_range in
    collected self points = [] ->
    allow_collision_ self = true ->
    sample self (entry []) = Ok b st' ->
    forall best,
      In best (visited self points) ->
      (forall full_sol, In full_sol (visited self points) ->
         (clearance_of c full_sol <= clearance_of c best)%Q) ->
      solution_set st' = best.

(** ** Scenarios

    A rail along one axis and a one-joint arm on it; a pose is a position on
    that axis. *)

Module Scenarios.

#[export] Instance Line : Isometry Q :=
  {| inverse := Qopp; compose := Qplus; translation_norm := Qabs |}.

(** A rail of one joint, over [[lo, hi]]. *)
Definition rail_axis (lo hi : Q) : ForwardKinematics Q :=
  {| calcFwdKin := fun joints => match joints with
                                 | [x] => Some x
                                 | _ => None
                                 end;
     fk_numJoints := 1;
     getLimits := [(lo, hi)];
     getBaseLinkName := "rail_base"%string |}.

(** A rail of two joints. *)
Definition rail_plane : ForwardKinematics Q :=
  {| calcFwdKin := fun joints => match joints with
                                 | [x; y] => Some (x + y)%Q
                                 | _ => None
                                 end;
     fk_numJoints := 2;
     getLimits := [(0, 1); (0, 3)]%Q;
     getBaseLinkName := "rail_base"%string |}.

(** An arm of one joint that reaches up to 7/4 and has one solution. *)
Definition arm : InverseKinematics Q :=
  {| calcInvKin := fun pose _ =>
       if Qle_bool pose (7 # 4) then Some [pose] else None;
     ik_numJoints := 1 |}.

(** An arm that never finds a solution. *)
Definition stuck_arm : InverseKinematics Q :=
  {| calcInvKin := fun _ _ => None; ik_numJoints := 1 |}.

(** Every configuration is in collision; the clearance is [at_half] at
    rail = 1/2 and [at_one] elsewhere. *)
Definition colliding (at_half at_one : Q) : CollisionInterface :=
  {| validate := fun _ _ => false;
     distance_to_collision := fun sol _ =>
       match sol with
       | x :: _ => if Qeq_bool x (1 # 2) then at_half else at_one
       | [] => 0%Q
       end |}.

Definition state : EnvState Q :=
  {| transforms := [("rail_base"%string, 0%Q)] |}.

Definition no_state : EnvState Q := {| transforms := [] |}.

(** The sampler the constructor builds, with [FloatType = double], for the
    tool pose 2, one tool-pose candidate per entry of [offsets] and a
    validity rule that accepts everything. *)
Definition railed_sampler (rail : ForwardKinematics Q) (robot : InverseKinematics Q)
    (collision : option CollisionInterface) (resolution : list Q)
    (offsets : list Q) (reach : Q) (allow_collision : bool)
  : DescartesRailedSampler Q :=
  {| to_FloatType := fun x => x;
     tool_pose_ := 2%Q;
     tool_pose_sampler_ := fun pose => map (Qplus pose) offsets;
     railed_kinematics_ := rail;
     robot_kinematics_ := robot;
     collision_ := collision;
     world_to_railed_base_ := 0%Q;
     railed_limits_ := getLimits rail;
     railed_sample_resolution_ := resolution;
     robot_tcp_ := 0%Q;
     robot_reach_ := reach;
     allow_collision_ := allow_collision;
     dof_ := fk_numJoints rail + ik_numJoints robot;
     ik_seed_ := repeat 0%Q (fk_numJoints rail + ik_numJoints robot);
     is_valid_ := fun _ => true |}.

(** Bounds [[0, 1]] and resolution 2/5: the grid 0, 1/2, 1. Every branch is
    in collision, with clearance [at_half] at rail = 1/2 and [at_one] at
    rail = 1; at rail = 0 the arm has no solution. *)
Definition all_colliding (at_half at_one : Q) (allow_collision : bool)
  : DescartesRailedSampler Q :=
  railed_sampler (rail_axis 0 1) arm (Some (colliding at_half at_one))
    [2 # 5]%Q [0%Q] 10%Q allow_collision.

(** The same rail without a collision capability. *)
Definition no_collision_capability (robot : InverseKinematics Q)
  : DescartesRailedSampler Q :=
  railed_sampler (rail_axis 0 1) robot None [2 # 5]%Q [0%Q] 10%Q true.

(** Bounds the wrong way round: [low = 1], [high = 0]. *)
Definition inverted_bounds : DescartesRailedSampler Q :=
  railed_sampler (rail_axis 1 0) arm None [1 # 2]%Q [0%Q] 10%Q false.

(** A robot whose reach is 3/2: from rail = 0 the tool pose 2 is too far. *)
Definition short_reach : DescartesRailedSampler Q :=
  railed_sampler (rail_axis 0 1) arm None [2 # 5]%Q [0%Q] (3 # 2)%Q false.

(** No collision capability and collisions not tolerated. *)
Definition collision_unaware : DescartesRailedSampler Q :=
  railed_sampler (rail_axis 0 1) arm None [2 # 5]%Q [0%Q] 10%Q false.

(** Two rail joints with 3 and 4 grid points, and two tool-pose candidates. *)
Definition two_joint_rail : DescartesRailedSampler Q :=
  railed_sampler rail_plane arm None [2 # 5; 4 # 5]%Q [0%Q; 1%Q] 10%Q false.

End Scenarios.

Import Scenarios.

(** ** The calls of a pass, one by one

    The call log a pass leaves, written as a list: the second definition the
    log of the code is compared with. *)

Section Trace.
Context {Iso : Type} `{Isometry Iso}.
Variable self : DescartesRailedSampler Iso.

(** The calls of one turn of the loop of [ikAt]: the validity rule, then,
    for a solution it accepts, the collision capability if there is one. *)
Definition branch_calls (get_best_solution : bool) (full_sol : list Q)
  : list (Call Iso) :=
  CallIsValid full_sol ::
  (if is_valid_ self full_sol then
     match collision_ self with
     | None => []
     | Some _ =>
         if get_best_solution
         then [CallDistance full_sol (length full_sol)]
         else [CallValidate full_sol (dof_ self)]
     end
   else []).

(** The calls of [ikAt] at one point. *)
Definition point_calls (get_best_solution : bool) (point : Iso * list Q)
  : list (Call Iso) :=
  CallFwdKin (snd point) ::
  match calcFwdKin (railed_kinematics_ self) (snd point) with
  | None => []
  | Some rail_tf =>
      let robot_tool_pose := compose (inverse rail_tf) (fst point) in
      if Qltb (robot_reach_ self) (translation_norm robot_tool_pose) then []
      else
        CallInvKin robot_tool_pose (ik_seed_ self) ::
        match ik_branches self (fst point) (snd point) with
        | inr branches => flat_map (branch_calls get_best_solution) branches
        | inl _ => []
        end
  end.

End Trace.

(** The joint vectors the validity rule was asked about, in order. *)
Definition is_valid_queries {Iso : Type} (l : list (Call Iso)) : list (list Q) :=
  flat_map (fun c => match c with CallIsValid sol => [sol] | _ => [] end) l.

(** The joint vectors [validate] was asked about, with the size passed. *)
Definition validate_queries {Iso : Type} (l : list (Call Iso))
  : list (list Q * nat) :=
  flat_map (fun c => match c with CallValidate sol n => [(sol, n)] | _ => [] end) l.

(** The seeds the inverse kinematics was given, in order. *)
Definition inv_kin_seeds {Iso : Type} (l : list (Call Iso)) : list (list Q) :=
  flat_map (fun c => match c with CallInvKin _ seed => [seed] | _ => [] end) l.

(** A configuration improves on everything the best-only pass has met so
    far: its clearance is above [d], the value the tracker starts from, and
    strictly above the clearance of every configuration visited earlier. *)
Definition improves (clearance : list Q -> Q) (d : Q)
    (earlier : list (list Q)) (full_sol : list Q) : bool :=
  Qltb d (clearance full_sol)
  && forallb (fun s => Qltb (clearance s) (clearance full_sol)) earlier.

(** The strict improvements among the configurations visited after
    [earlier], in the order they are met. *)
Fixpoint improvements_after (clearance : list Q -> Q) (d : Q)
    (earlier configurations : list (list Q)) : list (list Q) :=
  match configurations with
  | [] => []
  | full_sol :: rest =>
      (if improves clearance d earlier full_sol then [full_sol] else [])
      ++ improvements_after clearance d (earlier ++ [full_sol]) rest
  end.

(** The running maxima of a pass: the strict improvements among all the
    configurations it visits. *)
Definition improvements (clearance : list Q -> Q) (d : Q)
    (configurations : list (list Q)) : list (list Q) :=
  improvements_after clearance d [] configurations.

Section Targets.
Context {Iso : Type} `{Isometry Iso}.
Variable self : DescartesRailedSampler Iso.

(** The robot-frame pose [ikAt] hands to the inverse kinematics at one point
    of the search, if it gets that far: the forward kinematics succeeded and
    the pose passed the reach check. *)
Definition ik_target (point : Iso * list Q) : list Iso :=
  match calcFwdKin (railed_kinematics_ self) (snd point) with
  | None => []
  | Some rail_tf =>
      let robot_tool_pose := compose (inverse rail_tf) (fst point) in
      if Qltb (robot_reach_ self) (translation_norm robot_tool_pose) then []
      else [robot_tool_pose]
  end.

(** How many passes over the search points a run of [sample] makes. *)
Definition passes_run (st : Search Iso) (points : list (Iso * list Q)) : nat :=
  if vector_empty (solution_set st ++ collected self points)
     && allow_collision_ self
  then 2 else 1.

End Targets.

(** A rail pose takes each of its coefficients from the grid of its joint. *)
Definition drawn_from (dof_range : list (list Q)) (railed_pose : list Q) : Prop :=
  Forall2 (fun x range => In x range) railed_pose dof_range.

(** A scalar between two bounds, whichever of them is the lower one. *)
Definition between (lo hi x : Q) : Prop :=
  ((lo <= x)%Q /\ (x <= hi)%Q) \/ ((hi <= x)%Q /\ (x <= lo)%Q).

(** A rail pose within the limits of the rail, joint by joint. *)
Definition within_limits (limits : list (Q * Q)) (railed_pose : list Q) : Prop :=
  forall i x lo hi,
    nth_error railed_pose i = Some x -> nth_error limits i = Some (lo, hi) ->
    between lo hi x.

(** ** More scenarios *)



(** The doubles nearest to 0.1 and to 1.1. *)
Definition double_0_1 : Q := (3602879701896397 # 36028797018963968)%Q.
Definition double_1_1 : Q := (2476979795053773 # 2251799813685248)%Q.

(** An arm of two joints whose inverse kinematics answers with five
    scalars: two whole solutions and one scalar more. *)
Definition ragged_arm : InverseKinematics Q :=
  {| calcInvKin := fun pose _ => Some [pose; double_0_1; pose; 1; 9]%Q;
     ik_numJoints := 2 |}.

Definition ragged : DescartesRailedSampler Q :=
  railed_sampler (rail_axis 0 1) ragged_arm None [2 # 5]%Q [0%Q] 10%Q false.

(** The same sampler with another answer to whether collisions are
    tolerated. *)
Definition tolerating {Iso : Type} (self : DescartesRailedSampler Iso)
    (allow_collision : bool) : DescartesRailedSampler Iso :=
  {| to_FloatType := to_FloatType self;
     tool_pose_ := tool_pose_ self;
     tool_pose_sampler_ := tool_pose_sampler_ self;
     railed_kinematics_ := railed_kinematics_ self;
     robot_kinematics_ := robot_kinematics_ self;
     collision_ := collision_ self;
     world_to_railed_base_ := world_to_railed_base_ self;
     railed_limits_ := railed_limits_ self;
     railed_sample_resolution_ := railed_sample_resolution_ self;
     robot_tcp_ := robot_tcp_ self;
     robot_reach_ := robot_reach_ self;
     allow_collision_ := allow_collision;
     dof_ := dof_ self;
     ik_seed_ := ik_seed_ self;
     is_valid_ := is_valid_ self |}.

(** [static_cast<float>]: the nearest single-precision value. Beyond the
    range of [float] C++ leaves the conversion undefined; no such value
    occurs where this is used, and it is left as it is. *)
Definition to_float (x : Q) : Q :=
  match float_of x with
  | Some y => y
  | None => x
  end.

(** The same sampler instantiated with [FloatType = float]. *)
Definition as_float {Iso : Type} (self : DescartesRailedSampler Iso)
  : DescartesRailedSampler Iso :=
  {| to_FloatType := to_float;
     tool_pose_ := tool_pose_ self;
     tool_pose_sampler_ := tool_pose_sampler_ self;
     railed_kinematics_ := railed_kinematics_ self;
     robot_kinematics_ := robot_kinematics_ self;
     collision_ := collision_ self;
     world_to_railed_base_ := world_to_railed_base_ self;
     railed_limits_ := railed_limits_ self;
     railed_sample_resolution_ := railed_sample_resolution_ self;
     robot_tcp_ := robot_tcp_ self;
     robot_reach_ := robot_reach_ self;
     allow_collision_ := allow_collision_ self;
     dof_ := dof_ self;
     ik_seed_ := ik_seed_ self;
     is_valid_ := is_valid_ self |}.

(** An arm of one joint whose one solution is always the double 0.1. *)
Definition fine_arm : InverseKinematics Q :=
  {| calcInvKin := fun _ _ => Some [double_0_1]; ik_numJoints := 1 |}.

(** A [float] sampler over the rail [[0, 1.1]] with resolution 0.55: the
    grid is the two end points. *)
Definition float_rail : DescartesRailedSampler Q :=
  as_float (railed_sampler (rail_axis 0 double_1_1) fine_arm None
              [(2476979795053773 # 4503599627370496)%Q] [0%Q] 10%Q false).

(** A resolution below zero: bounds [[0, 1]] with resolution -2. *)
Definition negative_resolution : DescartesRailedSampler Q :=
  railed_sampler (rail_axis 0 1) arm None [(- 2)%Q] [0%Q] 10%Q true.

(** * Properties *)

(** ** Scalars *)

Lemma Qltb_lt (x y : Q) : Qltb x y = true <-> (x < y)%Q.
Proof. unfold Qltb, Qlt. apply Z.ltb_lt. Qed.

Lemma Qltb_ge (x y : Q) : Qltb x y = false <-> (y <= x)%Q.
Proof. unfold Qltb, Qle. apply Z.ltb_ge. Qed.

(** ** The monad *)

Section MonadFacts.
Context {Iso : Type}.

Lemma bind_ret_l {A B} (a : A) (k : A -> M Iso B) st :
  bind (ret a) k st = k a st.
Proof. reflexivity. Qed.

Lemma bind_assoc {A B C} (m : M Iso A) (k : A -> M Iso B) (k' : B -> M Iso C) st :
  bind (bind m k) k' st = bind m (fun a => bind (k a) k') st.
Proof. unfold bind. destruct (m st); reflexivity. Qed.

Lemma bind_ext {A B} (m m' : M Iso A) (k k' : A -> M Iso B) :
  (forall st, m st = m' st) ->
  (forall a st, k a st = k' a st) ->
  forall st, bind m k st = bind m' k' st.
Proof.
  intros Hm Hk st. unfold bind. rewrite Hm.
  destruct (m' st); [apply Hk | reflexivity].
Qed.

Lemma for_each_ext {A} (xs : list A) (body body' : A -> M Iso unit) :
  (forall x st, In x xs -> body x st = body' x st) ->
  forall st, for_each xs body st = for_each xs body' st.
Proof.
  induction xs as [|x xs IH]; intros Hb st; [reflexivity|].
  simpl. apply bind_ext.
  - intros st'. apply Hb. now left.
  - intros _ st'. apply IH. intros y st'' Hy. apply Hb. now right.
Qed.

Lemma for_each_app {A} (xs ys : list A) (body : A -> M Iso unit) st :
  for_each (xs ++ ys) body st
  = bind (for_each xs body) (fun _ => for_each ys body) st.
Proof.
  revert st. induction xs as [|x xs IH]; intros st; [reflexivity|].
  simpl. rewrite bind_assoc. apply bind_ext; [reflexivity|].
  intros _ st'. apply IH.
Qed.

Lemma for_each_map {A B} (g : A -> B) (xs : list A) (body : B -> M Iso unit) st :
  for_each (map g xs) body st = for_each xs (fun x => body (g x)) st.
Proof.
  revert st. induction xs as [|x xs IH]; intros st; [reflexivity|].
  simpl. apply bind_ext; [reflexivity|]. intros _ st'. apply IH.
Qed.

Lemma for_each_ext_map {A B} (g g' : A -> B) (xs : list A)
    (body : B -> M Iso unit) :
  (forall x, g x = g' x) ->
  forall st, for_each (map g xs) body st = for_each (map g' xs) body st.
Proof.
  intros Hg st. f_equal. apply map_ext. exact Hg.
Qed.

Lemma for_each_flat_map {A B} (g : A -> list B) (xs : list A)
    (body : B -> M Iso unit) st :
  for_each (flat_map g xs) body st
  = for_each xs (fun x => for_each (g x) body) st.
Proof.
  revert st. induction xs as [|x xs IH]; intros st; [reflexivity|].
  simpl. rewrite for_each_app. apply bind_ext; [reflexivity|].
  intros _ st'. apply IH.
Qed.

End MonadFacts.

(** ** The rail grid *)

Lemma LinSpaced_length (size : nat) (low high : Q) :
  length (LinSpaced size low high) = size.
Proof.
  destruct size as [|[|n]]; [reflexivity | reflexivity |].
  unfold LinSpaced. now rewrite length_map, length_seq.
Qed.

Lemma LinSpaced_nth (n i : nat) (low high : Q) :
  i < S (S n) ->
  nth i (LinSpaced (S (S n)) low high) 0%Q
  = (low + inject_Z (Z.of_nat i) * ((high - low) / inject_Z (Z.of_nat (S n))))%Q.
Proof.
  intro Hi. unfold LinSpaced.
  set (f := fun i : nat => _).
  rewrite (nth_indep _ 0%Q (f 0)) by now rewrite length_map, length_seq.
  rewrite map_nth. rewrite seq_nth by exact Hi. reflexivity.
Qed.

Lemma inject_Z_S_pos (n : nat) : (0 < inject_Z (Z.of_nat (S n)))%Q.
Proof.
  change 0%Q with (inject_Z 0). rewrite <- Zlt_Qlt. lia.
Qed.

Lemma LinSpaced_step_nonneg (n : nat) (low high : Q) :
  (low <= high)%Q ->
  (0 <= (high - low) / inject_Z (Z.of_nat (S n)))%Q.
Proof.
  intro Hle. apply Qle_shift_div_l; [apply inject_Z_S_pos|].
  rewrite Qmult_0_l. unfold Qminus. now apply (proj1 (Qle_minus_iff low high)).
Qed.

Lemma LinSpaced_first (n : nat) (low high : Q) :
  first_is (LinSpaced (S (S n)) low high) low.
Proof.
  exists (nth 0 (LinSpaced (S (S n)) low high) 0%Q). split.
  - reflexivity.
  - rewrite LinSpaced_nth by lia. simpl Z.of_nat.
    change (inject_Z 0) with 0%Q. ring.
Qed.

Lemma LinSpaced_last (n : nat) (low high : Q) :
  last_is (LinSpaced (S (S n)) low high) high.
Proof.
  exists (nth (S n) (LinSpaced (S (S n)) low high) 0%Q). split.
  - rewrite LinSpaced_length. replace (S (S n) - 1) with (S n) by lia.
    apply nth_error_nth'. rewrite LinSpaced_length. lia.
  - rewrite LinSpaced_nth by lia.
    assert (Hpos := inject_Z_S_pos n).
    field. intro E. rewrite E in Hpos. now apply Qlt_irrefl in Hpos.
Qed.

(** A grid of one point is [high]: every grid that is not empty ends at
    [high]. *)
Lemma LinSpaced_last_any (n : nat) (low high : Q) :
  last_is (LinSpaced (S n) low high) high.
Proof.
  destruct n as [|n]; [|apply LinSpaced_last].
  exists high. split; [reflexivity | apply Qeq_refl].
Qed.

Lemma LinSpaced_nondecreasing (size : nat) (low high : Q) :
  (low <= high)%Q -> nondecreasing (LinSpaced size low high).
Proof.
  intros Hle i j Hij Hj. rewrite LinSpaced_length in Hj.
  destruct size as [|[|n]]; [lia | |].
  - assert (i = 0) by lia. assert (j = 0) by lia. subst. apply Qle_refl.
  - rewrite !LinSpaced_nth by lia.
    apply Qplus_le_r. apply Qmult_le_compat_r.
    + rewrite <- Zle_Qle. lia.
    + now apply LinSpaced_step_nonneg.
Qed.

(** With bounds the other way round the grid runs downwards. *)
Lemma LinSpaced_nonincreasing (size : nat) (low high : Q) :
  (high <= low)%Q ->
  forall i j, i <= j -> j < size ->
    (nth j (LinSpaced size low high) 0 <= nth i (LinSpaced size low high) 0)%Q.
Proof.
  intros Hle i j Hij Hj.
  destruct size as [|[|n]]; [lia | |].
  - assert (i = 0) by lia. assert (j = 0) by lia. subst. apply Qle_refl.
  - rewrite !LinSpaced_nth by lia.
    apply Qplus_le_r.
    assert (Hstep : ((high - low) / inject_Z (Z.of_nat (S n)) <= 0)%Q).
    { apply Qle_shift_div_r; [apply inject_Z_S_pos|].
      rewrite Qmult_0_l. apply Qle_minus_iff.
      setoid_replace (0 + - (high - low))%Q with (low - high)%Q by ring.
      now apply (proj1 (Qle_minus_iff high low)). }
    assert (Hz : (inject_Z (Z.of_nat i) <= inject_Z (Z.of_nat j))%Q)
      by (rewrite <- Zle_Qle; lia).
    set (s := ((high - low) / inject_Z (Z.of_nat (S n)))%Q) in *.
    apply Qle_minus_iff.
    setoid_replace (inject_Z (Z.of_nat i) * s + - (inject_Z (Z.of_nat j) * s))%Q
      with ((inject_Z (Z.of_nat j) - inject_Z (Z.of_nat i)) * (- s))%Q by ring.
    apply Qmult_le_0_compat.
    + now apply (proj1 (Qle_minus_iff _ _)).
    + apply Qle_minus_iff in Hstep.
      setoid_replace (- s)%Q with (0 + - s)%Q by ring. exact Hstep.
Qed.

(** *** Rounding *)





(** The rounding at work: 0.1 and 1.1 as doubles, 0.1 as a float; a double
    is left as it is; a tie goes to the even neighbour (2^53 + 1 to 2^53,
    2^53 + 3 to 2^53 + 4); half of the least subnormal goes to zero; the
    largest double stays, and 2^1024 is beyond the range. *)
Example rounding_samples :
  double_of (1 # 10) = Some (3602879701896397 # 36028797018963968)%Q
  /\ double_of (11 # 10) = Some (2476979795053773 # 2251799813685248)%Q
  /\ float_of (1 # 10) = Some (13421773 # 134217728)%Q
  /\ double_of (3602879701896397 # 36028797018963968)
     = Some (3602879701896397 # 36028797018963968)%Q
  /\ double_of (inject_Z (2 ^ 53 + 1)) = Some (inject_Z (2 ^ 53))
  /\ double_of (inject_Z (2 ^ 53 + 3)) = Some (inject_Z (2 ^ 53 + 4))
  /\ double_of (Qpow2 (-1075)) = Some 0%Q
  /\ double_of (inject_Z (2 ^ 1024 - 2 ^ 971))
     = Some (inject_Z (2 ^ 1024 - 2 ^ 971))
  /\ double_of (inject_Z (2 ^ 1024)) = None.
Proof. repeat split; vm_compute; reflexivity. Qed.

(** *** The count *)



(** Whenever the grid of a joint is built, it is [LinSpaced] of the count,
    the ceiling of the quotient the code computes. *)
Lemma grid_of_dof_inv limits resolution dof g :
  grid_of_dof limits resolution dof = inr g ->
  exists lo hi r q,
    nth_error limits dof = Some (lo, hi) /\ nth_error resolution dof = Some r
    /\ ~ (r == 0)%Q
    /\ double_quotient lo hi r = Some q
    /\ (0 <= Qceiling q <= INT_MAX)%Z
    /\ g = LinSpaced (Z.to_nat (Qceiling q)) lo hi.
Proof.
  unfold grid_of_dof, grid_count.
  destruct (nth_error limits dof) as [[lo hi]|]; [|discriminate].
  destruct (nth_error resolution dof) as [r|]; [|discriminate].
  destruct (double_quotient lo hi r) as [q|] eqn:Eq; [|discriminate].
  cbv zeta.
  destruct (_ || _)%bool eqn:Er; [discriminate|].
  destruct (_ <? 0)%Z eqn:En; [discriminate|].
  intro Hg. inversion Hg; subst g. exists lo, hi, r, q.
  apply orb_false_elim in Er. destruct Er as [_ Er].
  apply Z.ltb_ge in Er, En.
  repeat split; auto.
  intro Hq. unfold double_quotient in Eq. apply Qeq_eq_bool in Hq.
  rewrite Hq in Eq. discriminate.
Qed.

Lemma build_dof_range_from_spec limits resolution n : forall dof dof_range,
  build_dof_range_from limits resolution dof n = inr dof_range ->
  length dof_range = n
  /\ forall i, i < n ->
       exists g, nth_error dof_range i = Some g
                 /\ grid_of_dof limits resolution (dof + i) = inr g.
Proof.
  induction n as [|n IH]; intros dof dof_range Hb; simpl in Hb.
  - inversion Hb. split; [reflexivity | intros; lia].
  - destruct (grid_of_dof limits resolution dof) as [u|g] eqn:Eg; [discriminate|].
    destruct (build_dof_range_from limits resolution (S dof) n) as [u|gs] eqn:Egs;
      [discriminate|].
    inversion Hb; subst dof_range. destruct (IH _ _ Egs) as [Hlen Hnth].
    split; [simpl; now rewrite Hlen|].
    intros [|i] Hi.
    + exists g. now rewrite Nat.add_0_r.
    + destruct (Hnth i ltac:(lia)) as [g' [H1 H2]]. exists g'.
      split; [exact H1|]. now replace (dof + S i) with (S dof + i) by lia.
Qed.

Lemma build_dof_range_length limits resolution n dof_range :
  build_dof_range limits resolution n = inr dof_range -> length dof_range = n.
Proof. intro Hb. now apply build_dof_range_from_spec in Hb. Qed.

Lemma build_dof_range_nth limits resolution n dof_range i :
  build_dof_range limits resolution n = inr dof_range -> i < n ->
  exists g, nth_error dof_range i = Some g
            /\ grid_of_dof limits resolution i = inr g.
Proof.
  intros Hb Hi. apply build_dof_range_from_spec in Hb.
  destruct Hb as [_ Hb]. exact (Hb i Hi).
Qed.

(** ** The call log *)

Section CallLogFacts.
Context {Iso : Type}.

Lemma fwd_kin_joints_app (l l' : list (Call Iso)) :
  fwd_kin_joints (l ++ l') = fwd_kin_joints l ++ fwd_kin_joints l'.
Proof. unfold fwd_kin_joints. apply flat_map_app. Qed.

Lemma fwd_kin_calls_app (l l' : list (Call Iso)) :
  fwd_kin_calls (l ++ l') = fwd_kin_calls l + fwd_kin_calls l'.
Proof. unfold fwd_kin_calls. now rewrite fwd_kin_joints_app, length_app. Qed.

Lemma inv_kin_poses_app (l l' : list (Call Iso)) :
  inv_kin_poses (l ++ l') = inv_kin_poses l ++ inv_kin_poses l'.
Proof. unfold inv_kin_poses. apply flat_map_app. Qed.

Lemma distance_queries_app (l l' : list (Call Iso)) :
  distance_queries (l ++ l') = distance_queries l ++ distance_queries l'.
Proof. unfold distance_queries. apply flat_map_app. Qed.

Lemma with_calls_nil (st : Search Iso) : with_calls st [] = st.
Proof. destruct st. unfold with_calls. simpl. now rewrite app_nil_r. Qed.

Lemma with_calls_app (st : Search Iso) l l' :
  with_calls (with_calls st l) l' = with_calls st (l ++ l').
Proof. unfold with_calls. simpl. now rewrite app_assoc. Qed.

End CallLogFacts.

(** Both sides are states built by the primitive operations: unfold them and
    bring the lists to one shape. *)
Ltac state_eq :=
  unfold with_calls, ret, bind, get_solution_set, put_solution_set,
    get_distance, put_distance, record_call;
  simpl; rewrite ?app_nil_r, <- ?app_assoc; simpl; try reflexivity.

(** ** [ikAt] at one rail sample point *)

Section PointFacts.
Context {Iso : Type} `{Isometry Iso}.
Variable self : DescartesRailedSampler Iso.

Lemma quiet_nil : @quiet Iso [].
Proof. now repeat split. Qed.

Lemma quiet_app (l l' : list (Call Iso)) : quiet l -> quiet l' -> quiet (l ++ l').
Proof.
  intros (A & B & C) (A' & B' & C'). unfold quiet.
  rewrite fwd_kin_joints_app, inv_kin_poses_app, distance_queries_app.
  rewrite A, A', B, B', C, C'. now repeat split.
Qed.

Lemma isCollisionFree_spec vertex (st : Search Iso) :
  exists l, isCollisionFree self vertex st
            = Ok (collision_free self vertex) (with_calls st l)
            /\ quiet l.
Proof.
  unfold isCollisionFree, collision_free.
  destruct (collision_ self) as [c|].
  - exists [CallValidate vertex (dof_ self)]. split; [reflexivity | now repeat split].
  - exists []. rewrite with_calls_nil. split; [reflexivity | apply quiet_nil].
Qed.

(** One turn of the loop of [ikAt] in collect-all mode. *)
Lemma ikAt_solution_collect railed_pose robot_solution_set robot_dof i
    (st : Search Iso) :
  exists l,
    ikAt_solution self railed_pose robot_solution_set robot_dof false i st
    = Ok tt
        {| solution_set :=
             solution_set st
             ++ concat (filter (collision_free self)
                          (filter (is_valid_ self)
                             [full_solution self railed_pose robot_solution_set robot_dof i]));
           distance := distance st;
           calls := calls st ++ l |}
    /\ quiet l.
Proof.
  unfold ikAt_solution.
  fold (full_solution self railed_pose robot_solution_set robot_dof i).
  set (full_sol := full_solution self railed_pose robot_solution_set robot_dof i).
  unfold bind at 1. unfold record_call at 1. simpl filter.
  destruct (is_valid_ self full_sol) eqn:Ev; cbn [negb]; cbv beta iota.
  - unfold bind at 1.
    destruct (isCollisionFree_spec full_sol
                {| solution_set := solution_set st; distance := distance st;
                   calls := calls st ++ [CallIsValid full_sol] |})
      as [l [Hl Hq]].
    rewrite Hl. exists ([CallIsValid full_sol] ++ l).
    split; [|apply quiet_app; [now repeat split | exact Hq]].
    simpl filter.
    destruct (collision_free self full_sol); simpl.
    + state_eq.
    + state_eq.
  - exists [CallIsValid full_sol]. split; [|now repeat split]. state_eq.
Qed.

(** The loop of [ikAt] in collect-all mode. *)
Lemma ikAt_loop_collect railed_pose robot_solution_set robot_dof idxs :
  forall st : Search Iso, exists l,
    for_each idxs
      (ikAt_solution self railed_pose robot_solution_set robot_dof false) st
    = Ok tt
        {| solution_set :=
             solution_set st
             ++ concat (filter (collision_free self)
                          (filter (is_valid_ self)
                             (map (full_solution self railed_pose robot_solution_set robot_dof)
                                  idxs)));
           distance := distance st;
           calls := calls st ++ l |}
    /\ quiet l.
Proof.
  induction idxs as [|i idxs IH]; intros st.
  - exists []. destruct st. simpl. rewrite !app_nil_r.
    split; [reflexivity | apply quiet_nil].
  - simpl for_each. unfold bind.
    destruct (ikAt_solution_collect railed_pose robot_solution_set robot_dof i st)
      as [l1 [H1 Hq1]].
    rewrite H1.
    match goal with |- context [for_each idxs _ ?s] =>
      destruct (IH s) as [l2 [H2 Hq2]] end.
    rewrite H2. exists (l1 ++ l2). split; [|now apply quiet_app].
    simpl solution_set. simpl distance. simpl calls.
    change (map (full_solution self railed_pose robot_solution_set robot_dof) (i :: idxs))
      with ([full_solution self railed_pose robot_solution_set robot_dof i]
            ++ map (full_solution self railed_pose robot_solution_set robot_dof) idxs).
    now rewrite !filter_app, concat_app, <- !app_assoc.
Qed.

Lemma collision_distance_spec c full_sol (st : Search Iso) :
  collision_ self = Some c ->
  collision_distance self full_sol st
  = Ok (clearance_of c full_sol)
       (with_calls st [CallDistance full_sol (length full_sol)]).
Proof. intro Hc. unfold collision_distance. now rewrite Hc. Qed.

(** One turn of the loop of [ikAt] in best-only mode. *)
Lemma ikAt_solution_best c railed_pose robot_solution_set robot_dof i
    (st : Search Iso) :
  collision_ self = Some c ->
  let configurations :=
    filter (is_valid_ self)
      [full_solution self railed_pose robot_solution_set robot_dof i] in
  let acc := fold_left (best_step (clearance_of c)) configurations
               (solution_set st, distance st) in
  exists l,
    ikAt_solution self railed_pose robot_solution_set robot_dof true i st
    = Ok tt {| solution_set := fst acc; distance := snd acc;
               calls := calls st ++ l |}
    /\ fwd_kin_joints l = [] /\ inv_kin_poses l = []
    /\ distance_queries l = configurations.
Proof.
  intros Hc configurations acc. subst configurations acc.
  unfold ikAt_solution.
  fold (full_solution self railed_pose robot_solution_set robot_dof i).
  set (full_sol := full_solution self railed_pose robot_solution_set robot_dof i).
  unfold bind at 1. unfold record_call at 1. simpl filter.
  destruct (is_valid_ self full_sol) eqn:Ev; cbn [negb]; cbv beta iota.
  - unfold bind at 1. rewrite (collision_distance_spec _ _ Hc).
    exists [CallIsValid full_sol; CallDistance full_sol (length full_sol)].
    split; [|now repeat split].
    simpl fold_left. unfold best_step. simpl fst. simpl snd.
    unfold bind at 1. unfold get_distance at 1. simpl distance.
    destruct (Qltb (distance st) (clearance_of c full_sol)) eqn:E;
      state_eq; rewrite ?E; reflexivity.
  - exists [CallIsValid full_sol]. split; [|now repeat split]. state_eq.
Qed.

(** The loop of [ikAt] in best-only mode. *)
Lemma ikAt_loop_best c railed_pose robot_solution_set robot_dof idxs :
  collision_ self = Some c ->
  forall st : Search Iso,
  let configurations :=
    filter (is_valid_ self)
      (map (full_solution self railed_pose robot_solution_set robot_dof) idxs) in
  let acc := fold_left (best_step (clearance_of c)) configurations
               (solution_set st, distance st) in
  exists l,
    for_each idxs
      (ikAt_solution self railed_pose robot_solution_set robot_dof true) st
    = Ok tt {| solution_set := fst acc; distance := snd acc;
               calls := calls st ++ l |}
    /\ fwd_kin_joints l = [] /\ inv_kin_poses l = []
    /\ distance_queries l = configurations.
Proof.
  intro Hc. induction idxs as [|i idxs IH]; intros st; cbv zeta.
  - exists []. destruct st. simpl. rewrite !app_nil_r. now repeat split.
  - simpl for_each. unfold bind.
    destruct (ikAt_solution_best railed_pose robot_solution_set robot_dof i st Hc)
      as (l1 & H1 & F1 & K1 & D1).
    rewrite H1.
    match goal with |- context [for_each idxs _ ?s] =>
      destruct (IH s) as (l2 & H2 & F2 & K2 & D2) end.
    rewrite H2. exists (l1 ++ l2).
    change (map (full_solution self railed_pose robot_solution_set robot_dof) (i :: idxs))
      with ([full_solution self railed_pose robot_solution_set robot_dof i]
            ++ map (full_solution self railed_pose robot_solution_set robot_dof) idxs).
    rewrite filter_app, fold_left_app.
    rewrite fwd_kin_joints_app, inv_kin_poses_app, distance_queries_app.
    rewrite F1, F2, K1, K2, D1, D2. simpl solution_set. simpl distance. simpl calls.
    rewrite <- surjective_pairing, <- app_assoc. now repeat split.
Qed.

(** Without a collision capability the loop goes through as long as the
    validity rule rejects every solution. *)
Lemma ikAt_loop_best_null railed_pose robot_solution_set robot_dof idxs :
  collision_ self = None ->
  filter (is_valid_ self)
    (map (full_solution self railed_pose robot_solution_set robot_dof) idxs) = [] ->
  forall st : Search Iso, exists l,
    for_each idxs
      (ikAt_solution self railed_pose robot_solution_set robot_dof true) st
    = Ok tt (with_calls st l)
    /\ quiet l.
Proof.
  intros Hc. induction idxs as [|i idxs IH]; intros Hnone st.
  - exists []. rewrite with_calls_nil. split; [reflexivity | apply quiet_nil].
  - simpl in Hnone.
    destruct (is_valid_ self (full_solution self railed_pose robot_solution_set robot_dof i))
      eqn:Ev; [discriminate|].
    simpl for_each. unfold bind at 1. unfold ikAt_solution at 1.
    fold (full_solution self railed_pose robot_solution_set robot_dof i).
    unfold bind at 1. unfold record_call at 1. rewrite Ev. cbn [negb]. cbv beta iota.
    unfold ret at 1.
    match goal with |- context [for_each idxs _ ?s] =>
      destruct (IH Hnone s) as (l2 & H2 & Hq2) end.
    rewrite H2.
    exists ([CallIsValid (full_solution self railed_pose robot_solution_set robot_dof i)]
            ++ l2).
    split; [state_eq | apply quiet_app; [now repeat split | exact Hq2]].
Qed.

(** [ikAt] in collect-all mode. *)
Lemma ikAt_collect p railed_pose (st : Search Iso) :
  exists l b, point_log self railed_pose l /\ distance_queries l = [] /\
    match ik_branches self p railed_pose with
    | inr branches =>
        let s := solution_set st
                 ++ concat (filter (collision_free self)
                              (filter (is_valid_ self) branches)) in
        ikAt self p railed_pose false st
        = Ok b
             {| solution_set := s; distance := distance st;
                calls := calls st ++ l |}
    | inl u =>
        ikAt self p railed_pose false st = Undefined u (with_calls st l)
        /\ u = IntDivisionByZero
    end.
Proof.
  unfold ikAt, ik_branches.
  unfold bind at 1. unfold record_call at 1.
  destruct (calcFwdKin (railed_kinematics_ self) railed_pose) as [rail_tf|].
  2:{ exists [CallFwdKin railed_pose], false.
      repeat split; [constructor | state_eq]. }
  cbv zeta. set (robot_tool_pose := compose (inverse rail_tf) p).
  destruct (Qltb (robot_reach_ self) (translation_norm robot_tool_pose)) eqn:Er.
  { exists [CallFwdKin railed_pose], false.
    repeat split; [constructor | state_eq]. }
  unfold bind at 1. unfold record_call at 1.
  assert (Hlog : forall l', quiet l' ->
            point_log self railed_pose ([CallFwdKin railed_pose;
                        CallInvKin robot_tool_pose (ik_seed_ self)] ++ l')
            /\ distance_queries
                 ([CallFwdKin railed_pose;
                   CallInvKin robot_tool_pose (ik_seed_ self)] ++ l') = []).
  { intros l' (A & B & C). unfold point_log.
    rewrite fwd_kin_joints_app, inv_kin_poses_app, distance_queries_app, A, B, C.
    repeat split. simpl. constructor; [exact Er | constructor]. }
  destruct (calcInvKin (robot_kinematics_ self) robot_tool_pose (ik_seed_ self))
    as [robot_solution_set|].
  2:{ destruct (Hlog [] quiet_nil) as [Hp Hd].
      eexists; exists false. split; [exact Hp|]. split; [exact Hd|]. state_eq. }
  destruct (ik_numJoints (robot_kinematics_ self) =? 0) eqn:E0.
  { destruct (Hlog [] quiet_nil) as [Hp Hd].
    eexists; exists false. split; [exact Hp|]. split; [exact Hd|].
    split; [|reflexivity]. state_eq. }
  unfold bind, record_call. simpl.
  match goal with |- context [for_each ?idxs (ikAt_solution _ ?rp ?rs ?rd false) ?s] =>
    destruct (ikAt_loop_collect rp rs rd idxs s) as (l' & Hl' & Hq') end.
  destruct (Hlog l' Hq') as [Hp Hd].
  eexists; eexists. split; [exact Hp|]. split; [exact Hd|].
  rewrite Hl'. state_eq.
Qed.

(** [ikAt] in best-only mode, with a collision capability. *)
Lemma ikAt_best c p railed_pose (st : Search Iso) :
  collision_ self = Some c ->
  exists l b, point_log self railed_pose l /\
    match ik_branches self p railed_pose with
    | inr branches =>
        let configurations := filter (is_valid_ self) branches in
        let acc := fold_left (best_step (clearance_of c)) configurations
                     (solution_set st, distance st) in
        ikAt self p railed_pose true st
        = Ok b
             {| solution_set := fst acc; distance := snd acc;
                calls := calls st ++ l |}
        /\ distance_queries l = configurations
    | inl u =>
        ikAt self p railed_pose true st = Undefined u (with_calls st l)
        /\ u = IntDivisionByZero /\ distance_queries l = []
    end.
Proof.
  intro Hc. unfold ikAt, ik_branches.
  unfold bind at 1. unfold record_call at 1.
  destruct (calcFwdKin (railed_kinematics_ self) railed_pose) as [rail_tf|].
  2:{ exists [CallFwdKin railed_pose], false.
      repeat split; first [now constructor | destruct st; state_eq]. }
  cbv zeta. set (robot_tool_pose := compose (inverse rail_tf) p).
  destruct (Qltb (robot_reach_ self) (translation_norm robot_tool_pose)) eqn:Er.
  { exists [CallFwdKin railed_pose], false.
    repeat split; first [now constructor | destruct st; state_eq]. }
  unfold bind at 1. unfold record_call at 1.
  assert (Hlog : forall l', fwd_kin_joints l' = [] -> inv_kin_poses l' = [] ->
            point_log self railed_pose ([CallFwdKin railed_pose;
                        CallInvKin robot_tool_pose (ik_seed_ self)] ++ l')
            /\ distance_queries
                 ([CallFwdKin railed_pose;
                   CallInvKin robot_tool_pose (ik_seed_ self)] ++ l')
               = distance_queries l').
  { intros l' A B. unfold point_log.
    rewrite fwd_kin_joints_app, inv_kin_poses_app, distance_queries_app, A, B.
    repeat split. simpl. constructor; [exact Er | constructor]. }
  destruct (calcInvKin (robot_kinematics_ self) robot_tool_pose (ik_seed_ self))
    as [robot_solution_set|].
  2:{ destruct (Hlog [] eq_refl eq_refl) as [Hp Hd].
      eexists; exists false. split; [exact Hp|].
      split; [destruct st; state_eq | exact Hd]. }
  destruct (ik_numJoints (robot_kinematics_ self) =? 0) eqn:E0.
  { destruct (Hlog [] eq_refl eq_refl) as [Hp Hd].
    eexists; exists false. split; [exact Hp|].
    split; [state_eq | split; [reflexivity | exact Hd]]. }
  unfold bind, record_call. simpl.
  match goal with |- context [for_each ?idxs (ikAt_solution _ ?rp ?rs ?rd true) ?s] =>
    destruct (ikAt_loop_best rp rs rd idxs Hc s) as (l' & Hl' & F' & K' & D') end.
  destruct (Hlog l' F' K') as [Hp Hd].
  eexists; eexists. split; [exact Hp|].
  rewrite Hl'. split; [state_eq | now rewrite Hd, D'].
Qed.

(** [ikAt] in best-only mode without a collision capability, at a point with
    no valid configuration. *)
Lemma ikAt_best_null p railed_pose (st : Search Iso) branches :
  collision_ self = None ->
  ik_branches self p railed_pose = inr branches ->
  filter (is_valid_ self) branches = [] ->
  exists l b, point_log self railed_pose l /\ distance_queries l = [] /\
    ikAt self p railed_pose true st = Ok b (with_calls st l).
Proof.
  intros Hc. unfold ikAt, ik_branches.
  unfold bind at 1. unfold record_call at 1.
  destruct (calcFwdKin (railed_kinematics_ self) railed_pose) as [rail_tf|].
  2:{ intros _ _. exists [CallFwdKin railed_pose], false.
      repeat split; constructor. }
  cbv zeta. set (robot_tool_pose := compose (inverse rail_tf) p).
  destruct (Qltb (robot_reach_ self) (translation_norm robot_tool_pose)) eqn:Er.
  { intros _ _. exists [CallFwdKin railed_pose], false.
    repeat split; constructor. }
  unfold bind at 1. unfold record_call at 1.
  assert (Hlog : forall l', quiet l' ->
            point_log self railed_pose ([CallFwdKin railed_pose;
                        CallInvKin robot_tool_pose (ik_seed_ self)] ++ l')
            /\ distance_queries
                 ([CallFwdKin railed_pose;
                   CallInvKin robot_tool_pose (ik_seed_ self)] ++ l') = []).
  { intros l' (A & B & C). unfold point_log.
    rewrite fwd_kin_joints_app, inv_kin_poses_app, distance_queries_app, A, B, C.
    repeat split. simpl. constructor; [exact Er | constructor]. }
  destruct (calcInvKin (robot_kinematics_ self) robot_tool_pose (ik_seed_ self))
    as [robot_solution_set|].
  2:{ intros _ _. destruct (Hlog [] quiet_nil) as [Hp Hd].
      eexists; exists false. split; [exact Hp|]. split; [exact Hd|]. state_eq. }
  destruct (ik_numJoints (robot_kinematics_ self) =? 0) eqn:E0; [discriminate|].
  intros Hb Hnone. inversion Hb; subst branches; clear Hb.
  unfold bind, record_call. simpl.
  match goal with |- context [for_each ?idxs (ikAt_solution _ ?rp ?rs ?rd true) ?s] =>
    destruct (ikAt_loop_best_null rp rs rd idxs Hc Hnone s) as (l' & Hl' & Hq') end.
  destruct (Hlog l' Hq') as [Hp Hd].
  eexists; eexists. split; [exact Hp|]. split; [exact Hd|].
  rewrite Hl'. state_eq.
Qed.

End PointFacts.

(** ** One pass over the rail sample points *)

Section PassFacts.
Context {Iso : Type} `{Isometry Iso}.
Variable self : DescartesRailedSampler Iso.

Lemma defined_at_cons point points :
  defined_at self (point :: points) <->
  (exists branches, ik_branches self (fst point) (snd point) = inr branches)
  /\ defined_at self points.
Proof.
  unfold defined_at. split.
  - intro Hd. split; [apply Hd; now left | intros q Hq; apply Hd; now right].
  - intros [Hp Hd] q [<-|Hq]; [exact Hp | now apply Hd].
Qed.

Lemma defined_at_nil : defined_at self [].
Proof. intros q []. Qed.

(** A robot with at least one joint never divides by zero. *)
Lemma defined_at_robot_dof points :
  ik_numJoints (robot_kinematics_ self) <> 0 -> defined_at self points.
Proof.
  intros Hdof [p railed_pose] _. unfold ik_branches. simpl.
  destruct (calcFwdKin _ _); [|eauto].
  destruct (Qltb _ _); [eauto|].
  destruct (calcInvKin _ _ _); [|eauto].
  apply Nat.eqb_neq in Hdof. rewrite Hdof. eauto.
Qed.

Lemma pass_cons flag point points (st : Search Iso) :
  pass self flag (point :: points) st
  = match ikAt self (fst point) (snd point) flag st with
    | Ok _ st' => pass self flag points st'
    | Undefined u st' => Undefined u st'
    end.
Proof.
  unfold pass, visit. simpl. unfold bind.
  destruct (ikAt self (fst point) (snd point) flag st); reflexivity.
Qed.

Lemma collected_cons point points :
  collected self (point :: points)
  = concat (filter (collision_free self) (valid_configurations self point))
    ++ collected self points.
Proof.
  unfold collected, visited. simpl. now rewrite filter_app, concat_app.
Qed.

Lemma pass_log_nil : pass_log self [] [].
Proof. split; [reflexivity | constructor]. Qed.

Lemma pass_log_app points points' l l' :
  pass_log self points l -> pass_log self points' l' ->
  pass_log self (points ++ points') (l ++ l').
Proof.
  intros [A B] [A' B']. split.
  - now rewrite fwd_kin_joints_app, map_app, A, A'.
  - rewrite inv_kin_poses_app. apply Forall_app. now split.
Qed.

Lemma point_log_pass_log point l :
  point_log self (snd point) l -> pass_log self [point] l.
Proof. intro Hp. exact Hp. Qed.

Lemma pass_log_calls points l :
  pass_log self points l -> fwd_kin_calls l = length points.
Proof. intros [A _]. unfold fwd_kin_calls. now rewrite A, length_map. Qed.

(** The collect-all pass: it goes through every point and appends the
    collision-free valid configurations, or stops on a division by zero. The
    clearance distance is not queried either way. *)
Lemma pass_collect points : forall st : Search Iso,
  exists l done, pass_log self done l /\ distance_queries l = [] /\
    ((defined_at self points /\ done = points /\
      pass self false points st
      = Ok tt {| solution_set := solution_set st ++ collected self points;
                 distance := distance st;
                 calls := calls st ++ l |})
     \/ (exists s, pass self false points st
                   = Undefined IntDivisionByZero
                       {| solution_set := s; distance := distance st;
                          calls := calls st ++ l |})).
Proof.
  induction points as [|point points IH]; intros st.
  - exists [], []. split; [apply pass_log_nil|]. split; [reflexivity|].
    left. split; [apply defined_at_nil|]. split; [reflexivity|].
    destruct st. unfold collected. state_eq.
  - rewrite pass_cons.
    destruct (ikAt_collect self (fst point) (snd point) st)
      as (l1 & b & Hp1 & Hd1 & H1).
    destruct (ik_branches self (fst point) (snd point)) as [u|branches] eqn:Eb.
    + destruct H1 as [H1 ->]. rewrite H1.
      exists l1, [point]. split; [exact Hp1|]. split; [exact Hd1|].
      right. exists (solution_set st). reflexivity.
    + cbv zeta in H1. rewrite H1.
      match goal with |- context [pass self false points ?s] =>
        destruct (IH s) as (l2 & done & Hp2 & Hd2 & H2) end.
      exists (l1 ++ l2), (point :: done).
      split; [apply (pass_log_app (point_log_pass_log point Hp1) Hp2)|].
      split; [now rewrite distance_queries_app, Hd1, Hd2|].
      destruct H2 as [(Hdef & -> & H2) | [s H2]].
      * left. split; [apply defined_at_cons; eauto|]. split; [reflexivity|].
        rewrite H2. rewrite collected_cons.
        unfold valid_configurations. rewrite Eb. state_eq.
      * right. exists s. rewrite H2. state_eq.
Qed.

(** The collect-all pass when no point divides by zero. *)
Lemma pass_collect_defined points :
  defined_at self points ->
  forall st : Search Iso,
  exists l, pass_log self points l /\ distance_queries l = []
    /\ pass self false points st
       = Ok tt {| solution_set := solution_set st ++ collected self points;
                  distance := distance st;
                  calls := calls st ++ l |}.
Proof.
  induction points as [|point points IH]; intros Hdef st.
  - exists []. split; [apply pass_log_nil|]. split; [reflexivity|].
    destruct st. unfold collected. state_eq.
  - apply defined_at_cons in Hdef. destruct Hdef as [[branches Eb] Hdef].
    rewrite pass_cons.
    destruct (ikAt_collect self (fst point) (snd point) st)
      as (l1 & b & Hp1 & Hd1 & H1).
    rewrite Eb in H1. cbv zeta in H1. rewrite H1.
    match goal with |- context [pass self false points ?s] =>
      destruct (IH Hdef s) as (l2 & Hp2 & Hd2 & H2) end.
    exists (l1 ++ l2).
    split; [apply (pass_log_app (point_log_pass_log point Hp1) Hp2)|].
    split; [now rewrite distance_queries_app, Hd1, Hd2|].
    rewrite H2. rewrite collected_cons.
    unfold valid_configurations. rewrite Eb. state_eq.
Qed.

Lemma best_of_cons c point points acc :
  best_of self c (point :: points) acc
  = best_of self c points
      (fold_left (best_step (clearance_of c)) (valid_configurations self point) acc).
Proof. unfold best_of, visited. simpl. now rewrite fold_left_app. Qed.

(** The best-only pass with a collision capability. *)
Lemma pass_best c points :
  collision_ self = Some c -> defined_at self points ->
  forall st : Search Iso,
  exists l, pass_log self points l
    /\ distance_queries l = visited self points
    /\ pass self true points st
       = Ok tt {| solution_set :=
                    fst (best_of self c points (solution_set st, distance st));
                  distance :=
                    snd (best_of self c points (solution_set st, distance st));
                  calls := calls st ++ l |}.
Proof.
  intro Hc. induction points as [|point points IH]; intros Hdef st.
  - exists []. split; [apply pass_log_nil|]. split; [reflexivity|].
    destruct st. state_eq.
  - apply defined_at_cons in Hdef. destruct Hdef as [[branches Eb] Hdef].
    rewrite pass_cons.
    destruct (ikAt_best self (fst point) (snd point) st Hc)
      as (l1 & b & Hp1 & H1).
    rewrite Eb in H1. cbv zeta in H1. destruct H1 as [H1 Hd1]. rewrite H1.
    match goal with |- context [pass self true points ?s] =>
      destruct (IH Hdef s) as (l2 & Hp2 & Hd2 & H2) end.
    exists (l1 ++ l2).
    split; [apply (pass_log_app (point_log_pass_log point Hp1) Hp2)|].
    split.
    + rewrite distance_queries_app, Hd1, Hd2.
      change (visited self (point :: points))
        with (valid_configurations self point ++ visited self points).
      unfold valid_configurations. now rewrite Eb.
    + rewrite H2. rewrite best_of_cons.
      unfold valid_configurations. rewrite Eb.
      simpl solution_set. simpl distance. simpl calls.
      rewrite <- surjective_pairing, <- app_assoc. reflexivity.
Qed.

(** The best-only pass without a collision capability, when no point has a
    valid configuration: nothing is queried and nothing changes. *)
Lemma pass_best_null points :
  collision_ self = None -> defined_at self points ->
  visited self points = [] ->
  forall st : Search Iso,
  exists l, pass_log self points l /\ distance_queries l = []
    /\ pass self true points st = Ok tt (with_calls st l).
Proof.
  intro Hc. induction points as [|point points IH]; intros Hdef Hnone st.
  - exists []. split; [apply pass_log_nil|]. split; [reflexivity|].
    now rewrite with_calls_nil.
  - apply defined_at_cons in Hdef. destruct Hdef as [[branches Eb] Hdef].
    unfold visited in Hnone. simpl in Hnone. apply app_eq_nil in Hnone.
    destruct Hnone as [Hpoint Hnone].
    unfold valid_configurations in Hpoint. rewrite Eb in Hpoint.
    rewrite pass_cons.
    destruct (ikAt_best_null self (fst point) (snd point) st Hc Eb Hpoint)
      as (l1 & b & Hp1 & Hd1 & H1).
    rewrite H1.
    destruct (IH Hdef Hnone (with_calls st l1)) as (l2 & Hp2 & Hd2 & H2).
    exists (l1 ++ l2).
    split; [apply (pass_log_app (point_log_pass_log point Hp1) Hp2)|].
    split; [now rewrite distance_queries_app, Hd1, Hd2|].
    rewrite H2. now rewrite with_calls_app.
Qed.

End PassFacts.

(** ** The recursion of [nested_ik] is the enumeration of the grid *)

Lemma set_coeff_length (v : list Q) (i : nat) (x : Q) :
  length (set_coeff v i x) = length v.
Proof.
  revert i. induction v as [|h t IH]; intros [|i]; simpl; auto.
Qed.

Lemma set_coeff_firstn (v : list Q) (i : nat) (x : Q) :
  i < length v -> firstn (S i) (set_coeff v i x) = firstn i v ++ [x].
Proof.
  revert i. induction v as [|h t IH]; intros [|i] Hi; simpl in *; try lia.
  - reflexivity.
  - f_equal. apply IH. lia.
Qed.

Lemma firstn_firstn_S {A} (v w : list A) (i : nat) (x : A) :
  firstn (S i) v = firstn i w ++ [x] -> i <= length w -> firstn i v = firstn i w.
Proof.
  intros Hv Hi.
  assert (E : firstn i (firstn (S i) v) = firstn i v).
  { rewrite firstn_firstn. f_equal. lia. }
  rewrite <- E, Hv. rewrite firstn_app.
  rewrite firstn_firstn, Nat.min_id.
  rewrite length_firstn, Nat.min_l by exact Hi.
  rewrite Nat.sub_diag. simpl. apply app_nil_r.
Qed.

Lemma skipn_nth_error_cons {A} (l : list A) (i : nat) (x : A) :
  nth_error l i = Some x -> skipn i l = x :: skipn (S i) l.
Proof.
  revert i. induction l as [|h t IH]; intros [|i] Hx; simpl in *; try discriminate.
  - now inversion Hx.
  - now apply IH.
Qed.

Lemma grid_points_length (dof_range : list (list Q)) :
  length (grid_points dof_range) = grid_size dof_range.
Proof.
  induction dof_range as [|range rest IH]; [reflexivity|].
  simpl. rewrite <- IH. clear IH.
  induction range as [|x range IHr]; [reflexivity|].
  simpl. rewrite length_app, length_map, IHr. reflexivity.
Qed.

Lemma grid_points_in_length (dof_range : list (list Q)) point :
  In point (grid_points dof_range) -> length point = length dof_range.
Proof.
  revert point. induction dof_range as [|range rest IH]; intros point Hin.
  - destruct Hin as [<-|[]]. reflexivity.
  - simpl in Hin. apply in_flat_map in Hin. destruct Hin as (x & _ & Hin).
    apply in_map_iff in Hin. destruct Hin as (q & <- & Hq).
    simpl. f_equal. now apply IH.
Qed.

(** Converting the values of the grids changes neither their sizes nor the
    shape of their product. *)
Lemma grid_size_map (f : Q -> Q) (dof_range : list (list Q)) :
  grid_size (map (map f) dof_range) = grid_size dof_range.
Proof.
  induction dof_range as [|range rest IH]; [reflexivity|].
  unfold grid_size in *. simpl. now rewrite IH, length_map.
Qed.

Lemma grid_points_map (f : Q -> Q) (dof_range : list (list Q)) :
  grid_points (map (map f) dof_range) = map (map f) (grid_points dof_range).
Proof.
  induction dof_range as [|range rest IH]; [reflexivity|].
  simpl. rewrite IH. clear IH.
  induction range as [|x range IHr]; [reflexivity|].
  simpl. rewrite map_app, IHr, !map_map. reflexivity.
Qed.

Section EnumerationFacts.
Context {Iso : Type} `{Isometry Iso}.
Variable self : DescartesRailedSampler Iso.
Variable dof_range : list (list Q).
Variable p : Iso.
Variable flag : bool.

Lemma nested_ik_from_enumerates : forall depth loop_level sample_pose,
  length sample_pose = loop_level + depth ->
  length dof_range = loop_level + depth ->
  exists sample_pose',
    length sample_pose' = length sample_pose
    /\ firstn loop_level sample_pose' = firstn loop_level sample_pose
    /\ forall st,
         nested_ik_from self depth loop_level dof_range p sample_pose flag st
         = bind (for_each
                   (map (fun point => firstn loop_level sample_pose ++ point)
                        (grid_points
                           (skipn loop_level (as_FloatType self dof_range))))
                   (fun railed_pose => visit self flag (p, railed_pose)))
                (fun _ => ret sample_pose') st.
Proof.
  induction depth as [|depth IH]; intros loop_level sample_pose Hsp Hdr.
  - exists sample_pose. split; [reflexivity|]. split; [reflexivity|].
    intro st. rewrite Nat.add_0_r in Hsp, Hdr.
    assert (Hst : length (as_FloatType self dof_range) = loop_level)
      by (unfold as_FloatType; now rewrite length_map).
    rewrite <- Hst, skipn_all. rewrite Hst, <- Hsp, firstn_all. simpl.
    rewrite app_nil_r. unfold visit, bind, ret. simpl.
    destruct (ikAt self p sample_pose flag st); reflexivity.
  - assert (Hlt : loop_level < length dof_range) by lia.
    destruct (nth_error dof_range loop_level) as [range|] eqn:Er;
      [|apply nth_error_None in Er; lia].
    assert (Er' : nth_error (as_FloatType self dof_range) loop_level
                  = Some (map (to_FloatType self) range))
      by (unfold as_FloatType; now apply map_nth_error).
    rewrite (skipn_nth_error_cons _ _ Er').
    simpl nested_ik_from. rewrite Er. simpl grid_points.
    set (rest := grid_points (skipn (S loop_level) (as_FloatType self dof_range))).
    set (body := fun (x : Q) (sample_pose0 : list Q) =>
                   if length sample_pose0 <=? loop_level
                   then undefined IndexOutOfRange
                   else nested_ik_from self depth (S loop_level) dof_range p
                          (set_coeff sample_pose0 loop_level
                             (to_FloatType self x)) flag).
    set (prefix := firstn loop_level sample_pose).
    assert (Hloop : forall xs v,
              length v = length sample_pose -> firstn loop_level v = prefix ->
              exists v', length v' = length sample_pose
                /\ firstn loop_level v' = prefix
                /\ forall st,
                     for_each_with xs v body st
                     = bind (for_each
                               (map (fun point => prefix ++ point)
                                    (flat_map (fun x => map (cons x) rest)
                                       (map (to_FloatType self) xs)))
                               (fun railed_pose => visit self flag (p, railed_pose)))
                            (fun _ => ret v') st).
    { induction xs as [|x xs IHxs]; intros v Hv Hpre.
      - exists v. split; [exact Hv|]. split; [exact Hpre|]. reflexivity.
      - destruct (IH (S loop_level)
                    (set_coeff v loop_level (to_FloatType self x)))
          as (v1 & L1 & P1 & E1).
        { rewrite set_coeff_length. lia. }
        { lia. }
        rewrite set_coeff_length in L1.
        rewrite set_coeff_firstn in P1 by lia.
        assert (P1' : firstn loop_level v1 = prefix).
        { rewrite <- Hpre. eapply firstn_firstn_S; [exact P1 | lia]. }
        destruct (IHxs v1) as (v' & L' & P' & E'); [lia | exact P1' |].
        exists v'. split; [exact L'|]. split; [exact P'|].
        intro st. simpl for_each_with. simpl map. simpl flat_map.
        rewrite map_app.
        set (visit_at := fun railed_pose : list Q => visit self flag (p, railed_pose)).
        transitivity
          (bind (for_each (map (fun point => prefix ++ point)
                             (map (cons (to_FloatType self x)) rest))
                   visit_at)
                (fun _ => bind (for_each
                                  (map (fun point => prefix ++ point)
                                       (flat_map (fun x => map (cons x) rest)
                                          (map (to_FloatType self) xs)))
                                  visit_at)
                               (fun _ => ret v')) st).
        2:{ symmetry. etransitivity; [|apply bind_assoc].
            apply bind_ext; [intro st'; apply for_each_app | reflexivity]. }
        unfold body at 1.
        replace (length v <=? loop_level) with false
          by (symmetry; apply Nat.leb_gt; lia).
        etransitivity.
        { apply bind_ext; [exact E1 | intros a st'; reflexivity]. }
        etransitivity; [apply bind_assoc|].
        rewrite set_coeff_firstn by lia. rewrite Hpre.
        rewrite map_map.
        apply bind_ext.
        + intro st'. apply for_each_ext_map. intros point. now rewrite <- app_assoc.
        + intros _ st'. rewrite bind_ret_l. apply E'. }
    destruct (Hloop range sample_pose eq_refl eq_refl) as (v' & L' & P' & E').
    exists v'. split; [exact L'|]. split; [exact P'|]. exact E'.
Qed.

End EnumerationFacts.

(** ** The two passes of [sample] *)

Section SampleFacts.
Context {Iso : Type} `{Isometry Iso}.
Variable self : DescartesRailedSampler Iso.

Lemma bind_ret_tt (m : M Iso unit) st : bind m (fun _ => ret tt) st = m st.
Proof. unfold bind, ret. destruct (m st) as [[] st'|u st']; reflexivity. Qed.

Lemma fresh_railed_pose_length n : length (fresh_railed_pose n) = n.
Proof. apply repeat_length. Qed.

(** From a fresh rail pose, [nested_ik] visits the points of the grid. *)
Lemma nested_ik_enumerates dof_range p flag st :
  length dof_range = fk_numJoints (railed_kinematics_ self) ->
  bind (nested_ik self 0 dof_range p
          (fresh_railed_pose (fk_numJoints (railed_kinematics_ self))) flag)
       (fun _ => ret tt) st
  = for_each (grid_points (as_FloatType self dof_range))
      (fun railed_pose => visit self flag (p, railed_pose)) st.
Proof.
  intro Hlen. unfold nested_ik. rewrite Nat.sub_0_r.
  destruct (nested_ik_from_enumerates self dof_range p flag
              (fk_numJoints (railed_kinematics_ self)) 0
              (fresh_railed_pose (fk_numJoints (railed_kinematics_ self))))
    as (sp' & _ & _ & E).
  { now rewrite fresh_railed_pose_length. }
  { exact Hlen. }
  etransitivity; [apply bind_ext; [exact E | reflexivity]|].
  etransitivity; [apply bind_assoc|].
  simpl skipn. simpl firstn.
  etransitivity; [|apply bind_ret_tt].
  apply bind_ext; [|reflexivity].
  intro st'. rewrite for_each_map. reflexivity.
Qed.

Lemma tool_pose_loop_pass tool_poses dof_range flag st :
  length dof_range = fk_numJoints (railed_kinematics_ self) ->
  for_each tool_poses (fun tool_poses_i =>
    _ <- nested_ik self 0 dof_range (in_rail_frame self tool_poses_i)
           (fresh_railed_pose (fk_numJoints (railed_kinematics_ self))) flag ;;
    ret tt) st
  = pass self flag (search_points self tool_poses dof_range) st.
Proof.
  intro Hlen. unfold pass, search_points. rewrite for_each_flat_map.
  apply for_each_ext. intros tool_poses_i st' _.
  rewrite for_each_map. now apply nested_ik_enumerates.
Qed.

(** The collect-all pass of [sample] is the pass over the search points. *)
Lemma sample_tool_poses_pass tool_poses dof_range st :
  length dof_range = fk_numJoints (railed_kinematics_ self) ->
  sample_tool_poses self tool_poses dof_range st
  = pass self false (search_points self tool_poses dof_range) st.
Proof. intro Hlen. unfold sample_tool_poses. now apply tool_pose_loop_pass. Qed.

(** [getBestSolution] resets the tracker and runs the same pass in best-only
    mode. *)
Lemma getBestSolution_pass tool_poses dof_range st :
  length dof_range = fk_numJoints (railed_kinematics_ self) ->
  getBestSolution self tool_poses dof_range st
  = bind (put_distance numeric_limits_double_min)
      (fun _ => bind (pass self true (search_points self tool_poses dof_range))
         (fun _ => bind get_solution_set
            (fun s => ret (negb (vector_empty s))))) st.
Proof.
  intro Hlen. unfold getBestSolution.
  apply bind_ext; [reflexivity|]. intros _ st'.
  apply bind_ext; [|reflexivity]. intro st''.
  now apply tool_pose_loop_pass.
Qed.

Lemma search_points_length tool_poses dof_range :
  length (search_points self tool_poses dof_range)
  = grid_size dof_range * length tool_poses.
Proof.
  unfold search_points.
  induction tool_poses as [|t ts IH]; simpl; [lia|].
  rewrite length_app, length_map, grid_points_length, IH.
  unfold as_FloatType. rewrite grid_size_map. lia.
Qed.

Lemma search_points_in tool_poses dof_range point :
  In point (search_points self tool_poses dof_range) ->
  length (snd point) = length dof_range.
Proof.
  unfold search_points. intro Hin. apply in_flat_map in Hin.
  destruct Hin as (t & _ & Hin). apply in_map_iff in Hin.
  destruct Hin as (q & <- & Hq). simpl.
  rewrite (grid_points_in_length _ _ Hq). unfold as_FloatType.
  apply length_map.
Qed.

(** Every solution [ikAt] assembles is the rail pose followed by one robot
    solution of [robot_dof] scalars. *)
Lemma ik_branches_length p railed_pose branches full_sol :
  ik_branches self p railed_pose = inr branches -> In full_sol branches ->
  ik_numJoints (robot_kinematics_ self) <> 0
  /\ length full_sol = length railed_pose + ik_numJoints (robot_kinematics_ self).
Proof.
  unfold ik_branches.
  destruct (calcFwdKin _ _) as [rail_tf|]; [|intro E; inversion E; intros []].
  destruct (Qltb _ _); [intro E; inversion E; intros []|].
  destruct (calcInvKin _ _ _) as [sols|]; [|intro E; inversion E; intros []].
  destruct (_ =? 0) eqn:E0; [discriminate|].
  apply Nat.eqb_neq in E0.
  intro E. inversion E; subst branches; clear E. intro Hin.
  apply in_map_iff in Hin. destruct Hin as (i & <- & Hi).
  apply in_seq in Hi. split; [exact E0|].
  rewrite length_app, length_map, length_firstn, length_skipn. f_equal.
  set (d := ik_numJoints (robot_kinematics_ self)) in *.
  assert (Hle : d * (length sols / d) <= length sols) by apply Nat.Div0.mul_div_le.
  assert (d * S i <= d * (length sols / d)) by (apply Nat.mul_le_mono_l; lia).
  lia.
Qed.

Lemma visited_in points full_sol :
  In full_sol (visited self points) ->
  exists point, In point points
    /\ is_valid_ self full_sol = true
    /\ ik_numJoints (robot_kinematics_ self) <> 0
    /\ length full_sol
       = length (snd point) + ik_numJoints (robot_kinematics_ self).
Proof.
  unfold visited. intro Hin. apply in_flat_map in Hin.
  destruct Hin as (point & Hp & Hin). exists point. split; [exact Hp|].
  unfold valid_configurations in Hin.
  destruct (ik_branches self (fst point) (snd point)) as [u|branches] eqn:Eb;
    [destruct Hin|].
  apply filter_In in Hin. destruct Hin as [Hin Hv]. split; [exact Hv|].
  eapply ik_branches_length; eassumption.
Qed.

(** A configuration the search visits holds [dof_] scalars. *)
Lemma visited_length tool_poses dof_range full_sol :
  constructed self ->
  length dof_range = fk_numJoints (railed_kinematics_ self) ->
  In full_sol (visited self (search_points self tool_poses dof_range)) ->
  length full_sol = dof_ self /\ dof_ self <> 0.
Proof.
  intros (Hdof & _) Hlen Hin. apply visited_in in Hin.
  destruct Hin as (point & Hp & _ & H0 & Hl).
  apply search_points_in in Hp. rewrite Hl, Hp, Hlen, Hdof. lia.
Qed.

(** [sample], once the grid is built: the collect-all pass, then the
    best-only pass if the set is empty and collisions are tolerated. *)
Lemma sample_unfold dof_range (st : Search Iso) :
  build_dof_range (railed_limits_ self) (railed_sample_resolution_ self)
    (fk_numJoints (railed_kinematics_ self)) = inr dof_range ->
  let points :=
    search_points self (tool_pose_sampler_ self (tool_pose_ self)) dof_range in
  sample self st
  = match pass self false points
            {| solution_set := solution_set st;
               distance := numeric_limits_double_min;
               calls := calls st |} with
    | Ok _ st1 =>
        if vector_empty (solution_set st1) && allow_collision_ self
        then
          match pass self true points
                  {| solution_set := solution_set st1;
                     distance := numeric_limits_double_min;
                     calls := calls st1 |} with
          | Ok _ st2 => Ok (negb (vector_empty (solution_set st2))) st2
          | Undefined u st2 => Undefined u st2
          end
        else Ok (negb (vector_empty (solution_set st1))) st1
    | Undefined u st1 => Undefined u st1
    end.
Proof.
  intros Hb points. assert (Hlen := build_dof_range_length _ _ _ Hb).
  unfold sample. unfold bind at 1. unfold put_distance at 1.
  unfold bind at 1. rewrite Hb. unfold lift, ret at 1.
  unfold bind at 1. rewrite sample_tool_poses_pass by exact Hlen. fold points.
  destruct (pass self false points _) as [[] st1|u st1]; [|reflexivity].
  unfold bind at 1. unfold get_solution_set at 1. unfold bind at 1.
  destruct (vector_empty (solution_set st1) && allow_collision_ self).
  - unfold bind at 1. rewrite getBestSolution_pass by exact Hlen. fold points.
    unfold bind at 1. unfold put_distance at 1. unfold bind at 1.
    destruct (pass self true points _) as [[] st2|u st2]; reflexivity.
  - reflexivity.
Qed.

Lemma sample_undefined_grid u (st : Search Iso) :
  build_dof_range (railed_limits_ self) (railed_sample_resolution_ self)
    (fk_numJoints (railed_kinematics_ self)) = inl u ->
  sample self st
  = Undefined u {| solution_set := solution_set st;
                   distance := numeric_limits_double_min;
                   calls := calls st |}.
Proof.
  intro Hb. unfold sample. unfold bind at 1. unfold put_distance at 1.
  unfold bind at 1. now rewrite Hb.
Qed.

End SampleFacts.

(** * The sampler against its specification *)

(** ** The rail grid (C3) *)

(** A grid of one point cannot start at [lo] and end at [hi] unless the two
    are equal. *)
Lemma single_point_grid_not_as_specified (lo hi r : Q) (g : list Q) :
  length g = 1 -> ~ (lo == hi)%Q -> ~ grid_as_specified lo hi r g.
Proof.
  intros Hlen Hne (_ & (y & Hy & Hlo) & (z & Hz & Hhi) & _).
  rewrite Hlen in Hz. change (1 - 1) with 0 in Hz. rewrite Hy in Hz.
  inversion Hz; subst z. apply Hne. now rewrite <- Hlo, <- Hhi.
Qed.

(** C3, as the specification states it, fails where the range is no longer
    than the resolution: bounds [0, 1] with resolution 2 give the count 1,
    the grid is the single point 1, and its first element is not [low]. *)
Lemma rail_grid_single_point_counterexample :
  exists g,
    grid_of_dof [(0, 1)%Q] [2%Q] 0 = inr g
    /\ g = [1%Q]
    /\ Z.of_nat (length g) = Qceiling (Qabs (1 - 0) / 2)
    /\ ~ first_is g 0
    /\ ~ grid_as_specified 0 1 2 g.
Proof.
  exists [1%Q]. split; [reflexivity|]. split; [reflexivity|].
  split; [reflexivity|]. split.
  - intros (y & Hy & Hlo). simpl in Hy. inversion Hy; subst y. discriminate Hlo.
  - apply single_point_grid_not_as_specified; [reflexivity | discriminate].
Qed.

(** The count is taken in double arithmetic. For the doubles nearest to 1.1
    and to 0.1 the exact quotient is a little above 11 and its ceiling is
    12; the division rounds it to 11, and the grid has 11 points. *)
Example rail_grid_count_is_rounded :
  exists hi r,
    double_of (11 # 10) = Some hi /\ double_of (1 # 10) = Some r
    /\ grid_count 0 hi r = inr 11%Z
    /\ Qceiling (Qabs (hi - 0) / r) = 12%Z.
Proof.
  exists (2476979795053773 # 2251799813685248)%Q,
         (3602879701896397 # 36028797018963968)%Q.
  repeat split; vm_compute; reflexivity.
Qed.

(** The other way round: for the doubles nearest to 0.3, 0.87 and 0.01 the
    exact quotient is a little below 57; the code counts 58 points. *)
Example rail_grid_count_is_rounded_up :
  exists lo hi r,
    double_of (3 # 10) = Some lo /\ double_of (87 # 100) = Some hi
    /\ double_of (1 # 100) = Some r
    /\ grid_count lo hi r = inr 58%Z
    /\ Qceiling (Qabs (hi - lo) / r) = 57%Z.
Proof.
  exists (5404319552844595 # 18014398509481984)%Q,
         (7836263351624663 # 9007199254740992)%Q,
         (5764607523034235 # 576460752303423488)%Q.
  repeat split; vm_compute; reflexivity.
Qed.

(** C3 (amended). For a rail joint with bounds [lo <= hi] whose grid
    [sample] builds, the grid has exactly ceil (q) elements, where [q] is
    |hi - lo| / r as the code computes it in double arithmetic, and is
    monotonically non-decreasing; when it has at least one element the last
    equals [hi], and when it has at least two the first equals [lo]. *)
Theorem rail_grid_shape limits resolution num_joints dof_range i lo hi r :
  build_dof_range limits resolution num_joints = inr dof_range ->
  i < num_joints ->
  nth_error limits i = Some (lo, hi) ->
  nth_error resolution i = Some r ->
  (lo <= hi)%Q ->
  exists g q,
    nth_error dof_range i = Some g
    /\ double_quotient lo hi r = Some q
    /\ Z.of_nat (length g) = Qceiling q
    /\ nondecreasing g
    /\ (1 <= length g -> last_is g hi)
    /\ (2 <= length g -> first_is g lo).
Proof.
  intros Hb Hi Hl Hr Hle.
  destruct (@build_dof_range_nth limits resolution num_joints dof_range i Hb Hi)
    as (g & Hg & Hgrid).
  apply grid_of_dof_inv in Hgrid.
  destruct Hgrid as (lo' & hi' & r' & q & Hl' & Hr' & _ & Hq & [H0 _] & ->).
  rewrite Hl in Hl'. rewrite Hr in Hr'.
  inversion Hl'; inversion Hr'; subst lo' hi' r'.
  exists (LinSpaced (Z.to_nat (Qceiling q)) lo hi), q.
  split; [exact Hg|]. split; [exact Hq|].
  rewrite LinSpaced_length.
  split; [now rewrite Z2Nat.id|].
  split; [now apply LinSpaced_nondecreasing|].
  destruct (Z.to_nat (Qceiling q)) as [|[|n]].
  - split; intro; lia.
  - split; [intros _; apply LinSpaced_last_any | intro; lia].
  - split; intros _; [apply LinSpaced_last_any | apply LinSpaced_first].
Qed.

(** Bounds [0, 1] and resolution 2/5: the quotient is 5/2 and the grid is
    0, 1/2, 1. *)
Lemma rail_grid_shape_witness :
  exists g q,
    nth_error [LinSpaced 3 0 1] 0 = Some g
    /\ double_quotient 0 1 (2 # 5) = Some q
    /\ Z.of_nat (length g) = Qceiling q
    /\ nondecreasing g
    /\ (1 <= length g -> last_is g 1)
    /\ (2 <= length g -> first_is g 0).
Proof.
  apply (@rail_grid_shape [(0, 1)%Q] [(2 # 5)%Q] 1 [LinSpaced 3 0 1] 0 0 1 (2 # 5)).
  - reflexivity.
  - lia.
  - reflexivity.
  - reflexivity.
  - unfold Qle. simpl. lia.
Defined.

(** Bounds [0, 1] with resolution 1/2: the count is 2 and the grid is the
    two end points, without the middle point 1/2. *)
Example rail_grid_at_half_resolution :
  grid_of_dof [(0, 1)%Q] [(1 # 2)%Q] 0 = inr (LinSpaced 2 0 1)
  /\ map Qred (LinSpaced 2 0 1) = [0%Q; 1%Q].
Proof. split; reflexivity. Qed.

(** ** [sample], case by case *)

Section SampleCases.
Context {Iso : Type} `{Isometry Iso}.
Variable self : DescartesRailedSampler Iso.
Variable dof_range : list (list Q).
Hypothesis grid_built :
  build_dof_range (railed_limits_ self) (railed_sample_resolution_ self)
    (fk_numJoints (railed_kinematics_ self)) = inr dof_range.

Local Abbreviation points :=
  (search_points self (tool_pose_sampler_ self (tool_pose_ self)) dof_range).

(** The collect-all pass finds something, or collisions are not tolerated:
    [sample] is the collect-all pass. *)
Lemma sample_collects (st : Search Iso) :
  defined_at self points ->
  vector_empty (solution_set st ++ collected self points)
  && allow_collision_ self = false ->
  exists l,
    pass_log self points l /\ distance_queries l = []
    /\ pass self false points
         {| solution_set := solution_set st;
            distance := numeric_limits_double_min;
            calls := calls st |}
       = Ok tt {| solution_set := solution_set st ++ collected self points;
                  distance := numeric_limits_double_min;
                  calls := calls st ++ l |}
    /\ sample self st
       = Ok (negb (vector_empty (solution_set st ++ collected self points)))
            {| solution_set := solution_set st ++ collected self points;
               distance := numeric_limits_double_min;
               calls := calls st ++ l |}.
Proof.
  intros Hdef Hcond. rewrite (sample_unfold self st grid_built).
  destruct (pass_collect_defined Hdef
              {| solution_set := solution_set st;
                 distance := numeric_limits_double_min;
                 calls := calls st |})
    as (l & Hlog & Hdq & Hpass).
  exists l. split; [exact Hlog|]. split; [exact Hdq|].
  split; [exact Hpass|].
  rewrite Hpass. simpl solution_set. now rewrite Hcond.
Qed.

(** The collect-all pass leaves the set empty and collisions are tolerated,
    with a collision capability: [sample] ends with the best-only pass. *)
Lemma sample_falls_back c (st : Search Iso) :
  defined_at self points ->
  collision_ self = Some c ->
  solution_set st ++ collected self points = [] ->
  allow_collision_ self = true ->
  let acc := best_of self c points ([], numeric_limits_double_min) in
  exists l,
    pass_log self (points ++ points) l
    /\ distance_queries l = visited self points
    /\ sample self st
       = Ok (negb (vector_empty (fst acc)))
            {| solution_set := fst acc; distance := snd acc;
               calls := calls st ++ l |}.
Proof.
  intros Hdef Hc Hempty Hallow acc.
  rewrite (sample_unfold self st grid_built).
  destruct (pass_collect_defined Hdef
              {| solution_set := solution_set st;
                 distance := numeric_limits_double_min;
                 calls := calls st |})
    as (l1 & Hlog1 & Hdq1 & Hpass1).
  rewrite Hpass1. simpl solution_set. simpl calls.
  rewrite Hempty, Hallow. simpl andb. cbv iota.
  destruct (pass_best Hc Hdef
              {| solution_set := [];
                 distance := numeric_limits_double_min;
                 calls := calls st ++ l1 |})
    as (l2 & Hlog2 & Hdq2 & Hpass2).
  rewrite Hpass2. exists (l1 ++ l2).
  split; [apply (pass_log_app Hlog1 Hlog2)|].
  split; [now rewrite distance_queries_app, Hdq1, Hdq2|].
  simpl. now rewrite <- app_assoc.
Qed.

(** Every configuration the search visits holds at least one scalar; so a
    collect-all pass that appends nothing without a collision capability
    has visited no valid configuration. *)
Lemma nothing_collected_nothing_visited :
  collision_ self = None ->
  collected self points = [] -> visited self points = [].
Proof.
  intros Hc Hcol. unfold collected in Hcol.
  destruct (visited self points) as [|full_sol rest] eqn:Ev; [reflexivity|].
  exfalso.
  assert (Hin : In full_sol (visited self points)) by (rewrite Ev; now left).
  apply visited_in in Hin. destruct Hin as (point & _ & _ & H0 & Hlen).
  simpl in Hcol. unfold collision_free at 1 in Hcol. rewrite Hc in Hcol.
  simpl in Hcol. destruct full_sol; [simpl in Hlen; lia | discriminate].
Qed.

(** The same without a collision capability: the best-only pass runs, finds
    no valid configuration and queries no clearance. *)
Lemma sample_falls_back_null (st : Search Iso) :
  defined_at self points ->
  collision_ self = None ->
  solution_set st ++ collected self points = [] ->
  allow_collision_ self = true ->
  exists l,
    pass_log self (points ++ points) l
    /\ distance_queries l = []
    /\ sample self st
       = Ok false {| solution_set := [];
                     distance := numeric_limits_double_min;
                     calls := calls st ++ l |}.
Proof.
  intros Hdef Hc Hempty Hallow.
  rewrite (sample_unfold self st grid_built).
  destruct (pass_collect_defined Hdef
              {| solution_set := solution_set st;
                 distance := numeric_limits_double_min;
                 calls := calls st |})
    as (l1 & Hlog1 & Hdq1 & Hpass1).
  rewrite Hpass1. simpl solution_set. simpl calls.
  rewrite Hempty, Hallow. simpl andb. cbv iota.
  apply app_eq_nil in Hempty. destruct Hempty as [_ Hcol].
  destruct (pass_best_null Hc Hdef (nothing_collected_nothing_visited Hc Hcol)
              {| solution_set := [];
                 distance := numeric_limits_double_min;
                 calls := calls st ++ l1 |})
    as (l2 & Hlog2 & Hdq2 & Hpass2).
  rewrite Hpass2. exists (l1 ++ l2).
  split; [apply (pass_log_app Hlog1 Hlog2)|].
  split; [now rewrite distance_queries_app, Hdq1, Hdq2|].
  unfold with_calls. simpl. now rewrite <- app_assoc.
Qed.

End SampleCases.

(** ** The running best of the best-only pass *)

Section RunningBest.
Variable clearance : list Q -> Q.

Lemma best_step_fold (configurations : list (list Q)) : forall s d,
  let acc := fold_left (best_step clearance) configurations (s, d) in
  (d <= snd acc)%Q
  /\ (forall full_sol, In full_sol configurations ->
        (clearance full_sol <= snd acc)%Q)
  /\ ((fst acc = s /\ snd acc = d)
      \/ exists best rest,
           In best configurations /\ fst acc = best ++ rest
           /\ snd acc = clearance best).
Proof.
  induction configurations as [|x xs IH]; intros s d; cbv zeta.
  - simpl. split; [apply Qle_refl|]. split; [intros ? []|]. now left.
  - simpl fold_left.
    assert (Hstep : best_step clearance (s, d) x
                    = if Qltb d (clearance x) then (x ++ s, clearance x) else (s, d))
      by reflexivity.
    rewrite Hstep. clear Hstep.
    destruct (Qltb d (clearance x)) eqn:E.
    + destruct (IH (x ++ s) (clearance x)) as (Hle & Hall & Hshape).
      apply Qltb_lt in E.
      split; [apply Qle_trans with (clearance x); [now apply Qlt_le_weak | exact Hle]|].
      split.
      * intros full_sol [<-|Hin]; [exact Hle | now apply Hall].
      * right. destruct Hshape as [[Hs Hd] | (best & rest & Hin & Hs & Hd)].
        -- exists x, s. split; [now left|]. now split.
        -- exists best, rest. split; [now right|]. now split.
    + destruct (IH s d) as (Hle & Hall & Hshape).
      apply Qltb_ge in E.
      split; [exact Hle|]. split.
      * intros full_sol [<-|Hin];
          [apply Qle_trans with d; assumption | now apply Hall].
      * destruct Hshape as [[Hs Hd] | (best & rest & Hin & Hs & Hd)].
        -- now left.
        -- right. exists best, rest. split; [now right|]. now split.
Qed.

(** The set the pass leaves is made of configurations it accepted, the
    latest first, in front of what the set held. *)
Lemma best_step_fold_accepted (configurations : list (list Q)) : forall s d,
  exists accepted,
    fst (fold_left (best_step clearance) configurations (s, d))
    = concat accepted ++ s
    /\ Forall (fun full_sol => In full_sol configurations) accepted.
Proof.
  induction configurations as [|x xs IH]; intros s d.
  - exists []. split; [reflexivity | constructor].
  - simpl fold_left.
    assert (Hstep : best_step clearance (s, d) x
                    = if Qltb d (clearance x) then (x ++ s, clearance x) else (s, d))
      by reflexivity.
    rewrite Hstep. clear Hstep.
    destruct (Qltb d (clearance x)).
    + destruct (IH (x ++ s) (clearance x)) as (accepted & Hs & Hall).
      exists (accepted ++ [x]). split.
      * rewrite Hs, concat_app. simpl. now rewrite app_nil_r, <- app_assoc.
      * apply Forall_app. split.
        -- eapply Forall_impl; [|exact Hall]. intros a Ha. now right.
        -- constructor; [now left | constructor].
    + destruct (IH s d) as (accepted & Hs & Hall).
      exists accepted. split; [exact Hs|].
      eapply Forall_impl; [|exact Hall]. intros a Ha. now right.
Qed.

End RunningBest.

Lemma concat_length_divide (n : nat) (l : list (list Q)) :
  Forall (fun s => length s = n) l -> Nat.divide n (length (concat l)).
Proof.
  induction 1 as [|s l Hs _ IH]; simpl.
  - apply Nat.divide_0_r.
  - rewrite length_app, Hs. apply Nat.divide_add_r; [apply Nat.divide_refl | exact IH].
Qed.

Lemma vector_empty_false (v : list Q) : negb (vector_empty v) = true <-> v <> [].
Proof. destruct v; simpl; split; intro; congruence. Qed.

(** ** [sample] returns *)

Section SampleReturns.
Context {Iso : Type} `{Isometry Iso}.
Variable self : DescartesRailedSampler Iso.
Variable dof_range : list (list Q).
Hypothesis grid_built :
  build_dof_range (railed_limits_ self) (railed_sample_resolution_ self)
    (fk_numJoints (railed_kinematics_ self)) = inr dof_range.

Local Abbreviation points :=
  (search_points self (tool_pose_sampler_ self (tool_pose_ self)) dof_range).

(** Once the grids are built and no point divides by zero, [sample] returns:
    its result tells whether the set is empty, the set is the caller's set
    with configurations the search visited added to it, the forward
    kinematics has been called at every point of each pass that ran, and
    the inverse kinematics only on poses within reach. *)
Lemma sample_returns (st : Search Iso) :
  defined_at self points ->
  exists b st' added l,
    sample self st = Ok b st'
    /\ b = negb (vector_empty (solution_set st'))
    /\ solution_set st' = solution_set st ++ concat added
    /\ Forall (fun full_sol => In full_sol (visited self points)) added
    /\ calls st' = calls st ++ l
    /\ length points <= fwd_kin_calls l
    /\ Forall (within_reach self) (inv_kin_poses l).
Proof.
  intro Hdef.
  destruct (vector_empty (solution_set st ++ collected self points)
            && allow_collision_ self) eqn:Hcond.
  - apply andb_prop in Hcond. destruct Hcond as [Hempty Hallow].
    assert (Hnil : solution_set st ++ collected self points = [])
      by (destruct (solution_set st ++ collected self points);
          [reflexivity | discriminate]).
    assert (Hst : solution_set st = [])
      by (apply app_eq_nil in Hnil; tauto).
    destruct (collision_ self) as [c|] eqn:Hc.
    + destruct (sample_falls_back grid_built st Hdef Hc Hnil Hallow)
        as (l & Hlog & _ & Hs).
      assert (Hreach := proj2 Hlog).
      apply pass_log_calls in Hlog. rewrite length_app in Hlog.
      destruct (best_step_fold_accepted (clearance_of c) (visited self points)
                  [] numeric_limits_double_min) as (accepted & Hacc & Hall).
      do 2 eexists. exists accepted, l. split; [exact Hs|].
      simpl. split; [reflexivity|].
      split; [rewrite Hst; unfold best_of; simpl; now rewrite Hacc, app_nil_r|].
      split; [exact Hall|]. split; [reflexivity|]. split; [lia | exact Hreach].
    + destruct (sample_falls_back_null grid_built st Hdef Hc Hnil Hallow)
        as (l & Hlog & _ & Hs).
      assert (Hreach := proj2 Hlog).
      apply pass_log_calls in Hlog. rewrite length_app in Hlog.
      do 2 eexists. exists [], l. split; [exact Hs|].
      simpl. split; [reflexivity|]. split; [now rewrite Hst|].
      split; [constructor|]. split; [reflexivity|]. split; [lia | exact Hreach].
  - destruct (sample_collects grid_built st Hdef Hcond)
      as (l & Hlog & _ & _ & Hs).
    assert (Hreach := proj2 Hlog).
    apply pass_log_calls in Hlog.
    do 2 eexists. exists (filter (collision_free self) (visited self points)), l.
    split; [exact Hs|].
    simpl. split; [reflexivity|]. split; [reflexivity|].
    split; [|split; [reflexivity | split; [lia | exact Hreach]]].
    apply Forall_forall. intros s Hin. apply filter_In in Hin. tauto.
Qed.

End SampleReturns.

(** ** The collect-all pass (C6, C7, C9) *)

(** C9. During the collect-all pass of [sample] the rail forward kinematics
    is invoked exactly once for each element of the Cartesian product of the
    grids and each tool-pose candidate, in the order of the enumeration, on
    that element as a vector of [FloatType]: (product of the grid sizes)
    times (number of candidates) calls. *)
Theorem primary_pass_fwd_kin_calls {Iso : Type} `{Isometry Iso}
    (self : DescartesRailedSampler Iso) (dof_range : list (list Q))
    (tool_poses : list Iso) (st : Search Iso) :
  build_dof_range (railed_limits_ self) (railed_sample_resolution_ self)
    (fk_numJoints (railed_kinematics_ self)) = inr dof_range ->
  ik_numJoints (robot_kinematics_ self) <> 0 ->
  exists st' l,
    sample_tool_poses self tool_poses dof_range st = Ok tt st'
    /\ calls st' = calls st ++ l
    /\ fwd_kin_joints l
       = flat_map (fun _ => map (map (to_FloatType self))
                              (grid_points dof_range)) tool_poses
    /\ fwd_kin_calls l = grid_size dof_range * length tool_poses.
Proof.
  intros Hb Hdof.
  assert (Hlen := build_dof_range_length _ _ _ Hb).
  rewrite sample_tool_poses_pass by exact Hlen.
  destruct (@pass_collect_defined Iso _ self
              (search_points self tool_poses dof_range)
              (defined_at_robot_dof self _ Hdof) st)
    as (l & Hlog & _ & Hpass).
  do 2 eexists. split; [exact Hpass|]. split; [reflexivity|].
  split.
  - destruct Hlog as [-> _]. unfold search_points.
    rewrite flat_map_concat_map, concat_map, map_map, <- flat_map_concat_map.
    apply flat_map_ext. intros tool_poses_i. rewrite map_map. simpl.
    rewrite map_id. apply grid_points_map.
  - now rewrite (pass_log_calls Hlog), search_points_length.
Qed.

(** Grids of 3 and 4 points and 2 tool-pose candidates: 24 calls. *)
Lemma primary_pass_fwd_kin_calls_witness :
  exists st' l,
    sample_tool_poses two_joint_rail [(2 + 0)%Q; (2 + 1)%Q]
      [LinSpaced 3 0 1; LinSpaced 4 0 3] (entry []) = Ok tt st'
    /\ calls st' = calls (@entry Q []) ++ l
    /\ fwd_kin_joints l
       = flat_map (fun _ => grid_points [LinSpaced 3 0 1; LinSpaced 4 0 3])
           [(2 + 0)%Q; (2 + 1)%Q]
    /\ fwd_kin_calls l = 24.
Proof.
  apply (@primary_pass_fwd_kin_calls Q Line two_joint_rail
           [LinSpaced 3 0 1; LinSpaced 4 0 3] [(2 + 0)%Q; (2 + 1)%Q] (entry [])).
  - reflexivity.
  - discriminate.
Defined.

(** C7. At a rail sample point whose robot-frame target pose has a
    translation norm strictly greater than the robot reach, [ikAt] returns
    after the forward kinematics call: the inverse kinematics is not invoked,
    and the search state is otherwise unchanged. *)
Theorem reach_check_precedes_inverse_kinematics {Iso : Type} `{Isometry Iso}
    (self : DescartesRailedSampler Iso) (p : Iso) (railed_pose : list Q)
    (get_best_solution : bool) (st : Search Iso) (rail_tf : Iso) :
  calcFwdKin (railed_kinematics_ self) railed_pose = Some rail_tf ->
  (robot_reach_ self < translation_norm (compose (inverse rail_tf) p))%Q ->
  ikAt self p railed_pose get_best_solution st
  = Ok false (with_calls st [CallFwdKin railed_pose])
  /\ inv_kin_poses (calls (state_of (ikAt self p railed_pose get_best_solution st)))
     = inv_kin_poses (calls st).
Proof.
  intros Hfk Hreach. apply Qltb_lt in Hreach.
  assert (E : ikAt self p railed_pose get_best_solution st
              = Ok false (with_calls st [CallFwdKin railed_pose])).
  { unfold ikAt. unfold bind at 1. unfold record_call at 1.
    rewrite Hfk. cbv zeta. rewrite Hreach. reflexivity. }
  split; [exact E|]. rewrite E. simpl.
  rewrite inv_kin_poses_app. simpl. apply app_nil_r.
Qed.

(** At rail = 0 the tool pose 2 is out of the reach 3/2. *)
Lemma reach_check_precedes_inverse_kinematics_witness :
  ikAt short_reach 2%Q [0%Q] false (entry [])
  = Ok false (with_calls (entry []) [CallFwdKin [0%Q]])
  /\ inv_kin_poses (calls (state_of (ikAt short_reach 2%Q [0%Q] false (entry []))))
     = inv_kin_poses (calls (@entry Q [])).
Proof.
  apply (@reach_check_precedes_inverse_kinematics Q Line short_reach 2%Q
           [0%Q] false (entry []) 0%Q).
  - reflexivity.
  - reflexivity.
Defined.

(** Throughout a collect-all pass, in whatever way it ends, the inverse
    kinematics is only invoked on poses within reach. *)
Lemma collect_pass_inv_kin_within_reach {Iso : Type} `{Isometry Iso}
    (self : DescartesRailedSampler Iso) points (st : Search Iso) :
  exists l,
    calls (state_of (pass self false points st)) = calls st ++ l
    /\ Forall (within_reach self) (inv_kin_poses l).
Proof.
  destruct (pass_collect self points st)
    as (l & n & [_ Hreach] & _ & [(_ & _ & Hpass) | [s Hpass]]);
    exists l; rewrite Hpass; now split.
Qed.

(** C6. Every full joint solution the collect-all pass retains satisfies the
    validity predicate and is collision-free according to the collision
    capability; without a collision capability every solution counts as
    collision-free. *)
Theorem collect_all_retains_valid_collision_free {Iso : Type} `{Isometry Iso}
    (self : DescartesRailedSampler Iso) (dof_range : list (list Q))
    (tool_poses : list Iso) (st st' : Search Iso) :
  build_dof_range (railed_limits_ self) (railed_sample_resolution_ self)
    (fk_numJoints (railed_kinematics_ self)) = inr dof_range ->
  sample_tool_poses self tool_poses dof_range st = Ok tt st' ->
  exists retained,
    solution_set st' = solution_set st ++ concat retained
    /\ Forall (fun full_sol =>
                 is_valid_ self full_sol = true
                 /\ match collision_ self with
                    | None => True
                    | Some c => validate c full_sol (dof_ self) = true
                    end) retained.
Proof.
  intros Hb Hrun.
  assert (Hlen := build_dof_range_length _ _ _ Hb).
  rewrite sample_tool_poses_pass in Hrun by exact Hlen.
  destruct (pass_collect self (search_points self tool_poses dof_range) st)
    as (l & n & _ & _ & [(_ & _ & Hpass) | [s Hpass]]); [|congruence].
  rewrite Hpass in Hrun. inversion Hrun; subst st'; clear Hrun.
  exists (filter (collision_free self)
            (visited self (search_points self tool_poses dof_range))).
  split; [reflexivity|].
  apply Forall_forall. intros full_sol Hin.
  apply filter_In in Hin. destruct Hin as [Hin Hfree].
  apply visited_in in Hin. destruct Hin as (_ & _ & Hvalid & _).
  split; [exact Hvalid|].
  unfold collision_free in Hfree. now destruct (collision_ self).
Qed.

(** A rail over [[0, 1]] with the grid 0, 1/2, 1 and no collision
    capability: the solutions at rail = 1/2 and rail = 1 are retained. *)
Lemma collect_all_retains_valid_collision_free_witness :
  exists retained,
    solution_set
      (state_of (sample_tool_poses collision_unaware [(2 + 0)%Q]
                   [LinSpaced 3 0 1] (entry [])))
    = solution_set (@entry Q []) ++ concat retained
    /\ Forall (fun full_sol =>
                 is_valid_ collision_unaware full_sol = true
                 /\ match collision_ collision_unaware with
                    | None => True
                    | Some c => validate c full_sol (dof_ collision_unaware) = true
                    end) retained.
Proof.
  apply (@collect_all_retains_valid_collision_free Q Line collision_unaware
           [LinSpaced 3 0 1] [(2 + 0)%Q] (entry [])
           (state_of (sample_tool_poses collision_unaware [(2 + 0)%Q]
                        [LinSpaced 3 0 1] (entry [])))).
  - reflexivity.
  - vm_compute. reflexivity.
Defined.

(** ** The result of [sample] and the solution set (C8, C10) *)

(** C10. [sample] never removes entries from the caller's solution set.
    When the caller's set is not empty, [sample] returns true with the set
    extended at its end, and it ends with the collect-all pass: the
    best-only pass is not run and no clearance is queried. *)
Theorem nonempty_set_returns_true {Iso : Type} `{Isometry Iso}
    (self : DescartesRailedSampler Iso) (dof_range : list (list Q))
    (st : Search Iso) :
  build_dof_range (railed_limits_ self) (railed_sample_resolution_ self)
    (fk_numJoints (railed_kinematics_ self)) = inr dof_range ->
  ik_numJoints (robot_kinematics_ self) <> 0 ->
  solution_set st <> [] ->
  exists st' added,
    sample self st = Ok true st'
    /\ solution_set st' = solution_set st ++ added
    /\ sample_tool_poses self (tool_pose_sampler_ self (tool_pose_ self)) dof_range
         {| solution_set := solution_set st;
            distance := numeric_limits_double_min;
            calls := calls st |}
       = Ok tt st'
    /\ distance_queries (calls st') = distance_queries (calls st).
Proof.
  intros Hb Hdof Hne.
  assert (Hlen := build_dof_range_length _ _ _ Hb).
  set (points := search_points self (tool_pose_sampler_ self (tool_pose_ self))
                   dof_range).
  assert (Hcond : vector_empty (solution_set st ++ collected self points)
                  && allow_collision_ self = false).
  { destruct (solution_set st); [congruence | reflexivity]. }
  destruct (@sample_collects Iso _ self dof_range Hb st
              (defined_at_robot_dof self _ Hdof) Hcond)
    as (l & _ & Hdq & Hpass & Hs).
  fold points in Hpass, Hs.
  do 2 eexists. split; [|split; [|split]].
  - rewrite Hs. f_equal. destruct (solution_set st); [congruence | reflexivity].
  - reflexivity.
  - rewrite sample_tool_poses_pass by exact Hlen. exact Hpass.
  - simpl. now rewrite distance_queries_app, Hdq, app_nil_r.
Qed.

(** A caller's set that already holds one solution. *)
Lemma nonempty_set_returns_true_witness :
  exists st' added,
    sample (all_colliding (-1 # 10) (-1 # 20) true) (entry [7; 7]%Q) = Ok true st'
    /\ solution_set st' = solution_set (@entry Q [7; 7]%Q) ++ added
    /\ sample_tool_poses (all_colliding (-1 # 10) (-1 # 20) true)
         (tool_pose_sampler_ (all_colliding (-1 # 10) (-1 # 20) true)
            (tool_pose_ (all_colliding (-1 # 10) (-1 # 20) true)))
         [LinSpaced 3 0 1]
         {| solution_set := solution_set (@entry Q [7; 7]%Q);
            distance := numeric_limits_double_min;
            calls := calls (@entry Q [7; 7]%Q) |}
       = Ok tt st'
    /\ distance_queries (calls st') = distance_queries (calls (@entry Q [7; 7]%Q)).
Proof.
  apply (@nonempty_set_returns_true Q Line
           (all_colliding (-1 # 10) (-1 # 20) true) [LinSpaced 3 0 1]
           (entry [7; 7]%Q)).
  - reflexivity.
  - discriminate.
  - discriminate.
Defined.

Section SetLength.
Context {Iso : Type} `{Isometry Iso}.
Variable self : DescartesRailedSampler Iso.

(** One turn of the loop of [ikAt] leaves the set as it is, or inserts the
    full joint solution of that turn at one of its ends. *)
Lemma ikAt_solution_inserts railed_pose robot_solution_set robot_dof flag i
    (st : Search Iso) :
  let full_sol := full_solution self railed_pose robot_solution_set robot_dof i in
  let s' := solution_set
              (state_of (ikAt_solution self railed_pose robot_solution_set
                           robot_dof flag i st)) in
  s' = solution_set st
  \/ s' = solution_set st ++ full_sol
  \/ s' = full_sol ++ solution_set st.
Proof.
  cbv zeta. destruct flag.
  - destruct (collision_ self) as [c|] eqn:Hc.
    + destruct (@ikAt_solution_best Iso self c railed_pose robot_solution_set
                  robot_dof i st Hc) as (l & Hl & _).
      rewrite Hl. simpl filter.
      destruct (is_valid_ self _); simpl; [|now left].
      unfold best_step. simpl.
      destruct (Qltb _ _); simpl; [now right; right | now left].
    + unfold ikAt_solution, bind, record_call, collision_distance.
      rewrite Hc.
      destruct (is_valid_ self _); simpl; now left.
  - destruct (ikAt_solution_collect self railed_pose robot_solution_set
                robot_dof i st) as (l & Hl & _).
    rewrite Hl. simpl filter.
    destruct (is_valid_ self _); simpl; [|left; now rewrite app_nil_r].
    destruct (collision_free self _); simpl; rewrite app_nil_r;
      [now right; left | now left].
Qed.

Lemma full_solution_length railed_pose robot_solution_set robot_dof i :
  i < length robot_solution_set / robot_dof ->
  length (full_solution self railed_pose robot_solution_set robot_dof i)
  = length railed_pose + robot_dof.
Proof.
  intro Hi. unfold full_solution.
  rewrite length_app, length_map, length_firstn, length_skipn. f_equal.
  assert (Hle : robot_dof * (length robot_solution_set / robot_dof)
                <= length robot_solution_set) by apply Nat.Div0.mul_div_le.
  assert (robot_dof * S i <= robot_dof * (length robot_solution_set / robot_dof))
    by (apply Nat.mul_le_mono_l; lia).
  lia.
Qed.

End SetLength.

(** C8. Starting from an empty solution set, [sample] returns true if and
    only if the set is not empty on return, and the scalar length of the set
    is a multiple of [dof_ = railDOF + robotDOF]; every turn of the loop of
    [ikAt], the one place where the set is written, keeps the length a
    multiple of [dof_], since what it inserts holds exactly [dof_]
    scalars. *)
Theorem sample_result_and_set_length {Iso : Type} `{Isometry Iso}
    (self : DescartesRailedSampler Iso) (dof_range : list (list Q)) :
  constructed self ->
  build_dof_range (railed_limits_ self) (railed_sample_resolution_ self)
    (fk_numJoints (railed_kinematics_ self)) = inr dof_range ->
  ik_numJoints (robot_kinematics_ self) <> 0 ->
  (exists b st',
     sample self (entry []) = Ok b st'
     /\ (b = true <-> solution_set st' <> [])
     /\ Nat.divide (dof_ self) (length (solution_set st')))
  /\ (forall railed_pose robot_solution_set flag i (st : Search Iso),
        length railed_pose = fk_numJoints (railed_kinematics_ self) ->
        i < length robot_solution_set / ik_numJoints (robot_kinematics_ self) ->
        length (full_solution self railed_pose robot_solution_set
                  (ik_numJoints (robot_kinematics_ self)) i) = dof_ self
        /\ (Nat.divide (dof_ self) (length (solution_set st)) ->
            Nat.divide (dof_ self)
              (length (solution_set
                         (state_of (ikAt_solution self railed_pose
                                      robot_solution_set
                                      (ik_numJoints (robot_kinematics_ self))
                                      flag i st)))))).
Proof.
  intros Hcons Hb Hdof.
  assert (Hlen := build_dof_range_length _ _ _ Hb).
  split.
  - destruct (@sample_returns Iso _ self dof_range Hb (entry [])
                (defined_at_robot_dof self _ Hdof))
      as (b & st' & added & l & Hs & Hres & Hset & Hall & _).
    exists b, st'. split; [exact Hs|]. split.
    + rewrite Hres. apply vector_empty_false.
    + rewrite Hset. simpl. apply concat_length_divide.
      eapply Forall_impl; [|exact Hall].
      intros full_sol Hin. simpl in Hin.
      now apply (visited_length _ _ _ Hcons Hlen) in Hin.
  - intros railed_pose robot_solution_set flag i st Hrp Hi.
    assert (Hfull : length (full_solution self railed_pose robot_solution_set
                              (ik_numJoints (robot_kinematics_ self)) i)
                    = dof_ self).
    { rewrite full_solution_length by exact Hi.
      destruct Hcons as (-> & _). now rewrite Hrp. }
    split; [exact Hfull|]. intro Hdiv.
    destruct (ikAt_solution_inserts self railed_pose robot_solution_set
                (ik_numJoints (robot_kinematics_ self)) flag i st)
      as [-> | [-> | ->]]; [exact Hdiv | |];
      rewrite length_app, Hfull.
    + apply Nat.divide_add_r; [exact Hdiv | apply Nat.divide_refl].
    + apply Nat.divide_add_r; [apply Nat.divide_refl | exact Hdiv].
Qed.

Lemma sample_result_and_set_length_witness :
  (exists b st',
     sample (all_colliding 1 2 true) (entry []) = Ok b st'
     /\ (b = true <-> solution_set st' <> [])
     /\ Nat.divide 2 (length (solution_set st')))
  /\ (forall railed_pose robot_solution_set flag i (st : Search Q),
        length railed_pose = 1 ->
        i < length robot_solution_set / 1 ->
        length (full_solution (all_colliding 1 2 true) railed_pose
                  robot_solution_set 1 i) = 2
        /\ (Nat.divide 2 (length (solution_set st)) ->
            Nat.divide 2
              (length (solution_set
                         (state_of (ikAt_solution (all_colliding 1 2 true)
                                      railed_pose robot_solution_set 1
                                      flag i st)))))).
Proof.
  apply (@sample_result_and_set_length Q Line (all_colliding 1 2 true)
           [LinSpaced 3 0 1]).
  - repeat split.
  - reflexivity.
  - discriminate.
Defined.

(** ** Configurations the specification calls errors: counterexamples (C4, C5) *)

Lemma grid_of_dof_undefined limits resolution dof u :
  grid_of_dof limits resolution dof = inl u -> u <> NullPointer.
Proof.
  unfold grid_of_dof, grid_count.
  destruct (nth_error limits dof) as [[lo hi]|];
    [|intro E; inversion E; discriminate].
  destruct (nth_error resolution dof) as [r|];
    [|intro E; inversion E; discriminate].
  destruct (double_quotient lo hi r); [|intro E; inversion E; discriminate].
  cbv zeta.
  destruct (_ || _)%bool; [intro E; inversion E; discriminate|].
  destruct (_ <? 0)%Z; [intro E; inversion E; discriminate | discriminate].
Qed.

Lemma build_dof_range_undefined limits resolution n : forall dof u,
  build_dof_range_from limits resolution dof n = inl u -> u <> NullPointer.
Proof.
  induction n as [|n IH]; intros dof u; simpl; [discriminate|].
  destruct (grid_of_dof limits resolution dof) as [u'|g] eqn:Eg.
  - intro E. inversion E; subst u'. eapply grid_of_dof_undefined; eassumption.
  - destruct (build_dof_range_from limits resolution (S dof) n) as [u'|gs] eqn:Egs;
      [|discriminate].
    intro E. inversion E; subst u'. eapply IH; eassumption.
Qed.

(** C5, as the specification states it, fails: no configuration error
    exists. A sampler without a collision capability that tolerates
    collisions is constructed, and when the collect-all pass finds nothing
    [sample] runs the best-only pass (the forward kinematics is called at
    the three grid points twice) and returns false. *)
Lemma missing_collision_capability_counterexample :
  construct (fun x => x) 2%Q (fun pose => map (Qplus pose) [0%Q])
    (rail_axis 0 1) stuck_arm
    None state [2 # 5]%Q 0%Q 10%Q true (fun _ => true)
  = Some (no_collision_capability stuck_arm)
  /\ collision_ (no_collision_capability stuck_arm) = None
  /\ allow_collision_ (no_collision_capability stuck_arm) = true
  /\ ~ rejected_at_entry (sample (no_collision_capability stuck_arm) (entry []))
  /\ exists st,
       sample (no_collision_capability stuck_arm) (entry []) = Ok false st
       /\ fwd_kin_calls (calls st) = 3 + 3.
Proof.
  split; [reflexivity|]. split; [reflexivity|]. split; [reflexivity|].
  split.
  - vm_compute. exact (fun f => f).
  - eexists. split; vm_compute; reflexivity.
Qed.

(** Without a collision capability [sample] never queries a clearance
    distance and never dereferences the absent capability: the collect-all
    pass accepts every valid configuration, so when it leaves the set empty
    the best-only pass, which visits the same points, finds none either. *)
Lemma no_capability_no_query {Iso : Type} `{Isometry Iso}
    (self : DescartesRailedSampler Iso) (st : Search Iso) :
  collision_ self = None ->
  distance_queries (calls (state_of (sample self st)))
  = distance_queries (calls st)
  /\ forall st', sample self st <> Undefined NullPointer st'.
Proof.
  intro Hc.
  destruct (build_dof_range (railed_limits_ self) (railed_sample_resolution_ self)
              (fk_numJoints (railed_kinematics_ self))) as [u|dof_range] eqn:Hb.
  { rewrite (sample_undefined_grid self st Hb). split; [reflexivity|].
    intros st' E. inversion E; subst u.
    now apply build_dof_range_undefined in Hb. }
  set (points := search_points self (tool_pose_sampler_ self (tool_pose_ self))
                   dof_range).
  destruct (pass_collect self points
              {| solution_set := solution_set st;
                 distance := numeric_limits_double_min;
                 calls := calls st |})
    as (l & n & _ & Hdq & [(Hdef & _ & _) | [s Hpass]]).
  - destruct (vector_empty (solution_set st ++ collected self points)
              && allow_collision_ self) eqn:Hcond.
    + apply andb_prop in Hcond. destruct Hcond as [Hempty Hallow].
      assert (Hnil : solution_set st ++ collected self points = [])
        by (destruct (solution_set st ++ collected self points);
            [reflexivity | discriminate]).
      destruct (@sample_falls_back_null Iso _ self dof_range Hb st Hdef Hc Hnil
                  Hallow) as (l' & _ & Hdq' & Hs).
      rewrite Hs. simpl. split; [|discriminate].
      now rewrite distance_queries_app, Hdq', app_nil_r.
    + destruct (@sample_collects Iso _ self dof_range Hb st Hdef Hcond)
        as (l' & _ & Hdq' & _ & Hs).
      rewrite Hs. simpl. split; [|discriminate].
      now rewrite distance_queries_app, Hdq', app_nil_r.
  - rewrite (sample_unfold self st Hb). fold points. rewrite Hpass. simpl.
    split; [|discriminate].
    now rewrite distance_queries_app, Hdq, app_nil_r.
Qed.

(** Called on its own, outside [sample], the best-only pass does dereference
    the absent collision capability at the first valid configuration. *)
Example getBestSolution_null_pointer :
  exists st,
    getBestSolution (no_collision_capability arm) [(2 + 0)%Q] [LinSpaced 3 0 1]
      (entry [])
    = Undefined NullPointer st.
Proof. eexists. vm_compute. reflexivity. Qed.


(** ** The best-only pass (C1, C2) *)

(** C2. The specification says that in best-only mode the solution set holds
    at most one full joint solution. The code departs from it: a new best is
    inserted in front of the set and the solution it supersedes is never
    taken out. With every branch in collision and clearances 1 at
    rail = 1/2 and 2 at rail = 1, [getBestSolution] ends with two full joint
    solutions in the set, the rail = 1 solution first. *)
Example best_only_keeps_superseded_solution :
  exists st' at_half at_one,
    getBestSolution (all_colliding 1 2 true) [(2 + 0)%Q] [LinSpaced 3 0 1]
      (entry []) = Ok true st'
    /\ solution_set st' = at_one ++ at_half
    /\ clearance_of (colliding 1 2) at_half = 1%Q
    /\ clearance_of (colliding 1 2) at_one = 2%Q
    /\ solutions_held (dof_ (all_colliding 1 2 true)) (solution_set st') = 2
    /\ ~ holds_at_most_one (dof_ (all_colliding 1 2 true)) (solution_set st').
Proof.
  eexists.
  exists (nth 0 (visited (all_colliding 1 2 true)
                   (search_points (all_colliding 1 2 true) [(2 + 0)%Q]
                      [LinSpaced 3 0 1])) []).
  exists (nth 1 (visited (all_colliding 1 2 true)
                   (search_points (all_colliding 1 2 true) [(2 + 0)%Q]
                      [LinSpaced 3 0 1])) []).
  split; [vm_compute; reflexivity|].
  split; [vm_compute; reflexivity|].
  split; [vm_compute; reflexivity|].
  split; [vm_compute; reflexivity|].
  split; [reflexivity|]. vm_compute. intro Hle.
  repeat match goal with
         | Hle : le _ _ |- _ => inversion Hle; clear Hle
         end.
Qed.

(** What a turn of the loop of [ikAt] does in best-only mode: it changes the
    solution set only by inserting the full joint solution of that turn in
    front of the entries the set already holds, none of which is removed;
    this happens only when the solution is valid and its clearance distance
    is strictly greater than the tracker, which then takes that value.
    Otherwise the set and the tracker are left as they are. *)
Lemma best_only_update {Iso : Type} (self : DescartesRailedSampler Iso)
    (c : CollisionInterface) (railed_pose robot_solution_set : list Q)
    (robot_dof i : nat) (st : Search Iso) :
  collision_ self = Some c ->
  let full_sol := full_solution self railed_pose robot_solution_set robot_dof i in
  exists st',
    ikAt_solution self railed_pose robot_solution_set robot_dof true i st
    = Ok tt st'
    /\ ((is_valid_ self full_sol = true
         /\ (distance st < clearance_of c full_sol)%Q
         /\ solution_set st' = full_sol ++ solution_set st
         /\ distance st' = clearance_of c full_sol)
        \/ (solution_set st' = solution_set st
            /\ distance st' = distance st
            /\ ~ (is_valid_ self full_sol = true
                  /\ (distance st < clearance_of c full_sol)%Q))).
Proof.
  intros Hc full_sol.
  destruct (@ikAt_solution_best Iso self c railed_pose robot_solution_set
              robot_dof i st Hc) as (l & Hl & _).
  eexists. split; [exact Hl|].
  fold full_sol. simpl filter.
  destruct (is_valid_ self full_sol) eqn:Ev.
  - simpl fold_left. unfold best_step. simpl fst. simpl snd.
    destruct (Qltb (distance st) (clearance_of c full_sol)) eqn:E.
    + left. apply Qltb_lt in E. now repeat split.
    + right. apply Qltb_ge in E. simpl. repeat split.
      intros [_ Hlt]. now apply (Qlt_not_le _ _ Hlt).
  - right. simpl. repeat split. intros [Hv _]. discriminate.
Qed.

(** With clearances 1 at rail = 1/2 and 2 at rail = 1 the fallback leaves
    both solutions in the set, not the rail = 1 solution alone. *)
Lemma fallback_keeps_superseded_solution :
  ~ fallback_returns_single_best (all_colliding 1 2 true) (colliding 1 2).
Proof.
  intro Hclaim.
  set (self := all_colliding 1 2 true) in *.
  set (points := search_points self (tool_pose_sampler_ self (tool_pose_ self))
                   [LinSpaced 3 0 1]).
  assert (Hs : sample self (entry [])
               = Ok true (state_of (sample self (entry []))))
    by (vm_compute; reflexivity).
  specialize (Hclaim [LinSpaced 3 0 1] true (state_of (sample self (entry [])))
                eq_refl eq_refl eq_refl Hs
                (nth 1 (visited self points) [])).
  assert (Hin : In (nth 1 (visited self points) []) (visited self points))
    by (vm_compute; right; left; reflexivity).
  specialize (Hclaim Hin).
  assert (Hmax : forall full_sol, In full_sol (visited self points) ->
            (clearance_of (colliding 1 2) full_sol
             <= clearance_of (colliding 1 2) (nth 1 (visited self points) []))%Q).
  { intros full_sol Hf. vm_compute in Hf.
    destruct Hf as [<-|[<-|[]]]; vm_compute; discriminate. }
  specialize (Hclaim Hmax). vm_compute in Hclaim. discriminate Hclaim.
Qed.

(** What the fallback does find. When the collect-all pass leaves the
    solution set empty and the sampler tolerates collisions, the fallback
    pass queries the clearance of every reach-satisfying, valid
    configuration it visits, and the tracker ends at least as large as each
    of them. Whenever one of them has a clearance above the tracker's
    initial value, [sample] returns true and the set starts with a visited
    configuration of maximal clearance; the configurations accepted before
    it stay behind it. *)
Lemma fallback_front_is_best {Iso : Type} `{Isometry Iso}
    (self : DescartesRailedSampler Iso) (c : CollisionInterface)
    (dof_range : list (list Q)) :
  build_dof_range (railed_limits_ self) (railed_sample_resolution_ self)
    (fk_numJoints (railed_kinematics_ self)) = inr dof_range ->
  ik_numJoints (robot_kinematics_ self) <> 0 ->
  allow_collision_ self = true ->
  collision_ self = Some c ->
  let points :=
    search_points self (tool_pose_sampler_ self (tool_pose_ self)) dof_range in
  collected self points = [] ->
  exists b st',
    sample self (entry []) = Ok b st'
    /\ distance_queries (calls st') = visited self points
    /\ (forall full_sol, In full_sol (visited self points) ->
          (clearance_of c full_sol <= distance st')%Q)
    /\ ((exists full_sol,
           In full_sol (visited self points)
           /\ (numeric_limits_double_min < clearance_of c full_sol)%Q) ->
        b = true
        /\ exists best rest,
             solution_set st' = best ++ rest
             /\ In best (visited self points)
             /\ distance st' = clearance_of c best
             /\ forall full_sol, In full_sol (visited self points) ->
                  (clearance_of c full_sol <= clearance_of c best)%Q).
Proof.
  intros Hb Hdof Hallow Hc points Hcol.
  destruct (@sample_falls_back Iso _ self dof_range Hb c (entry [])
              (defined_at_robot_dof self _ Hdof) Hc Hcol Hallow)
    as (l & _ & Hdq & Hs).
  fold points in Hdq, Hs.
  destruct (best_step_fold (clearance_of c) (visited self points)
              [] numeric_limits_double_min) as (_ & Hall & Hshape).
  fold (best_of self c points ([], numeric_limits_double_min)) in Hall, Hshape.
  do 2 eexists. split; [exact Hs|].
  simpl. split; [exact Hdq|]. split; [exact Hall|].
  intros (full_sol & Hin & Hgt).
  destruct Hshape as [[_ Hd] | (best & rest & Hbest & Hset & Hd)].
  - exfalso. specialize (Hall full_sol Hin). rewrite Hd in Hall.
    now apply (Qlt_not_le _ _ Hgt).
  - split.
    + rewrite Hset. apply visited_in in Hbest.
      destruct Hbest as (point & _ & _ & H0 & Hlen).
      destruct best; [simpl in Hlen; lia | reflexivity].
    + exists best, rest. split; [exact Hset|]. split; [exact Hbest|].
      split; [exact Hd|]. intros s Hs'. rewrite <- Hd. now apply Hall.
Qed.

(** C1. The specification says that the fallback returns the configuration
    of greatest clearance among those it visits, also when every clearance
    is negative. The code departs from it: the tracker starts at
    [std::numeric_limits<double>::min ()], the smallest positive [double],
    not at the lowest one, so a configuration whose clearance is not above
    it is never accepted. With the collect-all pass empty, collisions
    tolerated and clearances -1/10 at rail = 1/2 and -1/20 at rail = 1, the
    fallback queries both and [sample] returns false with an empty set. *)
Example fallback_misses_negative_clearances :
  let self := all_colliding (-1 # 10) (-1 # 20) true in
  let points :=
    search_points self (tool_pose_sampler_ self (tool_pose_ self))
      [LinSpaced 3 0 1] in
  build_dof_range (railed_limits_ self) (railed_sample_resolution_ self)
    (fk_numJoints (railed_kinematics_ self)) = inr [LinSpaced 3 0 1]
  /\ collected self points = []
  /\ allow_collision_ self = true
  /\ map (clearance_of (colliding (-1 # 10) (-1 # 20))) (visited self points)
     = [(-1 # 10)%Q; (-1 # 20)%Q]
  /\ (exists st',
        sample self (entry []) = Ok false st'
        /\ solution_set st' = []
        /\ distance_queries (calls st') = visited self points)
  /\ ~ fallback_returns_single_best self (colliding (-1 # 10) (-1 # 20)).
Proof.
  intros self points.
  split; [reflexivity|]. split; [vm_compute; reflexivity|].
  split; [reflexivity|]. split; [vm_compute; reflexivity|].
  split.
  - eexists. split; [vm_compute; reflexivity|]. split; vm_compute; reflexivity.
  - intro Hclaim.
    assert (Hs : sample self (entry [])
                 = Ok false (state_of (sample self (entry []))))
      by (vm_compute; reflexivity).
    specialize (Hclaim [LinSpaced 3 0 1] false (state_of (sample self (entry [])))
                  eq_refl eq_refl eq_refl Hs
                  (nth 1 (visited self points) [])).
    assert (Hin : In (nth 1 (visited self points) []) (visited self points))
      by (vm_compute; right; left; reflexivity).
    specialize (Hclaim Hin).
    assert (Hmax : forall full_sol, In full_sol (visited self points) ->
              (clearance_of (colliding (-1 # 10) (-1 # 20)) full_sol
               <= clearance_of (colliding (-1 # 10) (-1 # 20))
                    (nth 1 (visited self points) []))%Q).
    { intros full_sol Hf. vm_compute in Hf.
      destruct Hf as [<-|[<-|[]]]; vm_compute; discriminate. }
    specialize (Hclaim Hmax). vm_compute in Hclaim. discriminate Hclaim.
Qed.

(** Collisions not tolerated: the same search fails without a fallback. *)
Example no_fallback_when_collisions_not_tolerated :
  exists st',
    sample (all_colliding (-1 # 10) (-1 # 20) false) (entry []) = Ok false st'
    /\ solution_set st' = []
    /\ distance_queries (calls st') = [].
Proof. eexists. split; [vm_compute; reflexivity|]. split; reflexivity. Qed.

(** * Beyond the specification: more of what the code does *)

(** ** The calls of a pass, one by one *)

Lemma flat_map_map {A B C} (g : A -> B) (f : B -> list C) (l : list A) :
  flat_map f (map g l) = flat_map (fun x => f (g x)) l.
Proof. induction l as [|x l IH]; simpl; [reflexivity | now rewrite IH]. Qed.

Section TraceFacts.
Context {Iso : Type} `{Isometry Iso}.
Variable self : DescartesRailedSampler Iso.

Lemma for_each_calls {A} (f : A -> list (Call Iso)) (xs : list A)
    (body : A -> M Iso unit) :
  (forall x st st', In x xs -> body x st = Ok tt st' ->
     calls st' = calls st ++ f x) ->
  forall st st', for_each xs body st = Ok tt st' ->
    calls st' = calls st ++ flat_map f xs.
Proof.
  induction xs as [|x xs IH]; intros Hbody st st' Hrun.
  - inversion Hrun. simpl. now rewrite app_nil_r.
  - simpl in Hrun. unfold bind in Hrun.
    destruct (body x st) as [[] st1|u st1] eqn:Ex; [|discriminate].
    apply Hbody in Ex; [|now left].
    apply IH in Hrun; [|intros y s s' Hy; apply Hbody; now right].
    simpl. now rewrite Hrun, Ex, app_assoc.
Qed.

Lemma ikAt_solution_calls railed_pose robot_solution_set robot_dof flag i
    (st st' : Search Iso) :
  ikAt_solution self railed_pose robot_solution_set robot_dof flag i st
  = Ok tt st' ->
  calls st'
  = calls st
    ++ branch_calls self flag
         (full_solution self railed_pose robot_solution_set robot_dof i).
Proof.
  unfold ikAt_solution, branch_calls.
  fold (full_solution self railed_pose robot_solution_set robot_dof i).
  set (full_sol := full_solution self railed_pose robot_solution_set robot_dof i).
  unfold bind, record_call, isCollisionFree, collision_distance, ret,
    undefined, get_solution_set, put_solution_set, get_distance, put_distance.
  destruct (is_valid_ self full_sol); simpl.
  - destruct flag; simpl; destruct (collision_ self) as [c|]; simpl.
    + destruct (Qltb _ _); intro E; inversion E; simpl;
        now rewrite <- app_assoc.
    + discriminate.
    + destruct (validate c full_sol (dof_ self)); intro E; inversion E; simpl;
        now rewrite <- app_assoc.
    + intro E. now inversion E.
  - intro E. now inversion E.
Qed.

Lemma ikAt_calls flag point b (st st' : Search Iso) :
  ikAt self (fst point) (snd point) flag st = Ok b st' ->
  calls st' = calls st ++ point_calls self flag point.
Proof.
  unfold ikAt, point_calls, ik_branches.
  unfold bind at 1. unfold record_call at 1.
  destruct (calcFwdKin (railed_kinematics_ self) (snd point)) as [rail_tf|];
    [|intro E; now inversion E].
  cbv zeta.
  destruct (Qltb (robot_reach_ self) _) eqn:Er; [intro E; now inversion E|].
  unfold bind at 1. unfold record_call at 1.
  destruct (calcInvKin (robot_kinematics_ self) _ _) as [robot_solution_set|];
    [|intro E; inversion E; simpl; now rewrite <- app_assoc].
  destruct (ik_numJoints (robot_kinematics_ self) =? 0); [discriminate|].
  unfold bind at 1.
  match goal with |- context [for_each ?idxs ?body ?s] =>
    destruct (for_each idxs body s) as [[] st1|u st1] eqn:Eloop end;
    [|discriminate].
  unfold bind, get_solution_set, ret. intro E. inversion E; subst st'; clear E.
  apply (for_each_calls
           (fun i => branch_calls self flag
                       (full_solution self (snd point) robot_solution_set
                          (ik_numJoints (robot_kinematics_ self)) i))) in Eloop.
  - rewrite Eloop. simpl. rewrite <- !app_assoc. simpl.
    rewrite flat_map_map. reflexivity.
  - intros i s s' _. apply ikAt_solution_calls.
Qed.

(** The log of a pass that returns is the calls of its points, in order. *)
Lemma pass_calls flag points (st st' : Search Iso) :
  pass self flag points st = Ok tt st' ->
  calls st' = calls st ++ flat_map (point_calls self flag) points.
Proof.
  unfold pass. apply for_each_calls.
  intros point s s' _. unfold visit, bind, ret.
  destruct (ikAt self (fst point) (snd point) flag s) as [b s1|u s1] eqn:E;
    [|discriminate].
  intro E'. inversion E'; subst s1. eapply ikAt_calls; eassumption.
Qed.

End TraceFacts.

Section SampleTrace.
Context {Iso : Type} `{Isometry Iso}.
Variable self : DescartesRailedSampler Iso.

(** [sample] returns what its last look at the set says. *)
Lemma sample_result b (st st' : Search Iso) :
  sample self st = Ok b st' -> b = negb (vector_empty (solution_set st')).
Proof.
  destruct (build_dof_range (railed_limits_ self) (railed_sample_resolution_ self)
              (fk_numJoints (railed_kinematics_ self))) as [u|dof_range] eqn:Hb.
  { rewrite (sample_undefined_grid self st Hb). discriminate. }
  rewrite (sample_unfold self st Hb).
  destruct (pass self false _ _) as [[] st1|u st1]; [|discriminate].
  destruct (vector_empty (solution_set st1) && allow_collision_ self).
  - destruct (pass self true _ _) as [[] st2|u st2]; [|discriminate].
    intro E. now inversion E.
  - intro E. now inversion E.
Qed.

(** The log of a run of [sample] that returns: the calls of the collect-all
    pass and, when that pass leaves the set empty and collisions are
    tolerated, the calls of the best-only pass over the same points. *)
Lemma sample_calls dof_range b (st st' : Search Iso) :
  build_dof_range (railed_limits_ self) (railed_sample_resolution_ self)
    (fk_numJoints (railed_kinematics_ self)) = inr dof_range ->
  sample self st = Ok b st' ->
  let points :=
    search_points self (tool_pose_sampler_ self (tool_pose_ self)) dof_range in
  defined_at self points
  /\ calls st'
     = calls st
       ++ flat_map (point_calls self false) points
       ++ (if vector_empty (solution_set st ++ collected self points)
              && allow_collision_ self
           then flat_map (point_calls self true) points
           else []).
Proof.
  intros Hb Hrun points. rewrite (sample_unfold self st Hb) in Hrun.
  fold points in Hrun.
  destruct (pass_collect self points
              {| solution_set := solution_set st;
                 distance := numeric_limits_double_min;
                 calls := calls st |})
    as (l & done & _ & _ & [(Hdef & _ & Hpass) | [s Hpass]]);
    [|rewrite Hpass in Hrun; discriminate].
  split; [exact Hdef|].
  assert (Hc1 := pass_calls self false points _ Hpass).
  rewrite Hpass in Hrun. simpl solution_set in Hrun. simpl calls in Hrun, Hc1.
  destruct (vector_empty (solution_set st ++ collected self points)
            && allow_collision_ self).
  - destruct (pass self true points _) as [[] st2|u st2] eqn:Hpass2;
      [|discriminate].
    inversion Hrun; subst st2.
    apply pass_calls in Hpass2. simpl calls in Hpass2.
    rewrite Hpass2, Hc1. now rewrite <- app_assoc.
  - inversion Hrun; subst st'. simpl. rewrite Hc1. now rewrite app_nil_r.
Qed.

Lemma is_valid_queries_app (l l' : list (Call Iso)) :
  is_valid_queries (l ++ l') = is_valid_queries l ++ is_valid_queries l'.
Proof. unfold is_valid_queries. apply flat_map_app. Qed.

Lemma validate_queries_app (l l' : list (Call Iso)) :
  validate_queries (l ++ l') = validate_queries l ++ validate_queries l'.
Proof. unfold validate_queries. apply flat_map_app. Qed.

Lemma inv_kin_seeds_app (l l' : list (Call Iso)) :
  inv_kin_seeds (l ++ l') = inv_kin_seeds l ++ inv_kin_seeds l'.
Proof. unfold inv_kin_seeds. apply flat_map_app. Qed.

(** What the calls of the branches of one point ask. *)
Lemma branches_queries c flag (branches : list (list Q)) :
  collision_ self = Some c ->
  let l := flat_map (branch_calls self flag) branches in
  is_valid_queries l = branches
  /\ fwd_kin_joints l = []
  /\ inv_kin_seeds l = []
  /\ validate_queries l
     = (if flag then []
        else map (fun s => (s, dof_ self)) (filter (is_valid_ self) branches))
  /\ distance_queries l
     = (if flag then filter (is_valid_ self) branches else []).
Proof.
  intros Hc. cbv zeta.
  induction branches as [|s branches (I1 & I2 & I3 & I4 & I5)]; simpl.
  - destruct flag; now repeat split.
  - rewrite is_valid_queries_app, fwd_kin_joints_app, inv_kin_seeds_app,
      validate_queries_app, distance_queries_app, I1, I2, I3, I4, I5.
    unfold branch_calls. rewrite Hc.
    destruct (is_valid_ self s); destruct flag; simpl; now repeat split.
Qed.

Lemma branches_no_kinematics flag (branches : list (list Q)) :
  fwd_kin_joints (flat_map (branch_calls self flag) branches) = []
  /\ inv_kin_seeds (flat_map (branch_calls self flag) branches) = [].
Proof.
  induction branches as [|s branches [I1 I2]]; simpl; [now split|].
  rewrite fwd_kin_joints_app, inv_kin_seeds_app, I1, I2.
  unfold branch_calls.
  destruct (is_valid_ self s); destruct (collision_ self); destruct flag;
    now split.
Qed.

(** The kinematics calls of one point: one forward kinematics call on the
    rail pose, and at most one inverse kinematics call, with the seed of
    the sampler. *)
Lemma point_kinematics flag point :
  fwd_kin_joints (point_calls self flag point) = [snd point]
  /\ (inv_kin_seeds (point_calls self flag point) = []
      \/ inv_kin_seeds (point_calls self flag point) = [ik_seed_ self]).
Proof.
  unfold point_calls.
  destruct (calcFwdKin _ _) as [rail_tf|]; [|split; [reflexivity | now left]].
  cbv zeta. destruct (Qltb _ _); [split; [reflexivity | now left]|].
  set (l := match ik_branches self (fst point) (snd point) with
            | inr branches => flat_map (branch_calls self flag) branches
            | inl _ => []
            end).
  assert (Hl : fwd_kin_joints l = [] /\ inv_kin_seeds l = []).
  { subst l. destruct (ik_branches self (fst point) (snd point)) as [u|bs];
      [now split | apply branches_no_kinematics]. }
  destruct Hl as [H1 H2]. simpl. rewrite H1, H2. split; [reflexivity | now right].
Qed.

Lemma pass_kinematics flag points :
  let l := flat_map (point_calls self flag) points in
  fwd_kin_joints l = map snd points
  /\ Forall (eq (ik_seed_ self)) (inv_kin_seeds l)
  /\ length (inv_kin_seeds l) <= length points.
Proof.
  cbv zeta. induction points as [|point points (I1 & I2 & I3)]; cbn [flat_map].
  - repeat split; [constructor | simpl; lia].
  - rewrite fwd_kin_joints_app, inv_kin_seeds_app, length_app, I1.
    destruct (point_kinematics flag point) as [-> [-> | ->]]; simpl.
    + repeat split; [exact I2 | lia].
    + repeat split; [now constructor | lia].
Qed.

(** What the calls of one point ask the validity rule and the collision
    capability. *)
Lemma point_queries c flag point :
  collision_ self = Some c ->
  let l := point_calls self flag point in
  filter (is_valid_ self) (is_valid_queries l) = valid_configurations self point
  /\ validate_queries l
     = (if flag then []
        else map (fun s => (s, dof_ self)) (valid_configurations self point))
  /\ distance_queries l
     = (if flag then valid_configurations self point else []).
Proof.
  intro Hc. cbv zeta. unfold point_calls, valid_configurations.
  assert (Hnone : ik_branches self (fst point) (snd point) = inr [] ->
            filter (is_valid_ self)
              (is_valid_queries [@CallFwdKin Iso (snd point)])
            = match ik_branches self (fst point) (snd point) with
              | inr branches => filter (is_valid_ self) branches
              | inl _ => []
              end
            /\ validate_queries [@CallFwdKin Iso (snd point)]
               = (if flag then []
                  else map (fun s => (s, dof_ self))
                         match ik_branches self (fst point) (snd point) with
                         | inr branches => filter (is_valid_ self) branches
                         | inl _ => []
                         end)
            /\ distance_queries [@CallFwdKin Iso (snd point)]
               = (if flag
                  then match ik_branches self (fst point) (snd point) with
                       | inr branches => filter (is_valid_ self) branches
                       | inl _ => []
                       end
                  else [])).
  { intros ->. destruct flag; now repeat split. }
  destruct (calcFwdKin (railed_kinematics_ self) (snd point)) as [rail_tf|] eqn:Ef.
  2:{ apply Hnone. unfold ik_branches. now rewrite Ef. }
  cbv zeta.
  destruct (Qltb (robot_reach_ self) _) eqn:Er.
  { apply Hnone. unfold ik_branches. rewrite Ef. cbv zeta. now rewrite Er. }
  clear Hnone.
  destruct (ik_branches self (fst point) (snd point)) as [u|branches].
  - destruct flag; now repeat split.
  - destruct (@branches_queries c flag branches Hc) as (Q1 & _ & _ & Q4 & Q5).
    simpl. rewrite Q1, Q4, Q5. destruct flag; now repeat split.
Qed.

Lemma pass_queries c flag points :
  collision_ self = Some c ->
  let l := flat_map (point_calls self flag) points in
  filter (is_valid_ self) (is_valid_queries l) = visited self points
  /\ validate_queries l
     = (if flag then []
        else map (fun s => (s, dof_ self)) (visited self points))
  /\ distance_queries l = (if flag then visited self points else []).
Proof.
  intro Hc. cbv zeta.
  induction points as [|point points (I1 & I2 & I3)]; cbn [flat_map].
  - destruct flag; now repeat split.
  - rewrite is_valid_queries_app, validate_queries_app, distance_queries_app,
      filter_app, I1, I2, I3.
    destruct (@point_queries c flag point Hc) as (-> & -> & ->).
    change (visited self (point :: points))
      with (valid_configurations self point ++ visited self points).
    destruct flag; rewrite ?map_app; now repeat split.
Qed.

End SampleTrace.

(** ** What the collaborators are asked *)

(** X1. In a run of [sample] with a collision capability, the joint vectors
    the capability is asked about, by [validate] in the collect-all pass
    and by [distance] in the best-only pass, are exactly the vectors the
    validity rule accepted, in the same order and once each; a vector the
    rule rejects never reaches the collision capability, and [validate] is
    always passed the size [dof_]. *)
Theorem collision_asked_for_accepted_only {Iso : Type} `{Isometry Iso}
    (self : DescartesRailedSampler Iso) (c : CollisionInterface) (b : bool)
    (st st' : Search Iso) :
  collision_ self = Some c ->
  sample self st = Ok b st' ->
  exists l,
    calls st' = calls st ++ l
    /\ map fst (validate_queries l) ++ distance_queries l
       = filter (is_valid_ self) (is_valid_queries l)
    /\ Forall (fun q => snd q = dof_ self) (validate_queries l).
Proof.
  intros Hc Hrun.
  destruct (build_dof_range (railed_limits_ self) (railed_sample_resolution_ self)
              (fk_numJoints (railed_kinematics_ self))) as [u|dof_range] eqn:Hb.
  { rewrite (sample_undefined_grid self st Hb) in Hrun. discriminate. }
  destruct (sample_calls self st Hb Hrun) as [_ Hcalls].
  set (points := search_points self (tool_pose_sampler_ self (tool_pose_ self))
                   dof_range) in *.
  eexists. split; [exact Hcalls|].
  destruct (@pass_queries _ _ self c false points Hc) as (A1 & A2 & A3).
  destruct (@pass_queries _ _ self c true points Hc) as (B1 & B2 & B3).
  cbv zeta in A1, A2, A3, B1, B2, B3.
  rewrite validate_queries_app, distance_queries_app, is_valid_queries_app,
    filter_app, A1, A2, A3.
  assert (Hfst : map fst (map (fun s => (s, dof_ self)) (visited self points))
                 = visited self points)
    by (rewrite map_map; apply map_id).
  assert (Hsnd : Forall (fun q : list Q * nat => snd q = dof_ self)
                   (map (fun s => (s, dof_ self)) (visited self points)))
    by (apply Forall_forall; intros q Hq; apply in_map_iff in Hq;
        destruct Hq as (s & <- & _); reflexivity).
  destruct (vector_empty _ && allow_collision_ self).
  - rewrite B1, B2, B3, app_nil_r, Hfst. simpl. split; [reflexivity | exact Hsnd].
  - simpl. rewrite !app_nil_r, Hfst. split; [reflexivity | exact Hsnd].
Qed.

Lemma collision_asked_for_accepted_only_witness :
  exists l,
    calls (state_of (sample (all_colliding 1 2 true) (entry [])))
    = calls (@entry Q []) ++ l
    /\ map fst (validate_queries l) ++ distance_queries l
       = filter (is_valid_ (all_colliding 1 2 true)) (is_valid_queries l)
    /\ Forall (fun q => snd q = dof_ (all_colliding 1 2 true))
         (validate_queries l).
Proof.
  apply (@collision_asked_for_accepted_only Q Line (all_colliding 1 2 true)
           (colliding 1 2) true (entry [])
           (state_of (sample (all_colliding 1 2 true) (entry [])))).
  - reflexivity.
  - vm_compute. reflexivity.
Defined.

(** X2. In a run of [sample] of a constructed sampler every inverse
    kinematics call is given the same seed, the zero vector of [dof_]
    scalars (rail joints plus robot joints), and there are at most as many
    inverse kinematics calls as forward kinematics calls. *)
Theorem inverse_kinematics_seed_is_zero {Iso : Type} `{Isometry Iso}
    (self : DescartesRailedSampler Iso) (b : bool) (st st' : Search Iso) :
  constructed self ->
  sample self st = Ok b st' ->
  exists l,
    calls st' = calls st ++ l
    /\ Forall (eq (repeat 0%Q (fk_numJoints (railed_kinematics_ self)
                               + ik_numJoints (robot_kinematics_ self))))
         (inv_kin_seeds l)
    /\ length (inv_kin_seeds l) <= fwd_kin_calls l.
Proof.
  intros (Hdof & _ & Hseed) Hrun.
  destruct (build_dof_range (railed_limits_ self) (railed_sample_resolution_ self)
              (fk_numJoints (railed_kinematics_ self))) as [u|dof_range] eqn:Hb.
  { rewrite (sample_undefined_grid self st Hb) in Hrun. discriminate. }
  destruct (sample_calls self st Hb Hrun) as [_ Hcalls].
  set (points := search_points self (tool_pose_sampler_ self (tool_pose_ self))
                   dof_range) in *.
  eexists. split; [exact Hcalls|].
  destruct (@pass_kinematics _ _ self false points) as (A1 & A2 & A3).
  destruct (@pass_kinematics _ _ self true points) as (B1 & B2 & B3).
  cbv zeta in A1, A2, A3, B1, B2, B3.
  rewrite <- Hdof, <- Hseed.
  unfold fwd_kin_calls.
  rewrite inv_kin_seeds_app, fwd_kin_joints_app, !length_app, A1, length_map.
  destruct (vector_empty _ && allow_collision_ self).
  - rewrite B1, length_map. split; [apply Forall_app; now split | lia].
  - simpl. rewrite app_nil_r. split; [exact A2 | lia].
Qed.

Lemma inverse_kinematics_seed_is_zero_witness :
  exists l,
    calls (state_of (sample (all_colliding 1 2 true) (entry [])))
    = calls (@entry Q []) ++ l
    /\ Forall (eq (repeat 0%Q (1 + 1))) (inv_kin_seeds l)
    /\ length (inv_kin_seeds l) <= fwd_kin_calls l.
Proof.
  apply (@inverse_kinematics_seed_is_zero Q Line (all_colliding 1 2 true)
           true (entry [])
           (state_of (sample (all_colliding 1 2 true) (entry [])))).
  - repeat split.
  - vm_compute. reflexivity.
Defined.

(** ** What the best-only pass keeps *)

Section RunningBestOrder.
Variable clearance : list Q -> Q.

(** Either no configuration is above the tracker and nothing changes, or the
    set starts with the first configuration of greatest clearance. *)
Lemma best_step_fold_first (configurations : list (list Q)) : forall s d,
  let acc := fold_left (best_step clearance) configurations (s, d) in
  (fst acc = s /\ snd acc = d
   /\ forall x, In x configurations -> (clearance x <= d)%Q)
  \/ exists pre best post older,
       configurations = pre ++ best :: post
       /\ fst acc = best ++ older
       /\ snd acc = clearance best
       /\ (d < clearance best)%Q
       /\ (forall x, In x pre -> (clearance x < clearance best)%Q)
       /\ (forall x, In x post -> (clearance x <= clearance best)%Q).
Proof.
  induction configurations as [|x xs IH]; intros s d; cbv zeta.
  - left. simpl. repeat split. intros ? [].
  - simpl fold_left.
    assert (Hstep : best_step clearance (s, d) x
                    = if Qltb d (clearance x) then (x ++ s, clearance x) else (s, d))
      by reflexivity.
    rewrite Hstep. clear Hstep.
    destruct (Qltb d (clearance x)) eqn:E.
    + apply Qltb_lt in E. right.
      destruct (IH (x ++ s) (clearance x))
        as [(Hs & Hd & Hall)
           | (pre & best & post & older & Hxs & Hs & Hd & Hgt & Hpre & Hpost)].
      * exists [], x, xs, s.
        split; [reflexivity|]. split; [exact Hs|]. split; [exact Hd|].
        split; [exact E|]. split; [intros ? [] | exact Hall].
      * subst xs. exists (x :: pre), best, post, older.
        split; [reflexivity|]. split; [exact Hs|]. split; [exact Hd|].
        split; [now apply Qlt_trans with (clearance x)|].
        split; [|exact Hpost].
        intros y [<-|Hy]; [exact Hgt | now apply Hpre].
    + apply Qltb_ge in E.
      destruct (IH s d)
        as [(Hs & Hd & Hall)
           | (pre & best & post & older & Hxs & Hs & Hd & Hgt & Hpre & Hpost)].
      * left. split; [exact Hs|]. split; [exact Hd|].
        intros y [<-|Hy]; [exact E | now apply Hall].
      * right. subst xs. exists (x :: pre), best, post, older.
        split; [reflexivity|]. split; [exact Hs|]. split; [exact Hd|].
        split; [exact Hgt|]. split; [|exact Hpost].
        intros y [<-|Hy]; [|now apply Hpre].
        now apply Qle_lt_trans with d.
Qed.

Lemma improvements_after_incl (d : Q) (configurations : list (list Q)) :
  forall earlier full_sol,
    In full_sol (improvements_after clearance d earlier configurations) ->
    In full_sol configurations.
Proof.
  induction configurations as [|x xs IH]; intros earlier full_sol Hin;
    [destruct Hin|].
  simpl in Hin. apply in_app_or in Hin. destruct Hin as [Hin|Hin].
  - destruct (improves clearance d earlier x); [|destruct Hin].
    destruct Hin as [<-|[]]. now left.
  - right. eapply IH. exact Hin.
Qed.

(** The tracker is the greatest clearance met so far, or the value it
    started from: the pass accepts a configuration exactly when it improves
    on everything before it, and puts it in front of the set. *)
Lemma best_step_fold_improvements (d : Q) (configurations : list (list Q)) :
  forall earlier s t,
    (d <= t)%Q ->
    (forall y, In y earlier -> (clearance y <= t)%Q) ->
    (t = d \/ exists y, In y earlier /\ t = clearance y) ->
    fst (fold_left (best_step clearance) configurations (s, t))
    = concat (rev (improvements_after clearance d earlier configurations)) ++ s.
Proof.
  induction configurations as [|x xs IH]; intros earlier s t Hd Hle Hatt;
    [reflexivity|].
  simpl fold_left.
  assert (Hstep : best_step clearance (s, t) x
                  = if Qltb t (clearance x) then (x ++ s, clearance x) else (s, t))
    by reflexivity.
  rewrite Hstep. clear Hstep. simpl improvements_after.
  destruct (Qltb t (clearance x)) eqn:E.
  - apply Qltb_lt in E.
    assert (Himp : improves clearance d earlier x = true).
    { unfold improves. apply andb_true_intro. split.
      - apply Qltb_lt. now apply Qle_lt_trans with t.
      - apply forallb_forall. intros y Hy. apply Qltb_lt.
        apply Qle_lt_trans with t; [now apply Hle | exact E]. }
    rewrite Himp.
    rewrite (IH (earlier ++ [x]) (x ++ s) (clearance x)).
    + simpl. rewrite concat_app. simpl.
      now rewrite app_nil_r, <- app_assoc.
    + apply Qlt_le_weak. now apply Qle_lt_trans with t.
    + intros y Hy. apply in_app_or in Hy. destruct Hy as [Hy|[<-|[]]].
      * apply Qlt_le_weak. apply Qle_lt_trans with t; [now apply Hle | exact E].
      * apply Qle_refl.
    + right. exists x. split; [apply in_or_app; right; now left | reflexivity].
  - apply Qltb_ge in E.
    assert (Himp : improves clearance d earlier x = false).
    { unfold improves. destruct Hatt as [->|(y & Hy & ->)].
      - replace (Qltb d (clearance x)) with false
          by (symmetry; now apply Qltb_ge).
        reflexivity.
      - apply andb_false_intro2.
        destruct (forallb _ earlier) eqn:Ef; [|reflexivity].
        exfalso. rewrite forallb_forall in Ef. specialize (Ef y Hy).
        apply Qltb_lt in Ef. apply (Qlt_not_le _ _ Ef). exact E. }
    rewrite Himp. simpl app.
    apply (IH (earlier ++ [x]) s t).
    + exact Hd.
    + intros y Hy. apply in_app_or in Hy. destruct Hy as [Hy|[<-|[]]];
        [now apply Hle | exact E].
    + destruct Hatt as [->|(y & Hy & ->)]; [now left|].
      right. exists y. split; [apply in_or_app; now left | reflexivity].
Qed.

End RunningBestOrder.

Lemma concat_length_uniform (n : nat) (l : list (list Q)) :
  Forall (fun s => length s = n) l -> length (concat l) = length l * n.
Proof.
  induction 1 as [|s l Hs _ IH]; simpl; [reflexivity|].
  rewrite length_app, Hs, IH. lia.
Qed.

(** X3. When the fallback runs and no visited configuration has a clearance
    above [std::numeric_limits<double>::min ()] (in particular when every
    clearance is zero or negative), it queries the clearance of each of
    them, accepts none, and [sample] returns false with an empty set although
    collisions are tolerated. *)
Theorem fallback_finds_nothing_below_tracker {Iso : Type} `{Isometry Iso}
    (self : DescartesRailedSampler Iso) (c : CollisionInterface)
    (dof_range : list (list Q)) :
  build_dof_range (railed_limits_ self) (railed_sample_resolution_ self)
    (fk_numJoints (railed_kinematics_ self)) = inr dof_range ->
  ik_numJoints (robot_kinematics_ self) <> 0 ->
  allow_collision_ self = true ->
  collision_ self = Some c ->
  let points :=
    search_points self (tool_pose_sampler_ self (tool_pose_ self)) dof_range in
  collected self points = [] ->
  (forall full_sol, In full_sol (visited self points) ->
     (clearance_of c full_sol <= numeric_limits_double_min)%Q) ->
  exists st',
    sample self (entry []) = Ok false st'
    /\ solution_set st' = []
    /\ distance_queries (calls st') = visited self points.
Proof.
  intros Hb Hdof Hallow Hc points Hcol Hlow.
  destruct (@sample_falls_back Iso _ self dof_range Hb c (entry [])
              (defined_at_robot_dof self _ Hdof) Hc Hcol Hallow)
    as (l & _ & Hdq & Hs).
  fold points in Hdq, Hs.
  destruct (best_step_fold_first (clearance_of c) (visited self points)
              [] numeric_limits_double_min)
    as [(Hset & _ & _)
       | (pre & best & post & older & Hv & _ & _ & Hgt & _)].
  - fold (best_of self c points ([], numeric_limits_double_min)) in Hset.
    rewrite Hset in Hs. eexists. split; [exact Hs|]. split; [reflexivity|].
    exact Hdq.
  - exfalso. apply (Qlt_not_le _ _ Hgt). apply Hlow.
    rewrite Hv. apply in_or_app. right. now left.
Qed.

Lemma fallback_finds_nothing_below_tracker_witness :
  let self := all_colliding 0 (-1 # 20) true in
  let points :=
    search_points self (tool_pose_sampler_ self (tool_pose_ self))
      [LinSpaced 3 0 1] in
  exists st',
    sample self (entry []) = Ok false st'
    /\ solution_set st' = []
    /\ distance_queries (calls st') = visited self points.
Proof.
  intros self points.
  apply (@fallback_finds_nothing_below_tracker Q Line self
           (colliding 0 (-1 # 20)) [LinSpaced 3 0 1]).
  - reflexivity.
  - simpl. lia.
  - reflexivity.
  - reflexivity.
  - vm_compute. reflexivity.
  - intros full_sol Hin. vm_compute in Hin.
    destruct Hin as [<-|[<-|[]]]; vm_compute; discriminate.
Defined.

(** X4. When the fallback runs and some visited configuration has a
    clearance above the tracker's initial value, the set [sample] returns
    starts with the first visited configuration of greatest clearance: every
    configuration visited before it has a strictly smaller clearance, and a
    later one of equal clearance does not replace it. *)
Theorem fallback_keeps_first_of_equal_best {Iso : Type} `{Isometry Iso}
    (self : DescartesRailedSampler Iso) (c : CollisionInterface)
    (dof_range : list (list Q)) :
  build_dof_range (railed_limits_ self) (railed_sample_resolution_ self)
    (fk_numJoints (railed_kinematics_ self)) = inr dof_range ->
  ik_numJoints (robot_kinematics_ self) <> 0 ->
  allow_collision_ self = true ->
  collision_ self = Some c ->
  let points :=
    search_points self (tool_pose_sampler_ self (tool_pose_ self)) dof_range in
  collected self points = [] ->
  (exists full_sol,
     In full_sol (visited self points)
     /\ (numeric_limits_double_min < clearance_of c full_sol)%Q) ->
  exists st' pre best post older,
    sample self (entry []) = Ok true st'
    /\ visited self points = pre ++ best :: post
    /\ solution_set st' = best ++ older
    /\ (forall x, In x pre -> (clearance_of c x < clearance_of c best)%Q)
    /\ (forall x, In x post -> (clearance_of c x <= clearance_of c best)%Q).
Proof.
  intros Hb Hdof Hallow Hc points Hcol (full_sol & Hin & Hgt).
  destruct (@sample_falls_back Iso _ self dof_range Hb c (entry [])
              (defined_at_robot_dof self _ Hdof) Hc Hcol Hallow)
    as (l & _ & _ & Hs).
  fold points in Hs.
  destruct (best_step_fold_first (clearance_of c) (visited self points)
              [] numeric_limits_double_min)
    as [(_ & _ & Hall)
       | (pre & best & post & older & Hv & Hset & _ & _ & Hpre & Hpost)].
  - exfalso. apply (Qlt_not_le _ _ Hgt). now apply Hall.
  - fold (best_of self c points ([], numeric_limits_double_min)) in Hset.
    rewrite Hset in Hs.
    assert (Hbest : In best (visited self points))
      by (rewrite Hv; apply in_or_app; right; now left).
    apply visited_in in Hbest. destruct Hbest as (point & _ & _ & H0 & Hlen).
    assert (Hne : negb (vector_empty (best ++ older)) = true)
      by (destruct best; [simpl in Hlen; lia | reflexivity]).
    rewrite Hne in Hs.
    eexists. exists pre, best, post, older.
    split; [exact Hs|]. split; [exact Hv|]. split; [reflexivity|].
    split; [exact Hpre | exact Hpost].
Qed.

(** Equal clearances at rail = 1/2 and rail = 1: the rail = 1/2 solution,
    found first, is the one in front. *)
Lemma fallback_keeps_first_of_equal_best_witness :
  let self := all_colliding 2 2 true in
  let points :=
    search_points self (tool_pose_sampler_ self (tool_pose_ self))
      [LinSpaced 3 0 1] in
  exists st' pre best post older,
    sample self (entry []) = Ok true st'
    /\ visited self points = pre ++ best :: post
    /\ solution_set st' = best ++ older
    /\ (forall x, In x pre ->
          (clearance_of (colliding 2 2) x < clearance_of (colliding 2 2) best)%Q)
    /\ (forall x, In x post ->
          (clearance_of (colliding 2 2) x <= clearance_of (colliding 2 2) best)%Q).
Proof.
  intros self points.
  apply (@fallback_keeps_first_of_equal_best Q Line self (colliding 2 2)
           [LinSpaced 3 0 1]).
  - reflexivity.
  - simpl. lia.
  - reflexivity.
  - reflexivity.
  - vm_compute. reflexivity.
  - exists (nth 0 (visited self points) []). split.
    + vm_compute. left. reflexivity.
    + vm_compute. reflexivity.
Defined.

(** X5. The set the fallback leaves is the sequence of its running maxima,
    the latest in front: exactly the visited configurations whose clearance
    is above the tracker's initial value and strictly above the clearance
    of every configuration visited before them, and each of them still in
    the set; the number of full joint solutions held is the number of these
    strict improvements, not one. *)
Theorem fallback_keeps_running_maxima {Iso : Type} `{Isometry Iso}
    (self : DescartesRailedSampler Iso) (c : CollisionInterface)
    (dof_range : list (list Q)) :
  constructed self ->
  build_dof_range (railed_limits_ self) (railed_sample_resolution_ self)
    (fk_numJoints (railed_kinematics_ self)) = inr dof_range ->
  ik_numJoints (robot_kinematics_ self) <> 0 ->
  allow_collision_ self = true ->
  collision_ self = Some c ->
  let points :=
    search_points self (tool_pose_sampler_ self (tool_pose_ self)) dof_range in
  collected self points = [] ->
  let maxima :=
    improvements (clearance_of c) numeric_limits_double_min
      (visited self points) in
  exists b st',
    sample self (entry []) = Ok b st'
    /\ solution_set st' = concat (rev maxima)
    /\ solutions_held (dof_ self) (solution_set st') = length maxima.
Proof.
  intros Hcons Hb Hdof Hallow Hc points Hcol maxima.
  assert (Hlen := build_dof_range_length _ _ _ Hb).
  destruct (@sample_falls_back Iso _ self dof_range Hb c (entry [])
              (defined_at_robot_dof self _ Hdof) Hc Hcol Hallow)
    as (l & _ & _ & Hs).
  fold points in Hs.
  assert (Hset : fst (best_of self c points ([], numeric_limits_double_min))
                 = concat (rev maxima)).
  { unfold best_of.
    rewrite (@best_step_fold_improvements (clearance_of c)
               numeric_limits_double_min (visited self points) []
               [] numeric_limits_double_min).
    - apply app_nil_r.
    - apply Qle_refl.
    - intros y [].
    - now left. }
  do 2 eexists. split; [exact Hs|].
  simpl. split; [exact Hset|].
  rewrite Hset. unfold solutions_held.
  assert (Hdofs : Forall (fun s => length s = dof_ self) (rev maxima)).
  { apply Forall_forall. intros s Hin. apply in_rev in Hin.
    apply improvements_after_incl in Hin.
    now apply (visited_length _ _ _ Hcons Hlen) in Hin. }
  rewrite (concat_length_uniform Hdofs), length_rev.
  apply Nat.div_mul. destruct Hcons as (-> & _). lia.
Qed.

(** Clearances 1 at rail = 1/2 and 2 at rail = 1: both are strict
    improvements, and the set holds the rail = 1 solution followed by the
    rail = 1/2 solution. *)
Lemma fallback_keeps_running_maxima_witness :
  let self := all_colliding 1 2 true in
  let points :=
    search_points self (tool_pose_sampler_ self (tool_pose_ self))
      [LinSpaced 3 0 1] in
  let maxima :=
    improvements (clearance_of (colliding 1 2)) numeric_limits_double_min
      (visited self points) in
  exists b st',
    sample self (entry []) = Ok b st'
    /\ solution_set st' = concat (rev maxima)
    /\ solutions_held (dof_ self) (solution_set st') = length maxima.
Proof.
  intros self points.
  apply (@fallback_keeps_running_maxima Q Line self (colliding 1 2)
           [LinSpaced 3 0 1]).
  - repeat split.
  - reflexivity.
  - simpl. lia.
  - reflexivity.
  - reflexivity.
  - vm_compute. reflexivity.
Defined.

(** In that run the running maxima are two. *)
Example fallback_running_maxima_are_two :
  let self := all_colliding 1 2 true in
  length (improvements (clearance_of (colliding 1 2)) numeric_limits_double_min
            (visited self
               (search_points self (tool_pose_sampler_ self (tool_pose_ self))
                  [LinSpaced 3 0 1])))
  = 2.
Proof. vm_compute. reflexivity. Qed.

(** ** The kinematics calls of a whole run *)

Section KinematicsCalls.
Context {Iso : Type} `{Isometry Iso}.
Variable self : DescartesRailedSampler Iso.

Lemma branches_no_targets flag (branches : list (list Q)) :
  inv_kin_poses (flat_map (branch_calls self flag) branches) = [].
Proof.
  induction branches as [|s branches IH]; simpl; [reflexivity|].
  rewrite inv_kin_poses_app, IH. unfold branch_calls.
  destruct (is_valid_ self s); destruct (collision_ self); destruct flag;
    reflexivity.
Qed.

(** Whatever the pass, the inverse kinematics is called at a point exactly
    when the point has a target. *)
Lemma point_targets flag point :
  inv_kin_poses (point_calls self flag point) = ik_target self point.
Proof.
  unfold point_calls, ik_target.
  destruct (calcFwdKin _ _) as [rail_tf|]; [|reflexivity].
  cbv zeta. destruct (Qltb _ _); [reflexivity|].
  destruct (ik_branches self (fst point) (snd point)) as [u|bs]; simpl;
    [reflexivity|].
  now rewrite branches_no_targets.
Qed.

Lemma pass_targets flag points :
  inv_kin_poses (flat_map (point_calls self flag) points)
  = flat_map (ik_target self) points.
Proof.
  induction points as [|point points IH]; cbn [flat_map]; [reflexivity|].
  now rewrite inv_kin_poses_app, IH, point_targets.
Qed.

Lemma search_points_rail tool_poses dof_range :
  map snd (search_points self tool_poses dof_range)
  = flat_map (fun _ => grid_points (as_FloatType self dof_range)) tool_poses.
Proof.
  unfold search_points.
  rewrite flat_map_concat_map, concat_map, map_map, <- flat_map_concat_map.
  apply flat_map_ext. intros tool_poses_i. rewrite map_map. simpl.
  apply map_id.
Qed.

End KinematicsCalls.

(** X6. A run of [sample] that returns makes one pass over the search
    points, or two when the fallback runs. In each pass the forward
    kinematics is called on every rail pose of the enumeration, and the
    inverse kinematics on exactly the targets whose forward kinematics
    succeeded and that are within reach, in the order of the enumeration;
    the fallback computes all of them again and reuses nothing of the
    collect-all pass. *)
Theorem kinematics_calls_of_sample {Iso : Type} `{Isometry Iso}
    (self : DescartesRailedSampler Iso) (dof_range : list (list Q))
    (b : bool) (st st' : Search Iso) :
  build_dof_range (railed_limits_ self) (railed_sample_resolution_ self)
    (fk_numJoints (railed_kinematics_ self)) = inr dof_range ->
  sample self st = Ok b st' ->
  let points :=
    search_points self (tool_pose_sampler_ self (tool_pose_ self)) dof_range in
  exists l,
    calls st' = calls st ++ l
    /\ fwd_kin_joints l
       = concat (repeat (map snd points) (passes_run self st points))
    /\ inv_kin_poses l
       = concat (repeat (flat_map (ik_target self) points)
                   (passes_run self st points)).
Proof.
  intros Hb Hrun points.
  destruct (sample_calls self st Hb Hrun) as [_ Hcalls].
  fold points in Hcalls.
  eexists. split; [exact Hcalls|].
  destruct (@pass_kinematics _ _ self false points) as (A1 & _).
  destruct (@pass_kinematics _ _ self true points) as (B1 & _).
  cbv zeta in A1, B1.
  rewrite fwd_kin_joints_app, inv_kin_poses_app, A1, pass_targets.
  unfold passes_run.
  destruct (vector_empty _ && allow_collision_ self); simpl.
  - now rewrite B1, pass_targets, !app_nil_r.
  - now rewrite !app_nil_r.
Qed.

Lemma kinematics_calls_of_sample_witness :
  let self := all_colliding 1 2 true in
  let points :=
    search_points self (tool_pose_sampler_ self (tool_pose_ self))
      [LinSpaced 3 0 1] in
  exists l,
    calls (state_of (sample self (entry []))) = calls (@entry Q []) ++ l
    /\ fwd_kin_joints l
       = concat (repeat (map snd points) (passes_run self (entry []) points))
    /\ inv_kin_poses l
       = concat (repeat (flat_map (ik_target self) points)
                   (passes_run self (entry []) points)).
Proof.
  intros self points.
  apply (@kinematics_calls_of_sample Q Line self [LinSpaced 3 0 1] true
           (entry []) (state_of (sample self (entry [])))).
  - reflexivity.
  - vm_compute. reflexivity.
Defined.

(** ** The rail poses of the search *)

Lemma grid_points_drawn (dof_range : list (list Q)) : forall railed_pose,
  In railed_pose (grid_points dof_range) <-> drawn_from dof_range railed_pose.
Proof.
  unfold drawn_from.
  induction dof_range as [|range rest IH]; intro railed_pose; simpl.
  - split.
    + intros [<-|[]]. constructor.
    + intro F. inversion F. now left.
  - rewrite in_flat_map. split.
    + intros (x & Hx & Hin). apply in_map_iff in Hin.
      destruct Hin as (tl & <- & Htl). constructor; [exact Hx|].
      now apply IH.
    + intro F. inversion F as [|x range' tl rest' Hx Htl]; subst.
      exists x. split; [exact Hx|]. apply in_map. now apply IH.
Qed.

Lemma between_LinSpaced (size : nat) (lo hi x : Q) :
  In x (LinSpaced size lo hi) -> between lo hi x.
Proof.
  intro Hin. destruct size as [|[|n]].
  - destruct Hin.
  - destruct Hin as [<-|[]].
    destruct (Qlt_le_dec hi lo) as [Hlt|Hle].
    + right. split; [apply Qle_refl | now apply Qlt_le_weak].
    + left. split; [exact Hle | apply Qle_refl].
  - apply (In_nth _ _ 0%Q) in Hin. destruct Hin as (i & Hi & <-).
    rewrite LinSpaced_length in Hi.
    destruct (LinSpaced_first n lo hi) as (y0 & Hy0 & E0).
    destruct (LinSpaced_last n lo hi) as (y1 & Hy1 & E1).
    rewrite LinSpaced_length in Hy1.
    replace (S (S n) - 1) with (S n) in Hy1 by lia.
    apply (nth_error_nth _ _ 0%Q) in Hy0.
    apply (nth_error_nth _ _ 0%Q) in Hy1.
    destruct (Qlt_le_dec hi lo) as [Hlt|Hle].
    + right. apply Qlt_le_weak in Hlt.
      assert (A := @LinSpaced_nonincreasing (S (S n)) lo hi Hlt i (S n)
                     ltac:(lia) ltac:(lia)).
      assert (B := @LinSpaced_nonincreasing (S (S n)) lo hi Hlt 0 i
                     ltac:(lia) ltac:(lia)).
      rewrite Hy1 in A. rewrite Hy0 in B. rewrite E1 in A. rewrite E0 in B.
      now split.
    + left.
      assert (A := @LinSpaced_nondecreasing (S (S n)) lo hi Hle 0 i
                     ltac:(lia) ltac:(rewrite LinSpaced_length; lia)).
      assert (B := @LinSpaced_nondecreasing (S (S n)) lo hi Hle i (S n)
                     ltac:(lia) ltac:(rewrite LinSpaced_length; lia)).
      rewrite Hy0 in A. rewrite Hy1 in B. rewrite E0 in A. rewrite E1 in B.
      now split.
Qed.

Lemma Forall2_nth_error {A B} (P : A -> B -> Prop) (l : list A) (l' : list B) :
  Forall2 P l l' ->
  forall i x, nth_error l i = Some x ->
    exists y, nth_error l' i = Some y /\ P x y.
Proof.
  induction 1 as [|a b l l' Hab F IH]; intros i x Hi.
  - destruct i; discriminate.
  - destruct i as [|i]; simpl in Hi.
    + inversion Hi; subst. exists b. now split.
    + apply (IH i x Hi).
Qed.

(** What [nested_ik] stores of an element of the product of the grids. *)
Lemma stored_grid_points {Iso : Type} (self : DescartesRailedSampler Iso)
    (dof_range : list (list Q)) (railed_pose : list Q) :
  In railed_pose (grid_points (as_FloatType self dof_range))
  <-> exists point,
        drawn_from dof_range point
        /\ railed_pose = map (to_FloatType self) point.
Proof.
  unfold as_FloatType. rewrite grid_points_map, in_map_iff. split.
  - intros (point & <- & Hin). exists point.
    split; [now apply grid_points_drawn | reflexivity].
  - intros (point & Hd & ->). exists point.
    split; [reflexivity | now apply grid_points_drawn].
Qed.

(** X7. Every rail pose a returning run of [sample] hands to the forward
    kinematics is an element of the Cartesian product of the grids, its
    i-th coefficient taken from the grid of the i-th rail joint, converted
    to [FloatType] coefficient by coefficient; and, provided there is a
    tool-pose candidate, every element of the product is handed over so
    converted: the search is the full product and nothing else. *)
Theorem rail_poses_drawn_from_grids {Iso : Type} `{Isometry Iso}
    (self : DescartesRailedSampler Iso) (dof_range : list (list Q))
    (b : bool) (st st' : Search Iso) :
  build_dof_range (railed_limits_ self) (railed_sample_resolution_ self)
    (fk_numJoints (railed_kinematics_ self)) = inr dof_range ->
  sample self st = Ok b st' ->
  exists l,
    calls st' = calls st ++ l
    /\ Forall (fun railed_pose =>
                 exists point,
                   drawn_from dof_range point
                   /\ railed_pose = map (to_FloatType self) point)
         (fwd_kin_joints l)
    /\ (tool_pose_sampler_ self (tool_pose_ self) <> [] ->
        forall point,
          drawn_from dof_range point ->
          In (map (to_FloatType self) point) (fwd_kin_joints l)).
Proof.
  intros Hb Hrun.
  destruct (sample_calls self st Hb Hrun) as [_ Hcalls].
  set (points := search_points self (tool_pose_sampler_ self (tool_pose_ self))
                   dof_range) in *.
  eexists. split; [exact Hcalls|].
  destruct (@pass_kinematics _ _ self false points) as (A1 & _).
  destruct (@pass_kinematics _ _ self true points) as (B1 & _).
  cbv zeta in A1, B1.
  assert (Hrail : forall railed_pose,
            In railed_pose (map snd points) ->
            exists point,
              drawn_from dof_range point
              /\ railed_pose = map (to_FloatType self) point).
  { intros railed_pose Hin. unfold points in Hin.
    rewrite search_points_rail in Hin. apply in_flat_map in Hin.
    destruct Hin as (_ & _ & Hin). now apply stored_grid_points. }
  rewrite fwd_kin_joints_app, A1. split.
  - apply Forall_app. split; [now apply Forall_forall|].
    destruct (vector_empty _ && allow_collision_ self); [|constructor].
    rewrite B1. now apply Forall_forall.
  - intros Hne point Hd. apply in_or_app. left.
    unfold points. rewrite search_points_rail. apply in_flat_map.
    destruct (tool_pose_sampler_ self (tool_pose_ self)) as [|tp tps];
      [congruence|].
    exists tp. split; [now left|]. apply stored_grid_points. now exists point.
Qed.

(** A [float] sampler: the grid value 1.1, a double, reaches the forward
    kinematics as the nearest [float], 9227469 / 2^23. *)
Lemma rail_poses_drawn_from_grids_witness :
  let dof_range := [LinSpaced 2 0 double_1_1] in
  exists l,
    calls (state_of (sample float_rail (entry []))) = calls (@entry Q []) ++ l
    /\ Forall (fun railed_pose =>
                 exists point,
                   drawn_from dof_range point
                   /\ railed_pose = map to_float point)
         (fwd_kin_joints l)
    /\ (tool_pose_sampler_ float_rail (tool_pose_ float_rail) <> [] ->
        forall point,
          drawn_from dof_range point ->
          In (map to_float point) (fwd_kin_joints l)).
Proof.
  intro dof_range.
  apply (@rail_poses_drawn_from_grids Q Line float_rail dof_range true
           (entry []) (state_of (sample float_rail (entry [])))).
  - vm_compute. reflexivity.
  - vm_compute. reflexivity.
Defined.

(** What the forward kinematics of the [float] sampler is asked: the rail
    poses 0 and 9227469 / 2^23, the second of which is not the grid value
    1.1 and lies above the upper limit of the joint; and what [sample]
    returns: at each rail pose the robot joint value 0.1 as a [float],
    13421773 / 2^27. *)
Example float_rail_pose_is_converted :
  map (map Qred) (fwd_kin_joints (calls (state_of (sample float_rail (entry [])))))
  = [[0%Q]; [(9227469 # 8388608)%Q]]
  /\ (double_1_1 < 9227469 # 8388608)%Q
  /\ map Qred (solution_set (state_of (sample float_rail (entry []))))
     = [0; 13421773 # 134217728; 9227469 # 8388608; 13421773 # 134217728]%Q.
Proof. repeat split; vm_compute; reflexivity. Qed.

(** The values of a grid lie between the two limits of its joint. *)
Lemma build_dof_range_between limits resolution n dof_range i g lo hi x :
  build_dof_range limits resolution n = inr dof_range ->
  nth_error dof_range i = Some g ->
  nth_error limits i = Some (lo, hi) ->
  In x g -> between lo hi x.
Proof.
  intros Hb Hg Hl Hx.
  assert (Hi : i < n).
  { rewrite <- (build_dof_range_length _ _ _ Hb).
    apply nth_error_Some. congruence. }
  destruct (@build_dof_range_nth limits resolution n dof_range i Hb Hi)
    as (g' & Hg' & Hgrid).
  assert (g' = g) by congruence. subst g'.
  apply grid_of_dof_inv in Hgrid.
  destruct Hgrid as (lo' & hi' & r & q & Hl' & _ & _ & _ & _ & ->).
  assert (lo' = lo /\ hi' = hi) as [-> ->] by (split; congruence).
  eapply between_LinSpaced. exact Hx.
Qed.

(** X8. For [FloatType = double], where storing a grid value converts
    nothing, and with [LinSpaced] as Eigen defines it, every rail pose a
    returning run of [sample] hands to the forward kinematics has one
    coefficient for each rail joint, and each coefficient lies between the
    two limits of its joint, whichever of the two is the lower: the rail is
    never sampled outside its limits. (For [float] it can be, as
    [float_rail_pose_is_converted] shows.) *)
Theorem rail_poses_within_limits {Iso : Type} `{Isometry Iso}
    (self : DescartesRailedSampler Iso) (b : bool) (st st' : Search Iso) :
  (forall x, to_FloatType self x = x) ->
  sample self st = Ok b st' ->
  exists l,
    calls st' = calls st ++ l
    /\ Forall (fun railed_pose =>
                 length railed_pose = fk_numJoints (railed_kinematics_ self)
                 /\ within_limits (railed_limits_ self) railed_pose)
         (fwd_kin_joints l).
Proof.
  intros Hdouble Hrun.
  destruct (build_dof_range (railed_limits_ self) (railed_sample_resolution_ self)
              (fk_numJoints (railed_kinematics_ self))) as [u|dof_range] eqn:Hb.
  { rewrite (sample_undefined_grid self st Hb) in Hrun. discriminate. }
  destruct (sample_calls self st Hb Hrun) as [_ Hcalls].
  set (points := search_points self (tool_pose_sampler_ self (tool_pose_ self))
                   dof_range) in *.
  eexists. split; [exact Hcalls|].
  destruct (@pass_kinematics _ _ self false points) as (A1 & _).
  destruct (@pass_kinematics _ _ self true points) as (B1 & _).
  cbv zeta in A1, B1.
  assert (Hrail : forall railed_pose,
            In railed_pose (map snd points) ->
            length railed_pose = fk_numJoints (railed_kinematics_ self)
            /\ within_limits (railed_limits_ self) railed_pose).
  { intros railed_pose Hin. unfold points in Hin.
    rewrite search_points_rail in Hin. apply in_flat_map in Hin.
    destruct Hin as (_ & _ & Hin).
    apply stored_grid_points in Hin. destruct Hin as (point & Hd & ->).
    rewrite (map_ext _ (fun x => x) Hdouble), map_id.
    assert (Hin := proj2 (grid_points_drawn dof_range point) Hd).
    split.
    - rewrite (grid_points_in_length _ _ Hin).
      apply (build_dof_range_length _ _ _ Hb).
    - intros i x lo hi Hx Hl.
      destruct (Forall2_nth_error Hd _ Hx) as (g & Hg & Hxg).
      exact (@build_dof_range_between _ _ _ _ _ _ _ _ _ Hb Hg Hl Hxg). }
  rewrite fwd_kin_joints_app, A1.
  apply Forall_app. split; [now apply Forall_forall|].
  destruct (vector_empty _ && allow_collision_ self); [|constructor].
  rewrite B1. now apply Forall_forall.
Qed.

Lemma rail_poses_within_limits_witness :
  exists l,
    calls (state_of (sample inverted_bounds (entry []))) = calls (@entry Q []) ++ l
    /\ Forall (fun railed_pose =>
                 length railed_pose
                 = fk_numJoints (railed_kinematics_ inverted_bounds)
                 /\ within_limits (railed_limits_ inverted_bounds) railed_pose)
         (fwd_kin_joints l).
Proof.
  apply (@rail_poses_within_limits Q Line inverted_bounds true (entry [])
           (state_of (sample inverted_bounds (entry [])))).
  - intro x. reflexivity.
  - vm_compute. reflexivity.
Defined.

(** ** Corners of the enumeration *)

Section EnumerationCorners.
Context {Iso : Type} `{Isometry Iso}.
Variable self : DescartesRailedSampler Iso.

(** From any rail pose of the right size, [nested_ik] visits the points of
    the grid. *)
Lemma nested_ik_enumerates_from dof_range p sample_pose flag st :
  length dof_range = fk_numJoints (railed_kinematics_ self) ->
  length sample_pose = fk_numJoints (railed_kinematics_ self) ->
  bind (nested_ik self 0 dof_range p sample_pose flag) (fun _ => ret tt) st
  = for_each (grid_points (as_FloatType self dof_range))
      (fun railed_pose => visit self flag (p, railed_pose)) st.
Proof.
  intros Hlen Hsp. unfold nested_ik. rewrite Nat.sub_0_r.
  destruct (nested_ik_from_enumerates self dof_range p flag
              (fk_numJoints (railed_kinematics_ self)) 0 sample_pose)
    as (sp' & _ & _ & E).
  { exact Hsp. }
  { exact Hlen. }
  etransitivity; [apply bind_ext; [exact E | reflexivity]|].
  etransitivity; [apply bind_assoc|].
  simpl skipn. simpl firstn.
  etransitivity; [|apply bind_ret_tt].
  apply bind_ext; [|reflexivity].
  intro st'. rewrite for_each_map. reflexivity.
Qed.




End EnumerationCorners.

(** X9. The rail pose vector [sample] allocates without initialising it is
    never read before it is written: whatever it holds, [nested_ik] entered
    at level 0 overwrites every coefficient before [ikAt] sees the vector,
    so that the run does not depend on the vector it is given. *)
Theorem rail_pose_written_before_read {Iso : Type} `{Isometry Iso}
    (self : DescartesRailedSampler Iso) (dof_range : list (list Q)) (p : Iso)
    (sample_pose sample_pose' : list Q) (flag : bool) (st : Search Iso) :
  length dof_range = fk_numJoints (railed_kinematics_ self) ->
  length sample_pose = fk_numJoints (railed_kinematics_ self) ->
  length sample_pose' = fk_numJoints (railed_kinematics_ self) ->
  bind (nested_ik self 0 dof_range p sample_pose flag) (fun _ => ret tt) st
  = bind (nested_ik self 0 dof_range p sample_pose' flag) (fun _ => ret tt) st.
Proof.
  intros Hlen Hsp Hsp'.
  rewrite (@nested_ik_enumerates_from _ _ self dof_range p sample_pose flag st
             Hlen Hsp).
  rewrite (@nested_ik_enumerates_from _ _ self dof_range p sample_pose' flag st
             Hlen Hsp').
  reflexivity.
Qed.

Lemma rail_pose_written_before_read_witness :
  bind (nested_ik two_joint_rail 0 [LinSpaced 3 0 1; LinSpaced 4 0 3] 2%Q
          [5%Q; 7%Q] false) (fun _ => ret tt) (entry [])
  = bind (nested_ik two_joint_rail 0 [LinSpaced 3 0 1; LinSpaced 4 0 3] 2%Q
            [0%Q; 0%Q] false) (fun _ => ret tt) (entry []).
Proof.
  apply (@rail_pose_written_before_read Q Line two_joint_rail
           [LinSpaced 3 0 1; LinSpaced 4 0 3] 2%Q [5%Q; 7%Q] [0%Q; 0%Q] false
           (entry [])); reflexivity.
Defined.





(** ** What one point of the search does with the inverse kinematics *)

Lemma firstn_plus {A} (l : list A) : forall a b,
  firstn (a + b) l = firstn a l ++ firstn b (skipn a l).
Proof.
  induction l as [|x l IH]; intros a b.
  - now rewrite !firstn_nil, skipn_nil, firstn_nil.
  - destruct a as [|a]; simpl; [reflexivity|]. now rewrite IH.
Qed.

Lemma chunks_concat {A} (d : nat) (l : list A) : forall n,
  concat (map (fun i => firstn d (skipn (d * i) l)) (seq 0 n))
  = firstn (d * n) l.
Proof.
  induction n as [|n IH].
  - now rewrite Nat.mul_0_r.
  - rewrite seq_S, map_app, concat_app, IH. simpl.
    now rewrite app_nil_r, Nat.mul_succ_r, firstn_plus.
Qed.

Section PointInverseKinematics.
Context {Iso : Type} `{Isometry Iso}.
Variable self : DescartesRailedSampler Iso.

Lemma branches_validity_queries flag (branches : list (list Q)) :
  is_valid_queries (flat_map (branch_calls self flag) branches) = branches.
Proof.
  induction branches as [|s branches IH]; simpl; [reflexivity|].
  rewrite is_valid_queries_app, IH. unfold branch_calls.
  destruct (is_valid_ self s); destruct (collision_ self); destruct flag;
    reflexivity.
Qed.

(** Where a configuration the search visits comes from. *)
Lemma visited_origin points full_sol :
  In full_sol (visited self points) ->
  exists point rail_tf robot_solution_set i,
    In point points
    /\ calcFwdKin (railed_kinematics_ self) (snd point) = Some rail_tf
    /\ within_reach self (compose (inverse rail_tf) (fst point))
    /\ calcInvKin (robot_kinematics_ self)
         (compose (inverse rail_tf) (fst point)) (ik_seed_ self)
       = Some robot_solution_set
    /\ i < length robot_solution_set / ik_numJoints (robot_kinematics_ self)
    /\ full_sol
       = full_solution self (snd point) robot_solution_set
           (ik_numJoints (robot_kinematics_ self)) i
    /\ is_valid_ self full_sol = true.
Proof.
  unfold visited. intro Hin. apply in_flat_map in Hin.
  destruct Hin as (point & Hp & Hin).
  unfold valid_configurations, ik_branches in Hin.
  destruct (calcFwdKin _ _) as [rail_tf|] eqn:Hfk; [|destruct Hin].
  cbv zeta in Hin.
  destruct (Qltb _ _) eqn:Hreach; [destruct Hin|].
  destruct (calcInvKin _ _ _) as [sols|] eqn:Hik; [|destruct Hin].
  destruct (_ =? 0); [destruct Hin|].
  apply filter_In in Hin. destruct Hin as [Hin Hv].
  apply in_map_iff in Hin. destruct Hin as (i & <- & Hi).
  apply in_seq in Hi.
  exists point, rail_tf, sols, i.
  split; [exact Hp|]. split; [exact Hfk|]. split; [exact Hreach|].
  split; [exact Hik|]. split; [lia|]. split; [reflexivity | exact Hv].
Qed.

Lemma search_points_origin tool_poses dof_range point :
  In point (search_points self tool_poses dof_range) ->
  exists tool_poses_i,
    In tool_poses_i tool_poses
    /\ fst point = in_rail_frame self tool_poses_i
    /\ In (snd point) (grid_points (as_FloatType self dof_range)).
Proof.
  unfold search_points. intro Hin. apply in_flat_map in Hin.
  destruct Hin as (t & Ht & Hin). apply in_map_iff in Hin.
  destruct Hin as (q & <- & Hq). exists t. now repeat split.
Qed.

End PointInverseKinematics.

(** X12. At a rail pose where the forward kinematics succeeds and the target
    is within reach, [ikAt] cuts the vector the inverse kinematics returns
    into consecutive robot solutions of [robot_dof] scalars, asks the
    validity rule about the rail pose followed by each of them converted to
    [FloatType], in order, and never looks at what is left over when the
    length of the vector is not a multiple of [robot_dof]. *)
Theorem inverse_kinematics_result_cut_whole {Iso : Type} `{Isometry Iso}
    (self : DescartesRailedSampler Iso) (p : Iso) (railed_pose : list Q)
    (flag b : bool) (st st' : Search Iso) (rail_tf : Iso)
    (robot_solution_set : list Q) :
  ikAt self p railed_pose flag st = Ok b st' ->
  calcFwdKin (railed_kinematics_ self) railed_pose = Some rail_tf ->
  within_reach self (compose (inverse rail_tf) p) ->
  calcInvKin (robot_kinematics_ self) (compose (inverse rail_tf) p)
    (ik_seed_ self) = Some robot_solution_set ->
  exists l robot_solutions rest,
    calls st' = calls st ++ l
    /\ is_valid_queries l
       = map (fun sol => railed_pose ++ map (to_FloatType self) sol)
           robot_solutions
    /\ Forall (fun sol => length sol = ik_numJoints (robot_kinematics_ self))
         robot_solutions
    /\ robot_solution_set = concat robot_solutions ++ rest
    /\ length rest < ik_numJoints (robot_kinematics_ self).
Proof.
  intros Hrun Hfk Hreach Hik.
  set (d := ik_numJoints (robot_kinematics_ self)).
  assert (Hd : d <> 0).
  { intro E0. unfold ikAt, bind, record_call in Hrun. simpl in Hrun.
    rewrite Hfk in Hrun. unfold within_reach in Hreach.
    rewrite Hreach in Hrun. simpl in Hrun. rewrite Hik in Hrun.
    fold d in Hrun. rewrite E0 in Hrun. discriminate. }
  assert (Hcalls := ikAt_calls self flag (p, railed_pose) st Hrun).
  unfold point_calls, ik_branches in Hcalls. simpl fst in Hcalls.
  simpl snd in Hcalls. rewrite Hfk in Hcalls. cbv zeta in Hcalls.
  unfold within_reach in Hreach. rewrite Hreach, Hik in Hcalls.
  fold d in Hcalls.
  destruct (d =? 0) eqn:E0; [apply Nat.eqb_eq in E0; contradiction|].
  set (n := length robot_solution_set / d) in *.
  set (chunk := fun i => firstn d (skipn (d * i) robot_solution_set)).
  eexists. exists (map chunk (seq 0 n)), (skipn (d * n) robot_solution_set).
  split; [exact Hcalls|].
  assert (Hle : d * n <= length robot_solution_set)
    by apply Nat.Div0.mul_div_le.
  split; [|split; [|split]].
  - change (is_valid_queries (?a :: ?b :: ?l)) with (is_valid_queries l).
    rewrite branches_validity_queries, map_map. reflexivity.
  - apply Forall_forall. intros sol Hin. apply in_map_iff in Hin.
    destruct Hin as (i & <- & Hi). apply in_seq in Hi. unfold chunk.
    rewrite length_firstn, length_skipn.
    assert (d * S i <= d * n) by (apply Nat.mul_le_mono_l; lia). lia.
  - unfold chunk. rewrite chunks_concat. symmetry. apply firstn_skipn.
  - rewrite length_skipn. subst n.
    assert (Hm := Nat.div_mod_eq (length robot_solution_set) d).
    assert (Hu := Nat.mod_upper_bound (length robot_solution_set) d Hd).
    lia.
Qed.

Lemma inverse_kinematics_result_cut_whole_witness :
  exists l robot_solutions rest,
    calls (state_of (ikAt (as_float ragged) 2%Q [1 # 2]%Q false (entry [])))
    = calls (@entry Q []) ++ l
    /\ is_valid_queries l
       = map (fun sol => [1 # 2]%Q ++ map to_float sol) robot_solutions
    /\ Forall (fun sol => length sol = 2) robot_solutions
    /\ [- (1 # 2) + 2; double_0_1; - (1 # 2) + 2; 1; 9]%Q = concat robot_solutions ++ rest
    /\ length rest < 2.
Proof.
  apply (@inverse_kinematics_result_cut_whole Q Line (as_float ragged) 2%Q
           [1 # 2]%Q
           false true (entry [])
           (state_of (ikAt (as_float ragged) 2%Q [1 # 2]%Q false (entry [])))
           (1 # 2)%Q [- (1 # 2) + 2; double_0_1; - (1 # 2) + 2; 1; 9]%Q).
  - vm_compute. reflexivity.
  - reflexivity.
  - reflexivity.
  - reflexivity.
Defined.

(** ** The set [sample] returns *)

(** X13. Every full joint solution a run of [sample] adds to the caller's
    set, in either pass, is a rail pose followed by one whole robot
    solution, both as [FloatType] values: the rail pose is an element of
    the product of the grids, converted; the forward kinematics succeeded at
    it; the target, one of the tool-pose candidates seen from the rail, was
    within reach; the inverse kinematics returned the robot solution for
    it, which is converted as it is copied; and the validity rule accepted
    the whole. *)
Theorem returned_solutions_come_from_kinematics {Iso : Type} `{Isometry Iso}
    (self : DescartesRailedSampler Iso) (dof_range : list (list Q))
    (b : bool) (st st' : Search Iso) :
  build_dof_range (railed_limits_ self) (railed_sample_resolution_ self)
    (fk_numJoints (railed_kinematics_ self)) = inr dof_range ->
  sample self st = Ok b st' ->
  exists added,
    solution_set st' = solution_set st ++ concat added
    /\ Forall (fun full_sol =>
         exists tool_poses_i point railed_pose rail_tf robot_solution_set i,
           In tool_poses_i (tool_pose_sampler_ self (tool_pose_ self))
           /\ drawn_from dof_range point
           /\ railed_pose = map (to_FloatType self) point
           /\ calcFwdKin (railed_kinematics_ self) railed_pose = Some rail_tf
           /\ within_reach self
                (compose (inverse rail_tf) (in_rail_frame self tool_poses_i))
           /\ calcInvKin (robot_kinematics_ self)
                (compose (inverse rail_tf) (in_rail_frame self tool_poses_i))
                (ik_seed_ self)
              = Some robot_solution_set
           /\ i < length robot_solution_set
                  / ik_numJoints (robot_kinematics_ self)
           /\ full_sol
              = railed_pose
                ++ map (to_FloatType self)
                     (firstn (ik_numJoints (robot_kinematics_ self))
                        (skipn (ik_numJoints (robot_kinematics_ self) * i)
                           robot_solution_set))
           /\ is_valid_ self full_sol = true) added.
Proof.
  intros Hb Hrun.
  destruct (sample_calls self st Hb Hrun) as [Hdef _].
  destruct (@sample_returns Iso _ self dof_range Hb st Hdef)
    as (b' & st'' & added & l & Hs & _ & Hset & Hall & _).
  assert (st'' = st') by congruence. subst st''.
  exists added. split; [exact Hset|].
  eapply Forall_impl; [|exact Hall]. intros full_sol Hin. simpl in Hin.
  apply visited_origin in Hin.
  destruct Hin as (point & rail_tf & sols & i & Hp & Hfk & Hreach & Hik & Hi
                   & Hfull & Hv).
  apply search_points_origin in Hp.
  destruct Hp as (tool_poses_i & Ht & Hfst & Hsnd).
  rewrite Hfst in Hreach, Hik.
  apply stored_grid_points in Hsnd. destruct Hsnd as (grid_point & Hd & Hsnd).
  exists tool_poses_i, grid_point, (snd point), rail_tf, sols, i.
  split; [exact Ht|]. split; [exact Hd|]. split; [exact Hsnd|].
  split; [exact Hfk|]. split; [exact Hreach|]. split; [exact Hik|].
  split; [exact Hi|]. split; [exact Hfull | exact Hv].
Qed.

(** The [float] sampler: the solution at rail = 1.1 holds the [float]
    nearest to 1.1 and the robot joint value 0.1 converted to [float]. *)
Lemma returned_solutions_come_from_kinematics_witness :
  let self := float_rail in
  exists added,
    solution_set (state_of (sample self (entry [])))
    = solution_set (@entry Q []) ++ concat added
    /\ Forall (fun full_sol =>
         exists tool_poses_i point railed_pose rail_tf robot_solution_set i,
           In tool_poses_i (tool_pose_sampler_ self (tool_pose_ self))
           /\ drawn_from [LinSpaced 2 0 double_1_1] point
           /\ railed_pose = map (to_FloatType self) point
           /\ calcFwdKin (railed_kinematics_ self) railed_pose = Some rail_tf
           /\ within_reach self
                (compose (inverse rail_tf) (in_rail_frame self tool_poses_i))
           /\ calcInvKin (robot_kinematics_ self)
                (compose (inverse rail_tf) (in_rail_frame self tool_poses_i))
                (ik_seed_ self)
              = Some robot_solution_set
           /\ i < length robot_solution_set
                  / ik_numJoints (robot_kinematics_ self)
           /\ full_sol
              = railed_pose
                ++ map (to_FloatType self)
                     (firstn (ik_numJoints (robot_kinematics_ self))
                        (skipn (ik_numJoints (robot_kinematics_ self) * i)
                           robot_solution_set))
           /\ is_valid_ self full_sol = true) added.
Proof.
  intro self.
  apply (@returned_solutions_come_from_kinematics Q Line self
           [LinSpaced 2 0 double_1_1]
           true (entry []) (state_of (sample self (entry [])))).
  - vm_compute. reflexivity.
  - vm_compute. reflexivity.
Defined.

(** X14. When collisions are not tolerated [sample] is the collect-all pass
    and nothing more: it appends to the caller's set every configuration
    the validity rule accepts and the collision capability finds free, all
    of them and in the order of the enumeration, queries no clearance, and
    returns false with the set untouched when there is none and the
    caller's set was empty. *)
Theorem strict_sampler_collects_exactly {Iso : Type} `{Isometry Iso}
    (self : DescartesRailedSampler Iso) (dof_range : list (list Q))
    (st : Search Iso) :
  build_dof_range (railed_limits_ self) (railed_sample_resolution_ self)
    (fk_numJoints (railed_kinematics_ self)) = inr dof_range ->
  ik_numJoints (robot_kinematics_ self) <> 0 ->
  allow_collision_ self = false ->
  let points :=
    search_points self (tool_pose_sampler_ self (tool_pose_ self)) dof_range in
  exists st',
    sample self st = Ok (negb (vector_empty (solution_set st'))) st'
    /\ solution_set st'
       = solution_set st
         ++ concat (filter (collision_free self) (visited self points))
    /\ distance_queries (calls st') = distance_queries (calls st)
    /\ fwd_kin_calls (calls st') = fwd_kin_calls (calls st) + length points.
Proof.
  intros Hb Hdof Hallow points.
  assert (Hcond : vector_empty (solution_set st ++ collected self points)
                  && allow_collision_ self = false)
    by (rewrite Hallow; apply andb_false_r).
  destruct (@sample_collects Iso _ self dof_range Hb st
              (defined_at_robot_dof self _ Hdof) Hcond)
    as (l & Hlog & Hdq & _ & Hs).
  fold points in Hlog, Hs.
  exists {| solution_set := solution_set st ++ collected self points;
            distance := numeric_limits_double_min;
            calls := calls st ++ l |}.
  split; [exact Hs|]. simpl. split; [reflexivity|].
  split.
  - now rewrite distance_queries_app, Hdq, app_nil_r.
  - rewrite fwd_kin_calls_app. f_equal. exact (pass_log_calls Hlog).
Qed.

Lemma strict_sampler_collects_exactly_witness :
  let self := short_reach in
  let points :=
    search_points self (tool_pose_sampler_ self (tool_pose_ self))
      [LinSpaced 3 0 1] in
  exists st',
    sample self (entry []) = Ok (negb (vector_empty (solution_set st'))) st'
    /\ solution_set st'
       = solution_set (@entry Q [])
         ++ concat (filter (collision_free self) (visited self points))
    /\ distance_queries (calls st') = distance_queries (calls (@entry Q []))
    /\ fwd_kin_calls (calls st')
       = fwd_kin_calls (calls (@entry Q [])) + length points.
Proof.
  intros self points.
  apply (@strict_sampler_collects_exactly Q Line self [LinSpaced 3 0 1]
           (entry [])).
  - reflexivity.
  - simpl. lia.
  - reflexivity.
Defined.

(** X15. Tolerating collisions changes nothing once something is found:
    whenever the sampler that does not tolerate collisions returns true,
    the same sampler that tolerates them makes the same calls and returns
    true with the same set. *)
Theorem tolerance_changes_nothing_once_found {Iso : Type} `{Isometry Iso}
    (self : DescartesRailedSampler Iso) (st st' : Search Iso) :
  sample (tolerating self false) st = Ok true st' ->
  sample (tolerating self true) st = Ok true st'.
Proof.
  intro Hrun.
  destruct (build_dof_range (railed_limits_ self) (railed_sample_resolution_ self)
              (fk_numJoints (railed_kinematics_ self))) as [u|dof_range] eqn:Hb.
  { rewrite (@sample_undefined_grid _ _ (tolerating self false) u st Hb) in Hrun.
    discriminate. }
  rewrite (@sample_unfold _ _ (tolerating self false) dof_range st Hb) in Hrun.
  rewrite (@sample_unfold _ _ (tolerating self true) dof_range st Hb).
  cbv zeta in *.
  change (search_points (tolerating self true))
    with (search_points (tolerating self false)).
  change (@pass Iso _ (tolerating self true))
    with (@pass Iso _ (tolerating self false)).
  destruct (pass (tolerating self false) false _ _) as [[] st1|u st1];
    [|discriminate].
  change (allow_collision_ (tolerating self false)) with false in Hrun.
  change (allow_collision_ (tolerating self true)) with true.
  rewrite andb_false_r in Hrun.
  assert (Hne : negb (vector_empty (solution_set st1)) = true) by congruence.
  assert (st1 = st') by congruence. subst st1.
  destruct (vector_empty (solution_set st')); [discriminate|]. reflexivity.
Qed.

Lemma tolerance_changes_nothing_once_found_witness :
  sample (tolerating collision_unaware true) (entry [])
  = Ok true (state_of (sample (tolerating collision_unaware false) (entry []))).
Proof.
  apply (@tolerance_changes_nothing_once_found Q Line collision_unaware
           (entry [])
           (state_of (sample (tolerating collision_unaware false) (entry [])))).
  vm_compute. reflexivity.
Defined.

(** * Unvalidated configurations (C4, C5) *)




(** What the two runs come to: two forward kinematics calls and a solution
    for the inverted bounds; no call and an empty set for the resolution
    below zero. *)
Example unvalidated_limits_runs :
  (exists st,
     sample inverted_bounds (entry []) = Ok true st
     /\ map (map Qred) (fwd_kin_joints (calls st)) = [[1%Q]; [0%Q]])
  /\ (exists st,
        sample negative_resolution (entry []) = Ok false st
        /\ calls st = [] /\ solution_set st = []).
Proof.
  split; eexists; repeat split; vm_compute; reflexivity.
Qed.

(** Inverted bounds closer together than the resolution: bounds [[1, 0]]
    with resolution 2 give the one-point grid 0, and [low = 1] is never
    visited. *)
Example inverted_bounds_single_point :
  grid_of_dof [(1, 0)%Q] [2%Q] 0 = inr [0%Q].
Proof. reflexivity. Qed.

(** C5 (amended). A missing collision capability is not treated as a
    configuration error. The constructor looks at nothing but the base link
    of the rail, and builds the sampler without a collision capability;
    when the collect-all pass of that sampler leaves the set empty and
    collisions are tolerated, [sample] runs the best-only pass all the
    same: the forward kinematics is called at every search point a second
    time, and [sample] returns false. With collaborators that answer the
    same question the same way, [sample] queries no clearance distance from
    the absent capability and does not dereference it: without a collision
    capability the collect-all pass accepts every valid configuration, so
    when it leaves the set empty the best-only pass, which visits the same
    points, meets none. *)
Theorem missing_collision_capability_runs_fallback {Iso : Type} `{Isometry Iso}
    (FloatType : Q -> Q) (tool_pose : Iso) (tool_pose_sampler : Iso -> list Iso)
    (railed_kinematics : ForwardKinematics Iso)
    (robot_kinematics : InverseKinematics Iso)
    (current_state : EnvState Iso) (railed_sample_resolution : list Q)
    (robot_tcp : Iso) (robot_reach : Q) (is_valid : list Q -> bool)
    (self : DescartesRailedSampler Iso) (dof_range : list (list Q)) :
  construct FloatType tool_pose tool_pose_sampler railed_kinematics
    robot_kinematics None current_state railed_sample_resolution robot_tcp
    robot_reach true is_valid = Some self ->
  build_dof_range (railed_limits_ self) (railed_sample_resolution_ self)
    (fk_numJoints (railed_kinematics_ self)) = inr dof_range ->
  ik_numJoints (robot_kinematics_ self) <> 0 ->
  let points :=
    search_points self (tool_pose_sampler_ self (tool_pose_ self)) dof_range in
  collected self points = [] ->
  (forall (state : EnvState Iso) w,
     transforms_at (transforms state) (getBaseLinkName railed_kinematics)
     = Some w ->
     construct FloatType tool_pose tool_pose_sampler railed_kinematics
       robot_kinematics None state railed_sample_resolution robot_tcp
       robot_reach true is_valid <> None)
  /\ collision_ self = None
  /\ allow_collision_ self = true
  /\ (exists st',
        sample self (entry []) = Ok false st'
        /\ solution_set st' = []
        /\ fwd_kin_joints (calls st') = map snd points ++ map snd points
        /\ distance_queries (calls st') = [])
  /\ (forall st,
        distance_queries (calls (state_of (sample self st)))
        = distance_queries (calls st)
        /\ forall st', sample self st <> Undefined NullPointer st').
Proof.
  intros Hcons Hb Hdof points Hcol.
  assert (Hc : collision_ self = None /\ allow_collision_ self = true).
  { unfold construct in Hcons.
    destruct (transforms_at _ _); [|discriminate].
    inversion Hcons. now split. }
  destruct Hc as [Hc Hallow].
  split; [|split; [exact Hc | split; [exact Hallow | split]]].
  - intros state w Hw. unfold construct. rewrite Hw. discriminate.
  - destruct (@sample_falls_back_null Iso _ self dof_range Hb (entry [])
                (defined_at_robot_dof self _ Hdof) Hc Hcol Hallow)
      as (l & Hlog & Hdq & Hs).
    fold points in Hlog. destruct Hlog as [Hfk _].
    eexists. split; [exact Hs|]. simpl.
    split; [reflexivity|]. split; [|exact Hdq].
    now rewrite Hfk, map_app.
  - intro st. now apply no_capability_no_query.
Qed.

(** A tolerant sampler without a collision capability whose arm finds no
    solution: both passes run over the grid 0, 1/2, 1. *)
Lemma missing_collision_capability_runs_fallback_witness :
  let self := no_collision_capability stuck_arm in
  let points :=
    search_points self (tool_pose_sampler_ self (tool_pose_ self))
      [LinSpaced 3 0 1] in
  (forall (state : EnvState Q) w,
     transforms_at (transforms state) (getBaseLinkName (rail_axis 0 1))
     = Some w ->
     construct (fun x => x) 2%Q (fun pose => map (Qplus pose) [0%Q])
       (rail_axis 0 1) stuck_arm None state [2 # 5]%Q 0%Q 10%Q true
       (fun _ => true) <> None)
  /\ collision_ self = None
  /\ allow_collision_ self = true
  /\ (exists st',
        sample self (entry []) = Ok false st'
        /\ solution_set st' = []
        /\ fwd_kin_joints (calls st') = map snd points ++ map snd points
        /\ distance_queries (calls st') = [])
  /\ (forall st,
        distance_queries (calls (state_of (sample self st)))
        = distance_queries (calls st)
        /\ forall st', sample self st <> Undefined NullPointer st').
Proof.
  intros self points.
  apply (@missing_collision_capability_runs_fallback Q Line (fun x => x) 2%Q
           (fun pose => map (Qplus pose) [0%Q]) (rail_axis 0 1) stuck_arm
           Scenarios.state [2 # 5]%Q 0%Q 10%Q (fun _ => true) self
           [LinSpaced 3 0 1]).
  - reflexivity.
  - reflexivity.
  - simpl. lia.
  - vm_compute. reflexivity.
Defined.
